(** * Screenshot API: a shallow embedding of the service and its properties

    The development follows the layout of the repository:
    - [JS]: the few JavaScript string operations the sources rely on;
    - [Adblock]: [src/utils/adblock.ts];
    - [ErrorHandler]: [middleware/errorHandler.ts] and the [onError] handler
      of [src/index.ts];
    - [Validators] and [Hash]: [src/utils/hash.ts] (validators and cache key);
    - [Cache]: [services/cache.ts];
    - [RateLimiter]: [middleware/rateLimiter.ts];
    - [Browser]: [services/browser.ts], one request at a time;
    - [Route]: [routes/screenshot.ts] behind the rate limiter;
    - [BrowserLock]: [getBrowser] of [services/browser.ts] under interleaved
      callers.

    What belongs to the platform ([new URL], zod's format check, SHA-256,
    Playwright, the file system, the clock) is a parameter of the functions
    that use it.

    Time is an integer number of milliseconds ([Z]); JavaScript strings are
    modelled as [string], one [ascii] per code unit, so code units stay
    below 256. *)

From Stdlib Require Import ZArith String Ascii List Bool Lia DecimalString.
From Stdlib Require DecimalZ DecimalN.
From stdpp Require Import base option list gmap strings.

Local Open Scope Z_scope.

(* ===================================================================== *)
(** * JavaScript values, strings and completions                          *)
(* ===================================================================== *)

Module JS.

(** [ErrorCode] of [src/types/index.ts]. *)
Inductive ErrorCode :=
| VALIDATION_ERROR | RATE_LIMIT_EXCEEDED | SCREENSHOT_FAILED | TIMEOUT
| INVALID_URL | BLOCKED_URL | NOT_FOUND | INTERNAL_ERROR.

(** The value thrown by a failing operation. [JsError] is a plain
    [Error] with its message; [AppError] is the typed error class of
    [middleware/errorHandler.ts]; [NonError] is any thrown value that is
    not an [Error], with the text [String(value)] gives for it. *)
Inductive Thrown :=
| JsError (message : string)
| AppError (code : ErrorCode) (message : string) (statusCode : Z)
| NonError (text : string).

(** A completion: the call returns a value or throws. *)
Inductive completion (A : Type) :=
| Return (a : A)
| Throw (e : Thrown).
Arguments Return {A} a.
Arguments Throw {A} e.

#[export] Instance completion_ret : MRet completion := fun A a => Return a.
#[export] Instance completion_bind : MBind completion := fun A B k c =>
  match c with Return a => k a | Throw e => Throw e end.

(** [try { body } catch { handler }] *)
Definition try_catch {A} (body : completion A) (handler : Thrown -> completion A)
  : completion A :=
  match body with Return a => Return a | Throw e => handler e end.

(** ** Strings *)

(** The lower-case partner of a code unit below 256: the letters A-Z,
    and the accented capitals 0xC0-0xDE except the sign 0xD7. *)
Definition lower_ascii (c : ascii) : ascii :=
  let n := N_of_ascii c in
  if (((65 <=? n) && (n <=? 90)) || ((192 <=? n) && (n <=? 222) && negb (n =? 215)))%N
  then ascii_of_N (n + 32) else c.

(** [s.toLowerCase()] *)
Fixpoint toLowerCase (s : string) : string :=
  match s with
  | EmptyString => EmptyString
  | String c s' => String (lower_ascii c) (toLowerCase s')
  end.

(** [s.startsWith(p)] *)
Fixpoint startsWith (s p : string) {struct p} : bool :=
  match p, s with
  | EmptyString, _ => true
  | String _ _, EmptyString => false
  | String a p', String b s' => Ascii.eqb a b && startsWith s' p'
  end.

(** [s.includes(p)] *)
Fixpoint includes (s p : string) : bool :=
  startsWith s p ||
  match s with
  | EmptyString => false
  | String _ s' => includes s' p
  end.

(** [s.endsWith(p)] *)
Fixpoint endsWith (s p : string) : bool :=
  String.eqb s p ||
  match s with
  | EmptyString => false
  | String _ s' => endsWith s' p
  end.

(** [s.substring(0, n)] *)
Fixpoint substring0 (n : nat) (s : string) : string :=
  match n, s with
  | O, _ => EmptyString
  | S _, EmptyString => EmptyString
  | S n', String c s' => String c (substring0 n' s')
  end.

(** The regular expressions of the sources are all of the form
    [/literal/i]: a literal searched anywhere in the subject, letters
    compared without case. *)
Inductive RegExp := LiteralI (lit : string).

Definition test (re : RegExp) (s : string) : bool :=
  match re with
  | LiteralI lit => includes (toLowerCase s) (toLowerCase lit)
  end.

(** The result of [new URL(s)]: the two components the sources read. *)
Record URL := { protocol : string; hostname : string }.

(** [new URL(s)] belongs to the platform. It is taken as a parameter
    [parseURL] of the functions that call it: [None] stands for the
    [TypeError] thrown on a string that is not a URL. *)
Definition new_URL (parseURL : string -> option URL) (s : string) : completion URL :=
  match parseURL s with
  | Some u => Return u
  | None => Throw (JsError "Invalid URL")
  end.

End JS.
Import JS.

(* ===================================================================== *)
(** * [src/utils/adblock.ts]                                              *)
(* ===================================================================== *)

Module Adblock.

(** The blocklist; a [Set] in the source, iterated in insertion order. *)
Definition AD_DOMAINS : list string :=
  [ "doubleclick.net"; "googlesyndication.com"; "googleadservices.com";
    "google-analytics.com"; "googletagmanager.com"; "googletagservices.com";
    "pagead2.googlesyndication.com";
    "facebook.net"; "fbcdn.net"; "connect.facebook.net";
    "ads-twitter.com"; "analytics.twitter.com";
    "amazon-adsystem.com"; "aax.amazon-adsystem.com";
    "adnxs.com"; "adsrvr.org"; "adform.net"; "criteo.com"; "criteo.net";
    "outbrain.com"; "taboola.com"; "pubmatic.com"; "rubiconproject.com";
    "openx.net"; "casalemedia.com"; "moatads.com"; "quantserve.com";
    "scorecardresearch.com"; "serving-sys.com";
    "hotjar.com"; "mixpanel.com"; "amplitude.com"; "segment.io";
    "segment.com"; "optimizely.com"; "crazyegg.com"; "mouseflow.com";
    "fullstory.com"; "clarity.ms";
    "popads.net"; "popcash.net"; "propellerads.com";
    "ads.linkedin.com"; "ad.doubleclick.net" ].

Definition AD_URL_PATTERNS : list RegExp :=
  [ LiteralI "/ads/"; LiteralI "/ad/"; LiteralI "/advert"; LiteralI "/banner";
    LiteralI "/sponsor"; LiteralI "/tracking"; LiteralI "/analytics.js";
    LiteralI "/gtag/js"; LiteralI "/pixel/"; LiteralI "/beacon" ].

Section WithURLParser.

Variable parseURL : string -> option URL.

(** The body of the [try] block. *)
Definition shouldBlockUrl_try (url : string) : completion bool :=
  parsed ← new_URL parseURL url;
  let hostname := toLowerCase (hostname parsed) in
  if existsb (String.eqb hostname) AD_DOMAINS then Return true
  else if existsb (fun blockedDomain => endsWith hostname ("." +:+ blockedDomain))
                  AD_DOMAINS then Return true
  else if existsb (fun pattern => test pattern url) AD_URL_PATTERNS then Return true
  else Return false.

Definition shouldBlockUrl (url : string) : completion bool :=
  try_catch (shouldBlockUrl_try url) (fun _ => Return false).

End WithURLParser.

(** What the predicate is meant to decide, in words of domains and
    patterns rather than of the loops. *)
Definition host_listed (host : string) : Prop :=
  exists d, In d AD_DOMAINS /\ (host = d \/ exists sub, host = sub +:+ "." +:+ d).

Definition path_listed (url : string) : Prop :=
  exists lit, In (LiteralI lit) AD_URL_PATTERNS /\
    exists l r, toLowerCase url = l +:+ toLowerCase lit +:+ r.

End Adblock.

(* ===================================================================== *)
(** * [middleware/errorHandler.ts] and [app.onError] of [src/index.ts]    *)
(* ===================================================================== *)

Module ErrorHandler.

(** [ApiErrorResponse]: the whole externally visible error payload. *)
Record ApiErrorResponse := {
  error_code : ErrorCode;
  error_message : string;
  retryAfter : option Z
}.

(** A JSON error response: the payload and the HTTP status. *)
Record ErrorReply := { reply_body : ApiErrorResponse; reply_status : Z }.

Inductive Pattern :=
| PRegExp (re : RegExp)
| PString (s : string).

Record PatternEntry := {
  pattern : Pattern;
  code : ErrorCode;
  status : Z;
  message : option string
}.

Definition entry (re : string) (c : ErrorCode) (st : Z) (m : string) : PatternEntry :=
  {| pattern := PRegExp (LiteralI re); code := c; status := st; message := Some m |}.

(** The table of the middleware. *)
Definition ERROR_PATTERNS : list PatternEntry :=
  [ entry "timeout" TIMEOUT 504 "The page took too long to load";
    entry "net::ERR_NAME_NOT_RESOLVED" INVALID_URL 400 "Could not resolve the domain name";
    entry "net::ERR_CONNECTION_REFUSED" SCREENSHOT_FAILED 502
          "Connection refused by the target server";
    entry "net::ERR_SSL" SCREENSHOT_FAILED 502 "SSL/TLS error when connecting to the target";
    entry "net::ERR_CERT" SCREENSHOT_FAILED 502
          "Certificate error when connecting to the target";
    entry "Navigation failed" SCREENSHOT_FAILED 502 "Failed to navigate to the page";
    entry "Protocol error" INTERNAL_ERROR 500 "Browser communication error";
    entry "blocked" BLOCKED_URL 403 "This URL is blocked for security reasons" ].

(** The table of [src/index.ts]. *)
Definition ERROR_PATTERNS_index : list PatternEntry :=
  [ entry "timeout" TIMEOUT 504 "The page took too long to load";
    entry "net::ERR_NAME_NOT_RESOLVED" INVALID_URL 400 "Could not resolve the domain name";
    entry "net::ERR_CONNECTION_REFUSED" SCREENSHOT_FAILED 502
          "Connection refused by the target server";
    entry "net::ERR_SSL" SCREENSHOT_FAILED 502 "SSL/TLS error when connecting to the target";
    entry "Navigation failed" SCREENSHOT_FAILED 502 "Failed to navigate to the page" ].

Definition matches (p : Pattern) (errorMessage : string) : bool :=
  match p with
  | PString s => includes errorMessage s
  | PRegExp re => test re errorMessage
  end.

Record Classified := { cl_code : ErrorCode; cl_status : Z; cl_message : string }.

(** [message || errorMessage] *)
Definition message_or (m : option string) (errorMessage : string) : string :=
  match m with
  | Some s => if String.eqb s "" then errorMessage else s
  | None => errorMessage
  end.

Definition generic_message : string := "An unexpected error occurred".

(** The [for ... of] loop of [classifyError], with its early return, over
    the rest [table] of the table. *)
Fixpoint classify_from (table : list PatternEntry) (errorMessage : string) : Classified :=
  match table with
  | [] => {| cl_code := INTERNAL_ERROR; cl_status := 500; cl_message := generic_message |}
  | e :: rest =>
      if matches (pattern e) errorMessage
      then {| cl_code := code e; cl_status := status e;
              cl_message := message_or (message e) errorMessage |}
      else classify_from rest errorMessage
  end.

Definition classifyError (error_message : string) : Classified :=
  let errorMessage := error_message in
  classify_from ERROR_PATTERNS errorMessage.

Definition formatErrorResponse (c : ErrorCode) (m : string) (retry : option Z)
  : ApiErrorResponse :=
  {| error_code := c; error_message := m; retryAfter := retry |}.

(** The [catch] branch of the [errorHandler] middleware. *)
Definition errorHandler_catch (error : Thrown) : ErrorReply :=
  match error with
  | AppError c m st =>
      {| reply_body := formatErrorResponse c m None; reply_status := st |}
  | JsError m =>
      let cl := classifyError m in
      {| reply_body := formatErrorResponse (cl_code cl) (cl_message cl) None;
         reply_status := cl_status cl |}
  | NonError _ =>
      {| reply_body := formatErrorResponse INTERNAL_ERROR generic_message None;
         reply_status := 500 |}
  end.

(** The loop of [app.onError]: [Some] is the [return] inside the loop. *)
Fixpoint onError_loop (table : list PatternEntry) (err_message : string)
  : option ErrorReply :=
  match table with
  | [] => None
  | e :: rest =>
      if matches (pattern e) err_message
      then Some {| reply_body := {| error_code := code e;
                                    error_message := default "" (message e);
                                    retryAfter := None |};
                   reply_status := status e |}
      else onError_loop rest err_message
  end.

Definition default_reply : ErrorReply :=
  {| reply_body := {| error_code := INTERNAL_ERROR; error_message := generic_message;
                      retryAfter := None |};
     reply_status := 500 |}.

(** [app.onError], the handler the application installs. *)
Definition onError (err : Thrown) : ErrorReply :=
  match err with
  | AppError c m st =>
      {| reply_body := {| error_code := c; error_message := m; retryAfter := None |};
         reply_status := st |}
  | JsError m =>
      match onError_loop ERROR_PATTERNS_index m with
      | Some r => r
      | None => default_reply
      end
  | NonError _ => default_reply
  end.

Definition throwValidationError {A} (m : string) : completion A :=
  Throw (AppError VALIDATION_ERROR m 400).

Definition throwNotFoundError {A} (m : string) : completion A :=
  Throw (AppError NOT_FOUND m 404).

Definition throwScreenshotError {A} (m : string) : completion A :=
  Throw (AppError SCREENSHOT_FAILED m 502).

(** The fixed messages of the two tables and the default one. *)
Definition canned_messages : list string :=
  generic_message ::
  (omap message ERROR_PATTERNS ++ omap message ERROR_PATTERNS_index)%list.

(** Every entry of either table carries its own non-empty message, so
    [message || errorMessage] never falls back on the raw text. *)
Definition own_message (e : PatternEntry) : bool :=
  match message e with
  | Some s => negb (String.eqb s "")
  | None => false
  end.

(** First match wins: [e] is the first entry of [table] that matches. *)
Definition first_match (table : list PatternEntry) (m : string) (e : PatternEntry) : Prop :=
  exists before after,
    table = (before ++ e :: after)%list /\
    matches (pattern e) m = true /\
    Forall (fun e' => matches (pattern e') m = false) before.

Definition no_match (table : list PatternEntry) (m : string) : Prop :=
  Forall (fun e' => matches (pattern e') m = false) table.

End ErrorHandler.

(* ===================================================================== *)
(** * [src/utils/validators.ts]                                           *)
(* ===================================================================== *)

Module Validators.

Inductive Device := desktop | tablet | mobile.
Inductive WaitFor := load | domcontentloaded | networkidle.

(** [ScreenshotRequest], the type inferred from the schema: [width] and
    [height] stay optional, the other fields have defaults. *)
Record ScreenshotRequest := {
  url : string;
  width : option Z;
  height : option Z;
  fullPage : bool;
  darkMode : bool;
  blockAds : bool;
  device : Device;
  waitFor : WaitFor;
  timeout : Z
}.

(** A field of the parsed JSON body. [JFraction] is a number that is not
    an integer, [JCompound] an array or an object. *)
Inductive Json :=
| JUndefined | JNull | JBool (b : bool) | JInt (n : Z) | JFraction
| JString (s : string) | JCompound.

Record Body := {
  body_url : Json;
  body_width : Json;
  body_height : Json;
  body_fullPage : Json;
  body_darkMode : Json;
  body_blockAds : Json;
  body_device : Json;
  body_waitFor : Json;
  body_timeout : Json
}.

(** ** The pattern [/^(\d{1,3})\.(\d{1,3})\.(\d{1,3})\.(\d{1,3})$/] *)

Definition is_digit (c : ascii) : bool :=
  let n := N_of_ascii c in ((48 <=? n) && (n <=? 57))%N.

(** The longest run of digits at the head of [s], and what follows it. *)
Fixpoint span_digits (s : string) : string * string :=
  match s with
  | EmptyString => (EmptyString, EmptyString)
  | String c s' =>
      if is_digit c
      then let '(ds, rest) := span_digits s' in (String c ds, rest)
      else (EmptyString, s)
  end.

(** A group [(\d{1,3})] followed by something that is not a digit. *)
Definition digit_group (s : string) : option (string * string) :=
  let '(ds, rest) := span_digits s in
  if ((1 <=? String.length ds) && (String.length ds <=? 3))%nat
  then Some (ds, rest) else None.

Definition expect_dot (s : string) : option string :=
  match s with
  | String "." s' => Some s'
  | _ => None
  end.

(** [hostname.match(ipPattern)]: the four captured groups. *)
Definition ipPattern_match (hostname : string) : option (string * string * string * string) :=
  '(a, r) ← digit_group hostname; r ← expect_dot r;
  '(b, r) ← digit_group r; r ← expect_dot r;
  '(c, r) ← digit_group r; r ← expect_dot r;
  '(d, r) ← digit_group r;
  if String.eqb r "" then Some (a, b, c, d) else None.

(** [Number(ds)] on a run of decimal digits. *)
Definition Number_of_digits (ds : string) : Z :=
  fold_left (fun acc c => 10 * acc + (Z.of_N (N_of_ascii c) - 48))
            (list_ascii_of_string ds) 0.

Definition allowed_protocols : list string := [ "http:"; "https:" ].

Definition blockedHostnames : list string :=
  [ "localhost"; "127.0.0.1"; "0.0.0.0"; "::1";
    "metadata.google.internal"; "169.254.169.254" ].

Definition list_includes (l : list string) (s : string) : bool :=
  existsb (String.eqb s) l.

Section WithPlatform.

Variable parseURL : string -> option URL.

(** The check of [z.string().url()], which belongs to zod: [None] when
    it refuses the text, otherwise the value it hands on to the
    refinements and into the parsed data. zod 4 rewrites the value (it
    trims it, or replaces it by the normalised text, depending on the
    release), so what is handed on need not be the text received. *)
Variable zod_url : string -> option string.

(** First refinement: only http and https. *)
Definition refine_protocol (url : string) : bool :=
  match new_URL parseURL url with
  | Return parsed => list_includes allowed_protocols (protocol parsed)
  | Throw _ => false
  end.

(** Second refinement: no internal or private host. *)
Definition refine_host (url : string) : bool :=
  match new_URL parseURL url with
  | Return parsed =>
      let hostname := toLowerCase (hostname parsed) in
      if list_includes blockedHostnames hostname then false
      else
        match ipPattern_match hostname with
        | Some (a, b, _, _) =>
            let a := Number_of_digits a in
            let b := Number_of_digits b in
            if (a =? 10)%Z then false
            else if ((a =? 172) && (16 <=? b) && (b <=? 31))%Z then false
            else if ((a =? 192) && (b =? 168))%Z then false
            else true
        | None => true
        end
  | Throw _ => false
  end.

(** [urlSchema] accepts the field: the refinements see the value the
    format check hands on, and that value is the parsed [url]. *)
Definition urlSchema (v : Json) : option string :=
  match v with
  | JString s =>
      match zod_url s with
      | Some url => if refine_protocol url && refine_host url then Some url else None
      | None => None
      end
  | _ => None
  end.

(** [z.number().int().min(lo).max(hi).optional()] *)
Definition optional_int (lo hi : Z) (v : Json) : option (option Z) :=
  match v with
  | JUndefined => Some None
  | JInt n => if ((lo <=? n) && (n <=? hi))%Z then Some (Some n) else None
  | _ => None
  end.

(** [z.boolean().optional().default(d)] *)
Definition boolean_default (d : bool) (v : Json) : option bool :=
  match v with
  | JUndefined => Some d
  | JBool b => Some b
  | _ => None
  end.

Definition device_default (v : Json) : option Device :=
  match v with
  | JUndefined => Some desktop
  | JString s =>
      if String.eqb s "desktop" then Some desktop
      else if String.eqb s "tablet" then Some tablet
      else if String.eqb s "mobile" then Some mobile
      else None
  | _ => None
  end.

Definition waitFor_default (v : Json) : option WaitFor :=
  match v with
  | JUndefined => Some networkidle
  | JString s =>
      if String.eqb s "load" then Some load
      else if String.eqb s "domcontentloaded" then Some domcontentloaded
      else if String.eqb s "networkidle" then Some networkidle
      else None
  | _ => None
  end.

(** [screenshotRequestSchema.safeParse(body)]; [None] is a failure.
    A body that is not an object is [None] already at the caller. *)
Definition safeParse (body : option Body) : option ScreenshotRequest :=
  b ← body;
  u ← urlSchema (body_url b);
  w ← optional_int 320 3840 (body_width b);
  h ← optional_int 240 2160 (body_height b);
  fp ← boolean_default false (body_fullPage b);
  dm ← boolean_default false (body_darkMode b);
  ba ← boolean_default true (body_blockAds b);
  dv ← device_default (body_device b);
  wf ← waitFor_default (body_waitFor b);
  t ← optional_int 5000 60000 (body_timeout b);
  Some {| url := u; width := w; height := h; fullPage := fp; darkMode := dm;
          blockAds := ba; device := dv; waitFor := wf;
          timeout := default 30000 t |}.

(** The text zod builds from the issues of a failed parse. *)
Variable issues_text : option Body -> string.

Inductive Validation :=
| Success (data : ScreenshotRequest)
| Failure (error : string).

Definition validateScreenshotRequest (body : option Body) : Validation :=
  match safeParse body with
  | Some data => Success data
  | None =>
      let allErrors := issues_text body in
      Failure (if String.eqb allErrors "" then "Validation failed" else allErrors)
  end.

End WithPlatform.

(** The dotted-quad text of four octets, as the URL parser prints an
    IPv4 host. *)
Definition octet_text (n : Z) : string := NilEmpty.string_of_uint (N.to_uint (Z.to_N n)).

Definition dotted_quad (a b c d : Z) : string :=
  octet_text a +:+ "." +:+ octet_text b +:+ "." +:+ octet_text c +:+ "." +:+ octet_text d.

Definition octet (n : Z) : Prop := 0 <= n <= 255.

Definition all_digits (s : string) : bool := forallb is_digit (list_ascii_of_string s).

(** What is needed of the text of an octet: one to three digits that
    read back as the octet. *)
Definition octet_ok (n : Z) : bool :=
  all_digits (octet_text n)
  && (1 <=? String.length (octet_text n))%nat
  && (String.length (octet_text n) <=? 3)%nat
  && (Number_of_digits (octet_text n) =? n).

(** The private ranges 10.0.0.0/8, 172.16.0.0/12 and 192.168.0.0/16. *)
Definition private_range (a b : Z) : Prop :=
  a = 10 \/ (a = 172 /\ 16 <= b <= 31) \/ (a = 192 /\ b = 168).

End Validators.

(* ===================================================================== *)
(** * [src/utils/hash.ts]                                                 *)
(* ===================================================================== *)

Module Hash.
Import Validators.

(** ** [JSON.stringify] on the values the cache key is built from *)

Definition dquote : ascii := "034"%char.
Definition backslash : ascii := "092"%char.

Definition hex_digit (n : N) : ascii :=
  if (n <? 10)%N then ascii_of_N (48 + n) else ascii_of_N (87 + n).

(** The escape of one code unit inside a JSON string. *)
Definition escape_char (c : ascii) : string :=
  match N_of_ascii c with
  | 8%N => String backslash "b"
  | 9%N => String backslash "t"
  | 10%N => String backslash "n"
  | 12%N => String backslash "f"
  | 13%N => String backslash "r"
  | 34%N => String backslash (String dquote "")
  | 92%N => String backslash (String backslash "")
  | n =>
      if (n <? 32)%N
      then String backslash
             ("u00" +:+ String (hex_digit (n / 16)) (String (hex_digit (n mod 16)) ""))
      else String c ""
  end.

Fixpoint escape (s : string) : string :=
  match s with
  | EmptyString => EmptyString
  | String c s' => escape_char c +:+ escape s'
  end.

Definition quoteJSONString (s : string) : string :=
  String dquote (escape s +:+ String dquote "").

(** [String(n)] for an integer. *)
Definition Number_toString (n : Z) : string := NilEmpty.string_of_int (Z.to_int n).

Definition boolean_text (b : bool) : string := if b then "true" else "false".

Definition device_text (d : Device) : string :=
  match d with desktop => "desktop" | tablet => "tablet" | mobile => "mobile" end.

Definition waitFor_text (w : WaitFor) : string :=
  match w with
  | load => "load" | domcontentloaded => "domcontentloaded" | networkidle => "networkidle"
  end.

(** The object literal [normalized]. *)
Record Normalized := {
  n_url : string;
  n_width : option Z;
  n_height : option Z;
  n_fullPage : bool;
  n_darkMode : bool;
  n_blockAds : bool;
  n_device : Device;
  n_waitFor : WaitFor
}.

Definition normalized (request : ScreenshotRequest) : Normalized :=
  {| n_url := url request;
     n_width := width request;
     n_height := height request;
     n_fullPage := fullPage request;
     n_darkMode := darkMode request;
     n_blockAds := blockAds request;
     n_device := device request;
     n_waitFor := waitFor request |}.

Definition key (name : string) : string := quoteJSONString name +:+ ":".

(** A property whose value is [undefined] is left out. *)
Definition optional_member (name : string) (v : option Z) : string :=
  match v with
  | Some n => "," +:+ key name +:+ Number_toString n
  | None => ""
  end.

(** [JSON.stringify(normalized)]: the members in the order of the
    literal. *)
Definition JSON_stringify (n : Normalized) : string :=
  "{" +:+ key "url" +:+ quoteJSONString (n_url n)
  +:+ optional_member "width" (n_width n)
  +:+ optional_member "height" (n_height n)
  +:+ "," +:+ key "fullPage" +:+ boolean_text (n_fullPage n)
  +:+ "," +:+ key "darkMode" +:+ boolean_text (n_darkMode n)
  +:+ "," +:+ key "blockAds" +:+ boolean_text (n_blockAds n)
  +:+ "," +:+ key "device" +:+ quoteJSONString (device_text (n_device n))
  +:+ "," +:+ key "waitFor" +:+ quoteJSONString (waitFor_text (n_waitFor n))
  +:+ "}".

Section WithDigest.

(** [crypto.createHash('sha256').update(str).digest('hex')] *)
Variable sha256_hex : string -> string.

Definition generateCacheKey (request : ScreenshotRequest) : string :=
  let str := JSON_stringify (normalized request) in
  let hash := sha256_hex str in
  substring0 16 hash.

End WithDigest.

(** Two requests differ at most in [timeout]. *)
Definition same_but_timeout (r1 r2 : ScreenshotRequest) : Prop :=
  url r1 = url r2 /\ width r1 = width r2 /\ height r1 = height r2 /\
  fullPage r1 = fullPage r2 /\ darkMode r1 = darkMode r2 /\
  blockAds r1 = blockAds r2 /\ device r1 = device r2 /\ waitFor r1 = waitFor r2.

(** A digest for the examples: it is not SHA-256, it only has its
    output format (64 hexadecimal characters). *)
Definition toy_digest (s : string) : string :=
  let h := hex_digit (N.of_nat (String.length s) mod 16) in
  String h (String h "0123456789abcdef0123456789abcdef0123456789abcdef0123456789abcd").

(** Reading back one escaped code unit from the head of a string; [None]
    at the closing quote. *)
Definition unhex (c : ascii) : N :=
  let n := N_of_ascii c in
  if (n <? 58)%N then (n - 48)%N else (n - 87)%N.

Definition unescape_head (s : string) : option (ascii * string) :=
  match s with
  | EmptyString => None
  | String c r =>
      if Ascii.eqb c dquote then None
      else if Ascii.eqb c backslash then
        match r with
        | String "b" r' => Some (ascii_of_N 8, r')
        | String "t" r' => Some (ascii_of_N 9, r')
        | String "n" r' => Some (ascii_of_N 10, r')
        | String "f" r' => Some (ascii_of_N 12, r')
        | String "r" r' => Some (ascii_of_N 13, r')
        | String "u" (String "0" (String "0" (String h1 (String h2 r')))) =>
            Some (ascii_of_N (16 * unhex h1 + unhex h2), r')
        | String x r' =>
            if Ascii.eqb x dquote then Some (dquote, r')
            else if Ascii.eqb x backslash then Some (backslash, r')
            else None
        | EmptyString => None
        end
      else Some (c, r)
  end.

(** The characters [String(n)] is made of. *)
Definition number_char (c : ascii) : bool :=
  is_digit c || Ascii.eqb c "-".

(** Lower-case hexadecimal text, the format of [digest('hex')]. *)
Definition is_hex (c : ascii) : bool :=
  let n := N_of_ascii c in
  (((48 <=? n) && (n <=? 57)) || ((97 <=? n) && (n <=? 102)))%N.

Definition hex_text (s : string) : bool := forallb is_hex (list_ascii_of_string s).

End Hash.

(* ===================================================================== *)
(** * [src/config.ts]                                                     *)
(* ===================================================================== *)

Module Config.

(** The entries of [config] the modelled code reads. They come from the
    environment, so they are a value, not constants. *)
Record Config := {
  baseUrl : string;
  cacheTtl : Z;
  windowMs : Z;
  maxRequests : Z
}.

(** The defaults: one hour, one hour, ten requests. *)
Definition defaults : Config :=
  {| baseUrl := "http://localhost:3000";
     cacheTtl := 60 * 60 * 1000; windowMs := 60 * 60 * 1000; maxRequests := 10 |}.

(** [config.devices] *)
Definition device_width (d : Validators.Device) : Z :=
  match d with
  | Validators.desktop => 1920 | Validators.tablet => 768 | Validators.mobile => 375
  end.

Definition device_height (d : Validators.Device) : Z :=
  match d with
  | Validators.desktop => 1080 | Validators.tablet => 1024 | Validators.mobile => 667
  end.

End Config.

(* ===================================================================== *)
(** * [services/cache.ts]                                                 *)
(* ===================================================================== *)

Module Cache.
Import Config.

Record ScreenshotMetadata := {
  id : string;
  meta_url : string;
  meta_width : Z;
  meta_height : Z;
  meta_fullPage : bool;
  fileSize : Z;
  capturedAt : Z;
  meta_expiresAt : Z
}.

Record CacheEntry := {
  data : ScreenshotMetadata;
  createdAt : Z;
  expiresAt : Z
}.

(** The module-level [Map]. Its iteration order is not modelled: the
    key list of [getCacheStats] is a list of the keys in some order. *)
Abbreviation Store := (gmap string CacheEntry).

(** Each function takes the store and the value [now] of [Date.now()]
    and returns the new store next to its result. *)
Definition setCache (cfg : Config) (cache : Store) (now : Z)
    (key : string) (d : ScreenshotMetadata) : Store :=
  <[key := {| data := d; createdAt := now; expiresAt := now + cacheTtl cfg |}]> cache.

Definition getCache (cache : Store) (now : Z) (key : string)
  : option ScreenshotMetadata * Store :=
  match cache !! key with
  | None => (None, cache)
  | Some entry =>
      if now >? expiresAt entry
      then (None, delete key cache)
      else (Some (data entry), cache)
  end.

Definition hasCache (cache : Store) (now : Z) (key : string) : bool * Store :=
  let '(r, cache') := getCache cache now key in (bool_decide (is_Some r), cache').

Definition deleteCache (cache : Store) (key : string) : bool * Store :=
  (bool_decide (is_Some (cache !! key)), delete key cache).

Definition clearCache (cache : Store) : Store := ∅.

(** The sweep shared by [getCacheStats] and [cleanupExpiredCache]: every
    entry with [now > entry.expiresAt] is deleted. *)
Definition sweep (cache : Store) (now : Z) : Store :=
  filter (fun kv => ¬ (now > expiresAt kv.2)) cache.

Record Stats := { stats_size : nat; stats_keys : list string }.

Definition getCacheStats (cache : Store) (now : Z) : Stats * Store :=
  let cache' := sweep cache now in
  ({| stats_size := size cache'; stats_keys := (map_to_list cache').*1 |}, cache').

Definition cleanupExpiredCache (cache : Store) (now : Z) : nat * Store :=
  let cache' := sweep cache now in
  (size cache - size cache', cache')%nat.

(** The reading of "live" in the data model: strictly before expiry. *)
Definition live_strict (entry : CacheEntry) (now : Z) : Prop := now < expiresAt entry.

(** What [getCache] implements: not past expiry. *)
Definition live (entry : CacheEntry) (now : Z) : Prop := now <= expiresAt entry.

End Cache.

(* ===================================================================== *)
(** * [middleware/rateLimiter.ts]                                         *)
(* ===================================================================== *)

Module RateLimiter.
Import Config ErrorHandler.

(** [rateLimitStore]: client key to request instants. *)
Abbreviation Store := (gmap string (list Z)).

Record Headers := {
  x_forwarded_for : option string;
  x_real_ip : option string
}.

Definition is_space (c : ascii) : bool :=
  let n := N_of_ascii c in
  (((9 <=? n) && (n <=? 13)) || (n =? 32) || (n =? 160))%N.

Fixpoint trimStart (s : string) : string :=
  match s with
  | String c s' => if is_space c then trimStart s' else s
  | EmptyString => EmptyString
  end.

Fixpoint trimEnd (s : string) : string :=
  match s with
  | EmptyString => EmptyString
  | String c s' =>
      match trimEnd s' with
      | EmptyString => if is_space c then EmptyString else String c EmptyString
      | t => String c t
      end
  end.

Definition trim (s : string) : string := trimEnd (trimStart s).

(** [s.split(',')[0]] *)
Fixpoint before_comma (s : string) : string :=
  match s with
  | EmptyString => EmptyString
  | String c s' => if Ascii.eqb c "," then EmptyString else String c (before_comma s')
  end.

Definition truthy (h : option string) : option string :=
  match h with
  | Some s => if String.eqb s "" then None else Some s
  | None => None
  end.

Definition getClientIp (h : Headers) : string :=
  match truthy (x_forwarded_for h) with
  | Some forwarded => trim (before_comma forwarded)
  | None =>
      match truthy (x_real_ip h) with
      | Some realIp => realIp
      | None => "unknown"
      end
  end.

Definition cleanupTimestamps (timestamps : list Z) (windowStart : Z) : list Z :=
  filter (fun ts => ts > windowStart) timestamps.

(** [Math.min(...timestamps)] on a non-empty array. *)
Definition Math_min (first : Z) (rest : list Z) : Z := foldl Z.min first rest.

Record RateCheck := { allowed : bool; remaining : Z; resetIn : Z }.

Definition checkRateLimit (cfg : Config) (store : Store) (now : Z) (ip : string)
  : RateCheck :=
  let windowStart := now - windowMs cfg in
  let timestamps := default [] (store !! ip) in
  let timestamps := cleanupTimestamps timestamps windowStart in
  let count := Z.of_nat (length timestamps) in
  let remaining := Z.max 0 (maxRequests cfg - count) in
  let allowed := count <? maxRequests cfg in
  let resetIn :=
    match timestamps with
    | [] => windowMs cfg
    | t :: rest =>
        let oldestTimestamp := Math_min t rest in
        oldestTimestamp + windowMs cfg - now
    end in
  {| allowed := allowed; remaining := remaining; resetIn := resetIn |}.

Definition recordRequest (cfg : Config) (store : Store) (now : Z) (ip : string) : Store :=
  let windowStart := now - windowMs cfg in
  let timestamps := default [] (store !! ip) in
  let timestamps := cleanupTimestamps timestamps windowStart in
  <[ip := timestamps ++ [now]]> store.

(** [Math.ceil(a / b)] for integers [a] and [b > 0]. *)
Definition ceil_div (a b : Z) : Z := - ((- a) / b).

(** The three [X-RateLimit-*] headers. *)
Record RateHeaders := { limit_header : Z; remaining_header : Z; reset_header : Z }.

Definition rate_headers (cfg : Config) (r : RateCheck) : RateHeaders :=
  {| limit_header := maxRequests cfg;
     remaining_header := remaining r;
     reset_header := ceil_div (resetIn r) 1000 |}.

Definition exceeded_message (cfg : Config) (resetMinutes : Z) : string :=
  "You've exceeded " +:+ Hash.Number_toString (maxRequests cfg)
  +:+ " requests per hour. Try again in " +:+ Hash.Number_toString resetMinutes
  +:+ " minute" +:+ (if resetMinutes =? 1 then "" else "s") +:+ ".".

Definition rate_limit_reply (cfg : Config) (r : RateCheck) : ErrorReply :=
  let resetMinutes := ceil_div (resetIn r) 60000 in
  {| reply_body := {| error_code := RATE_LIMIT_EXCEEDED;
                      error_message := exceeded_message cfg resetMinutes;
                      retryAfter := Some (ceil_div (resetIn r) 1000) |};
     reply_status := 429 |}.

(** The middleware up to [await next()]: the headers it sets, then
    either the 429 reply or the store with the request recorded.
    [now_check] and [now_record] are the two readings of the clock. *)
Definition rateLimiter (cfg : Config) (store : Store) (now_check now_record : Z)
    (ip : string) : RateHeaders * (ErrorReply + Store) :=
  let r := checkRateLimit cfg store now_check ip in
  (rate_headers cfg r,
   if allowed r then inr (recordRequest cfg store now_record ip)
   else inl (rate_limit_reply cfg r)).

(** A client sending requests one after the other: the decisions of
    the middleware, oldest first, and the final store. *)
Fixpoint serve (cfg : Config) (store : Store) (ip : string) (times : list (Z * Z))
  : list bool * Store :=
  match times with
  | [] => ([], store)
  | (now_check, now_record) :: rest =>
      match (rateLimiter cfg store now_check now_record ip).2 with
      | inr store' =>
          let '(ds, final) := serve cfg store' ip rest in (true :: ds, final)
      | inl _ =>
          let '(ds, final) := serve cfg store ip rest in (false :: ds, final)
      end
  end.

(** All the clock readings of [times] fall in one window starting at [t0]. *)
Definition within_window (cfg : Config) (t0 : Z) (times : list (Z * Z)) : Prop :=
  Forall (fun p => t0 <= p.1 < t0 + windowMs cfg /\ t0 <= p.2 < t0 + windowMs cfg) times.

(** The decisions expected for [n] requests in a row when [c] requests
    already count in the window: allowed while the count is below the
    maximum. *)
Definition decisions (cfg : Config) (c n : nat) : list bool :=
  map (fun i => Z.of_nat (c + i) <? maxRequests cfg) (seq 0 n).

End RateLimiter.

(* ===================================================================== *)
(** * [services/browser.ts], one request at a time                        *)
(* ===================================================================== *)

Module Browser.
Import Validators Config.

Definition Buffer := list Byte.byte.

Inductive ColorScheme := dark | light.

(** The options of [browserInstance.newContext]. *)
Record ContextOptions := {
  viewport_width : Z;
  viewport_height : Z;
  userAgent : string;
  deviceScaleFactor : Z;
  isMobile : bool;
  hasTouch : bool;
  colorScheme : ColorScheme;
  javaScriptEnabled : bool;
  bypassCSP : bool;
  ignoreHTTPSErrors : bool
}.

(** The calls made to Playwright, in order. [EvAttempt n] marks the
    start of attempt [n] of a capture; creation calls carry their
    success. Handles of launched browsers are numbered. *)
Inductive Event :=
| EvAttempt (n : nat)
| EvBrowserClose (h : nat)
| EvLaunch (result : option nat)
| EvNewContext (h : nat) (opts : ContextOptions) (ok : bool)
| EvNewPage (ok : bool)
| EvRoute
| EvGoto (url : string) (timeout : Z)
| EvWaitForLoadState (w : WaitFor)
| EvWaitForTimeout (ms : Z)
| EvScreenshot (fullPage : bool)
| EvPageClose
| EvContextClose.

(** The module state: the variable [browser], the number of launches
    so far, and the trace of calls. With one request at a time
    [browserLock] is [null] whenever a function is entered and is reset by
    the [finally] of the launch, so it is not part of this state; the
    interleaved behaviour is the subject of [BrowserLock]. *)
Record World := {
  browser : option nat;
  launches : nat;
  trace : list Event
}.

Definition emit (e : Event) (w : World) : World :=
  {| browser := browser w; launches := launches w; trace := trace w ++ [e] |}.

Definition set_browser (b : option nat) (w : World) : World :=
  {| browser := b; launches := launches w; trace := trace w |}.

(** What Playwright answers during one attempt: the outcome of each
    call, should the attempt come to make it. *)
Record Script := {
  isConnected : bool;
  launch : completion unit;
  newContext : completion unit;
  newPage : completion unit;
  route : completion unit;
  goto : completion unit;
  waitForLoadState : completion unit;
  waitForTimeout : completion unit;
  screenshot : completion (option Buffer);
  page_close : completion unit;
  context_close : completion unit
}.

(** [if (browser) { try { await browser.close() } catch {} browser = null }] *)
Definition close_and_forget (w : World) : World :=
  match browser w with
  | Some h => set_browser None (emit (EvBrowserClose h) w)
  | None => w
  end.

Definition getBrowser (sc : Script) (w : World) : completion nat * World :=
  match browser w with
  | Some h =>
      if isConnected sc then (Return h, w)
      else
        let w := close_and_forget w in
        match launch sc with
        | Return _ =>
            let h' := launches w in
            (Return h',
             {| browser := Some h'; launches := S h'; trace := trace w ++ [EvLaunch (Some h')] |})
        | Throw e => (Throw e, emit (EvLaunch None) w)
        end
  | None =>
      match launch sc with
      | Return _ =>
          let h' := launches w in
          (Return h',
           {| browser := Some h'; launches := S h'; trace := trace w ++ [EvLaunch (Some h')] |})
      | Throw e => (Throw e, emit (EvLaunch None) w)
      end
  end.

Definition getUserAgent (d : Device) : string :=
  match d with
  | desktop =>
      "Mozilla/5.0 (Windows NT 10.0; Win64; x64) AppleWebKit/537.36 (KHTML, like Gecko) Chrome/120.0.0.0 Safari/537.36"
  | tablet =>
      "Mozilla/5.0 (iPad; CPU OS 17_0 like Mac OS X) AppleWebKit/605.1.15 (KHTML, like Gecko) Version/17.0 Mobile/15E148 Safari/604.1"
  | mobile =>
      "Mozilla/5.0 (iPhone; CPU iPhone OS 17_0 like Mac OS X) AppleWebKit/605.1.15 (KHTML, like Gecko) Version/17.0 Mobile/15E148 Safari/604.1"
  end.

(** [a || b] on an optional number: [undefined] and [0] give [b]. *)
Definition number_or (a : option Z) (b : Z) : Z :=
  match a with
  | Some n => if n =? 0 then b else n
  | None => b
  end.

Definition is_mobile (d : Device) : bool :=
  match d with mobile => true | _ => false end.

Definition is_tablet (d : Device) : bool :=
  match d with tablet => true | _ => false end.

Definition context_options (options : ScreenshotRequest) : ContextOptions :=
  {| viewport_width := number_or (width options) (device_width (device options));
     viewport_height := number_or (height options) (device_height (device options));
     userAgent := getUserAgent (device options);
     deviceScaleFactor := if is_mobile (device options) then 2 else 1;
     isMobile := is_mobile (device options);
     hasTouch := is_mobile (device options) || is_tablet (device options);
     colorScheme := if darkMode options then dark else light;
     javaScriptEnabled := true;
     bypassCSP := true;
     ignoreHTTPSErrors := true |}.

Definition createContext (options : ScreenshotRequest) (sc : Script) (w : World)
  : completion unit * World :=
  match getBrowser sc w with
  | (Throw e, w) => (Throw e, w)
  | (Return browserInstance, w) =>
      match newContext sc with
      | Return _ => (Return tt, emit (EvNewContext browserInstance (context_options options) true) w)
      | Throw e => (Throw e, emit (EvNewContext browserInstance (context_options options) false) w)
      end
  end.

(** The decision of the route handler installed by [setupAdBlocking]. *)
Inductive RouteDecision := Abort (reason : string) | Continue.

Definition route_handler (parseURL : string -> option URL) (url : string)
  : completion RouteDecision :=
  blocked ← Adblock.shouldBlockUrl parseURL url;
  if blocked : bool then Return (Abort "blockedbyclient") else Return Continue.

Definition setupAdBlocking (sc : Script) (w : World) : completion unit * World :=
  (route sc, emit EvRoute w).

(** [waitForPage]: the wait for the load state, then 500 ms more. *)
Definition waitForPage (waitFor : WaitFor) (sc : Script) (w : World)
  : completion unit * World :=
  let w := emit (EvWaitForLoadState waitFor) w in
  match waitForLoadState sc with
  | Throw e => (Throw e, w)
  | Return _ => (waitForTimeout sc, emit (EvWaitForTimeout 500) w)
  end.

(** [e instanceof Error ? e.message : String(e)] *)
Definition message_text (e : Thrown) : string :=
  match e with
  | JsError m => m
  | AppError _ m _ => m
  | NonError t => t
  end.

(** [error instanceof Error ? error : new Error(String(error))] *)
Definition as_Error (e : Thrown) : Thrown :=
  match e with
  | NonError t => JsError t
  | _ => e
  end.

Definition pngSignature : list Byte.byte :=
  [ Byte.x89; Byte.x50; Byte.x4e; Byte.x47; Byte.x0d; Byte.x0a; Byte.x1a; Byte.x0a ].

(** [pngSignature.every((byte, i) => bufferArray[i] === byte)] *)
Definition isValidPng (bufferArray : Buffer) : bool :=
  forallb id
    (imap (fun i byte =>
             match bufferArray !! i with
             | Some b => Byte.eqb b byte
             | None => false
             end) pngSignature).

Definition empty_buffer_message : string := "Screenshot capture returned empty buffer".
Definition invalid_png_message : string := "Screenshot capture returned invalid PNG data".

Definition validate_buffer (buffer : option Buffer) : completion Buffer :=
  match buffer with
  | None => Throw (JsError empty_buffer_message)
  | Some b =>
      if (length b =? 0)%nat then Throw (JsError empty_buffer_message)
      else if negb (isValidPng b) then Throw (JsError invalid_png_message)
      else Return b
  end.

(** The completion of an attempt that got as far as [page.screenshot]. *)
Definition payload_result (sc : Script) : completion Buffer :=
  match screenshot sc with
  | Return buffer => validate_buffer buffer
  | Throw e => Throw e
  end.

(** The local variables [context] and [page]: set or still [null]. *)
Record Locals := { context : bool; page : bool }.

Section WithURLParser.

Variable parseURL : string -> option URL.

(** [page.goto] with the [catch] that rewrites navigation errors. *)
Definition navigate (options : ScreenshotRequest) (sc : Script) : completion unit :=
  match goto sc with
  | Return _ => Return tt
  | Throw navError =>
      let msg := message_text navError in
      if includes msg "ERR_NAME_NOT_RESOLVED" then
        parsed ← new_URL parseURL (url options);
        Throw (JsError ("Could not resolve domain: " +:+ hostname parsed))
      else if includes msg "ERR_CONNECTION_REFUSED" then
        parsed ← new_URL parseURL (url options);
        Throw (JsError ("Connection refused by " +:+ hostname parsed))
      else if includes msg "ERR_CONNECTION_TIMED_OUT" || includes msg "Timeout" then
        Throw (JsError ("Timeout navigating to " +:+ url options))
      else Throw navError
  end.

(** The [try] block of [captureScreenshotOnce]: its completion, the
    locals at the moment it is left, and the world. *)
Definition captureScreenshotOnce_try (options : ScreenshotRequest) (sc : Script)
    (w : World) : completion Buffer * Locals * World :=
  match createContext options sc w with
  | (Throw e, w) => (Throw e, {| context := false; page := false |}, w)
  | (Return _, w) =>
      match newPage sc with
      | Throw e => (Throw e, {| context := true; page := false |}, emit (EvNewPage false) w)
      | Return _ =>
          let w := emit (EvNewPage true) w in
          let both := {| context := true; page := true |} in
          match (if blockAds options then setupAdBlocking sc w else (Return tt, w)) with
          | (Throw e, w) => (Throw e, both, w)
          | (Return _, w) =>
              let w := emit (EvGoto (url options) (timeout options)) w in
              match navigate options sc with
              | Throw e => (Throw e, both, w)
              | Return _ =>
                  (* a failed wait is only logged *)
                  let w := (waitForPage (waitFor options) sc w).2 in
                  let w := emit (EvScreenshot (fullPage options)) w in
                  match screenshot sc with
                  | Throw e => (Throw e, both, w)
                  | Return buffer => (validate_buffer buffer, both, w)
                  end
              end
          end
      end
  end.

(** [p.catch(() => {})]: a rejection becomes a normal completion. *)
Definition catch_discard (c : completion unit) : completion unit :=
  try_catch c (fun _ => Return tt).

(** The [finally] block: page first, then context. *)
Definition captureScreenshotOnce_finally (l : Locals) (sc : Script) (w : World)
  : completion unit * World :=
  let '(r, w) :=
    if page l then (catch_discard (page_close sc), emit EvPageClose w)
    else (Return tt, w) in
  match r with
  | Throw e => (Throw e, w)
  | Return _ =>
      if context l then (catch_discard (context_close sc), emit EvContextClose w)
      else (Return tt, w)
  end.

(** [try { ... } finally { ... }]: an exception of the [finally] block
    would replace the completion of the [try] block. *)
Definition captureScreenshotOnce (options : ScreenshotRequest) (sc : Script)
    (w : World) : completion Buffer * World :=
  let '(r, l, w) := captureScreenshotOnce_try options sc w in
  match captureScreenshotOnce_finally l sc w with
  | (Throw e, w) => (Throw e, w)
  | (Return _, w) => (r, w)
  end.

Definition maxRetries : nat := 2.

Definition retryable (msg : string) : bool :=
  includes msg "closed" || includes msg "Target page" || includes msg "Protocol error".

(** The [for] loop of [captureScreenshot] with [remaining] iterations
    to go, at iteration [attempt]; [scripts n] is what Playwright answers
    during attempt [n]. Leaving the loop throws [lastError]. *)
Fixpoint captureScreenshot_loop (options : ScreenshotRequest) (scripts : nat -> Script)
    (remaining attempt : nat) (lastError : option Thrown) (w : World)
  : completion Buffer * World :=
  match remaining with
  | O => (Throw (default (JsError "Screenshot capture failed") lastError), w)
  | S remaining' =>
      match captureScreenshotOnce options (scripts attempt) (emit (EvAttempt attempt) w) with
      | (Return b, w) => (Return b, w)
      | (Throw error, w) =>
          let lastError := as_Error error in
          let msg := message_text lastError in
          if retryable msg then
            captureScreenshot_loop options scripts remaining' (S attempt)
              (Some lastError) (close_and_forget w)
          else (Throw lastError, w)
      end
  end.

Definition captureScreenshot (options : ScreenshotRequest) (scripts : nat -> Script)
    (w : World) : completion Buffer * World :=
  captureScreenshot_loop options scripts (S maxRetries) 0 None w.

(** Attempt [n] on its own, as the loop runs it. *)
Definition attempt_at (options : ScreenshotRequest) (scripts : nat -> Script)
    (n : nat) (w : World) : completion Buffer * World :=
  captureScreenshotOnce options (scripts n) (emit (EvAttempt n) w).

End WithURLParser.

(** The same answers, with other outcomes for the two [close] calls of
    the [finally] block. *)
Definition with_close_outcomes (sc : Script) (pc cc : completion unit) : Script :=
  {| isConnected := isConnected sc; launch := launch sc; newContext := newContext sc;
     newPage := newPage sc; route := route sc; goto := goto sc;
     waitForLoadState := waitForLoadState sc; waitForTimeout := waitForTimeout sc;
     screenshot := screenshot sc; page_close := pc; context_close := cc |}.

(** Events of the session of one attempt: creations and closes. *)
Definition context_created (e : Event) : bool :=
  match e with EvNewContext _ _ true => true | _ => false end.

Definition page_created (e : Event) : bool :=
  match e with EvNewPage true => true | _ => false end.

Definition is_close (e : Event) : bool :=
  match e with EvPageClose | EvContextClose => true | _ => false end.

Definition is_page_close (e : Event) : bool :=
  match e with EvPageClose => true | _ => false end.

Definition is_context_close (e : Event) : bool :=
  match e with EvContextClose => true | _ => false end.

Definition is_screenshot (e : Event) : bool :=
  match e with EvScreenshot _ => true | _ => false end.

Definition is_launch (e : Event) : bool :=
  match e with EvLaunch _ => true | _ => false end.

Definition is_attempt (e : Event) : bool :=
  match e with EvAttempt _ => true | _ => false end.

(** The events added to the trace between two worlds. *)
Definition new_events (w w' : World) : list Event := drop (length (trace w)) (trace w').

(** What the loop throws for a failed attempt, and whether it goes on. *)
Definition rethrown (r : completion Buffer) : completion Buffer :=
  match r with
  | Return b => Return b
  | Throw e => Throw (as_Error e)
  end.

Definition retried (r : completion Buffer) : bool :=
  match r with
  | Return _ => false
  | Throw e => retryable (message_text (as_Error e))
  end.

(** The number of events of a kind in a trace. *)
Definition count (p : Event -> bool) (t : list Event) : nat := length (List.filter p t).

Definition attempts (t : list Event) : nat := count is_attempt t.

(** The closes owed for what [body] created: the page, then the
    context. *)
Definition closes_for (body : list Event) : list Event :=
  (if existsb page_created body then [EvPageClose] else []) ++
  (if existsb context_created body then [EvContextClose] else []).

End Browser.

(* ===================================================================== *)
(** * [routes/screenshot.ts] behind the middleware of [src/index.ts]      *)
(* ===================================================================== *)

Module Route.
Import Validators Hash Config Cache RateLimiter ErrorHandler Browser.

Record ScreenshotResponse := {
  resp_url : string;
  resp_cachedAt : Z;
  resp_expiresAt : Z;
  resp_width : Z;
  resp_height : Z;
  resp_fullPage : bool;
  resp_fileSize : Z
}.

(** The three kinds of response: JSON success, the image itself, or the
    JSON error built by [app.onError] or by the rate limiter. *)
Inductive Response :=
| Json (status : Z) (xcache : string) (data : ScreenshotResponse)
| Image (status : Z) (xcache : string) (bytes : Buffer)
| Failed (reply : ErrorReply).

(** The calls a request makes to the services, in order. *)
Inductive Call :=
| CallRecordRequest (ip : string)
| CallGetCache (key : string)
| CallGetScreenshot (id : string)
| CallCaptureScreenshot
| CallSaveScreenshot (id : string)
| CallSetCache (key : string).

(** The state shared by the requests. *)
Record Server := {
  cache : Cache.Store;
  rateLimitStore : RateLimiter.Store;
  world : World;
  calls : list Call
}.

(** One request, with what its environment answers: the readings of the
    clock, the answers of Playwright to each attempt, the identifier
    [generateScreenshotId] draws, and the outcomes of the storage calls. *)
Record Request := {
  headers : Headers;
  body : option Body;
  returnImage : bool;
  now_check : Z;
  now_record : Z;
  now_lookup : Z;
  now_captured : Z;
  now_stored : Z;
  scripts : nat -> Script;
  screenshotId : string;
  saveScreenshot : completion unit;
  getScreenshot : completion (option Buffer)
}.

Definition logged (c : Call) (s : Server) : Server :=
  {| cache := cache s; rateLimitStore := rateLimitStore s; world := world s;
     calls := calls s ++ [c] |}.

Definition with_cache (c : Cache.Store) (s : Server) : Server :=
  {| cache := c; rateLimitStore := rateLimitStore s; world := world s; calls := calls s |}.

Definition with_world (w : World) (s : Server) : Server :=
  {| cache := cache s; rateLimitStore := rateLimitStore s; world := w; calls := calls s |}.

Definition with_rateLimitStore (r : RateLimiter.Store) (s : Server) : Server :=
  {| cache := cache s; rateLimitStore := r; world := world s; calls := calls s |}.

(** The host names the guard is stated for. The entry "::1" of
    [blockedHostnames] is not among them: [new URL] prints an IPv6 host
    between brackets, so [parsed.hostname] is "[::1]" for the loopback
    address. *)
Definition named_hosts : list string :=
  [ "localhost"; "127.0.0.1"; "0.0.0.0"; "metadata.google.internal"; "169.254.169.254" ].

Definition getScreenshotUrl (cfg : Config) (id : string) : string :=
  baseUrl cfg +:+ "/screenshots/" +:+ id +:+ ".png".

Definition response_of (cfg : Config) (m : ScreenshotMetadata) : ScreenshotResponse :=
  {| resp_url := getScreenshotUrl cfg (id m);
     resp_cachedAt := capturedAt m;
     resp_expiresAt := meta_expiresAt m;
     resp_width := meta_width m;
     resp_height := meta_height m;
     resp_fullPage := meta_fullPage m;
     resp_fileSize := fileSize m |}.

Section WithPlatform.

Variable parseURL : string -> option URL.
Variable zod_url : string -> option string.
Variable issues_text : option Body -> string.
Variable sha256_hex : string -> string.
Variable cfg : Config.

(** The handler of [POST /screenshot]. *)
Definition post_screenshot (rq : Request) (s : Server) : completion Response * Server :=
  match validateScreenshotRequest parseURL zod_url issues_text (body rq) with
  | Failure error => (throwValidationError error, s)
  | Success request =>
      let cacheKey := generateCacheKey sha256_hex request in
      let '(cached, cache') := getCache (cache s) (now_lookup rq) cacheKey in
      let s := logged (CallGetCache cacheKey) (with_cache cache' s) in
      match cached with
      | Some cached =>
          let json := Return (Json 200 "HIT" (response_of cfg cached)) in
          if returnImage rq then
            let s := logged (CallGetScreenshot (id cached)) s in
            match getScreenshot rq with
            | Throw e => (Throw e, s)
            | Return (Some buffer) => (Return (Image 200 "HIT" buffer), s)
            | Return None => (json, s)
            end
          else (json, s)
      | None =>
          let s := logged CallCaptureScreenshot s in
          match captureScreenshot parseURL request (scripts rq) (world s) with
          | (Throw e, w) => (Throw e, with_world w s)
          | (Return buffer, w) =>
              let s := logged (CallSaveScreenshot (screenshotId rq)) (with_world w s) in
              match saveScreenshot rq with
              | Throw e => (Throw e, s)
              | Return _ =>
                  let now := now_captured rq in
                  let metadata :=
                    {| id := screenshotId rq;
                       meta_url := url request;
                       meta_width := number_or (width request)
                                       (device_width (device request));
                       meta_height := number_or (height request)
                                        (device_height (device request));
                       meta_fullPage := fullPage request;
                       fileSize := Z.of_nat (length buffer);
                       capturedAt := now;
                       meta_expiresAt := now + cacheTtl cfg |} in
                  let s := logged (CallSetCache cacheKey)
                             (with_cache (setCache cfg (cache s) (now_stored rq)
                                            cacheKey metadata) s) in
                  if returnImage rq then (Return (Image 201 "MISS" buffer), s)
                  else (Return (Json 201 "MISS" (response_of cfg metadata)), s)
              end
          end
      end
  end.

(** [POST /screenshot] as the application serves it: the rate limiter,
    then the handler, with [app.onError] for what the handler throws. *)
Definition app_post_screenshot (rq : Request) (s : Server)
  : RateHeaders * Response * Server :=
  let ip := getClientIp (headers rq) in
  match rateLimiter cfg (rateLimitStore s) (now_check rq) (now_record rq) ip with
  | (hdrs, inl reply) => (hdrs, Failed reply, s)
  | (hdrs, inr store') =>
      let s := logged (CallRecordRequest ip) (with_rateLimitStore store' s) in
      match post_screenshot rq s with
      | (Return response, s) => (hdrs, response, s)
      | (Throw err, s) => (hdrs, Failed (onError err), s)
      end
  end.

(** A URL the guard refuses: a scheme other than http and https, a
    named host, or a dotted quad in a private range. *)
Definition forbidden_target (u : string) : Prop :=
  exists parsed, parseURL u = Some parsed /\
    (~ In (protocol parsed) allowed_protocols \/
     In (toLowerCase (hostname parsed)) named_hosts \/
     exists a b c d, octet a /\ octet b /\ octet c /\ octet d /\
       private_range a b /\ toLowerCase (hostname parsed) = dotted_quad a b c d).

End WithPlatform.

Definition is_setCache (c : Call) : bool :=
  match c with CallSetCache _ => true | _ => false end.

(** The payload [page.screenshot] hands back is unusable. *)
Definition bad_payload (p : option Buffer) : Prop :=
  match p with
  | None => True
  | Some b => b = [] \/ isValidPng b = false
  end.

End Route.

(* ===================================================================== *)
(** * [getBrowser] under interleaved callers                               *)
(* ===================================================================== *)

Module BrowserLock.

(** JavaScript runs one job at a time: a call, or the resumption of a
    suspended [async] body, runs without interruption up to its next
    [await]. The state below is what the jobs of [services/browser.ts]
    share; a step is one job, or one event of the engine.

    A body of the [async] function assigned to [browserLock] is suspended
    either at [await browser.close()] (phase [Closing]) or at
    [await chromium.launch()] (phase [Launching]); it is identified by the
    promise it will settle. *)
Inductive Phase := Closing | Launching.

#[export] Instance Phase_eq_dec : EqDecision Phase.
Proof. solve_decision. Defined.

Inductive Settled := Fulfilled (h : nat) | Rejected (e : Thrown).

(** What [getBrowser()] hands to its caller: the browser at once, or
    the promise in [browserLock]. *)
Inductive Answer := Now (h : nat) | Later (p : nat).

Record State := {
  browser : option nat;
  browserLock : option nat;
  connected : gset nat;
  tasks : gmap nat Phase;
  settled : gmap nat Settled;
  promises : nat;
  launched : nat;
  handles : nat;
  returned : list (nat * Answer)
}.

Definition init : State :=
  {| browser := None; browserLock := None; connected := ∅; tasks := ∅; settled := ∅;
     promises := 0; launched := 0; handles := 0; returned := [] |}.

Inductive Step :=
| Call (caller : nat)
| CloseSettles (p : nat)
| LaunchResolves (p : nat)
| LaunchRejects (p : nat) (e : Thrown)
| Disconnects (h : nat)
| Forget.

(** [browser && browser.isConnected()] *)
Definition live (s : State) : bool :=
  match browser s with
  | Some h => bool_decide (h ∈ connected s)
  | None => false
  end.

Definition answer (c : nat) (a : Answer) (s : State) : State :=
  {| browser := browser s; browserLock := browserLock s; connected := connected s;
     tasks := tasks s; settled := settled s; promises := promises s;
     launched := launched s; handles := handles s;
     returned := returned s ++ [(c, a)] |}.

(** [getBrowser()] called by [c]: the job runs the two tests, and when
    both fail the body of the [async] function up to its first [await],
    then the assignment to [browserLock]. *)
Definition call (c : nat) (s : State) : State :=
  match browser s with
  | Some h =>
      if bool_decide (h ∈ connected s) then answer c (Now h) s
      else
        match browserLock s with
        | Some p => answer c (Later p) s
        | None =>
            let p := promises s in
            answer c (Later p)
              {| browser := browser s; browserLock := Some p; connected := connected s;
                 tasks := <[p := Closing]> (tasks s); settled := settled s;
                 promises := S p; launched := launched s; handles := handles s;
                 returned := returned s |}
        end
  | None =>
      match browserLock s with
      | Some p => answer c (Later p) s
      | None =>
          let p := promises s in
          answer c (Later p)
            {| browser := None; browserLock := Some p; connected := connected s;
               tasks := <[p := Launching]> (tasks s); settled := settled s;
               promises := S p; launched := S (launched s); handles := handles s;
               returned := returned s |}
      end
  end.

(** The body resumes after [await browser.close()], whatever its
    outcome: [browser = null], then the launch is started. *)
Definition close_settles (p : nat) (s : State) : State :=
  match tasks s !! p with
  | Some Closing =>
      {| browser := None; browserLock := browserLock s; connected := connected s;
         tasks := <[p := Launching]> (tasks s); settled := settled s;
         promises := promises s; launched := S (launched s); handles := handles s;
         returned := returned s |}
  | _ => s
  end.

(** The body resumes with the launched browser: it is stored, returned,
    and the [finally] clears [browserLock]. *)
Definition launch_resolves (p : nat) (s : State) : State :=
  match tasks s !! p with
  | Some Launching =>
      let h := handles s in
      {| browser := Some h; browserLock := None; connected := {[h]} ∪ connected s;
         tasks := delete p (tasks s); settled := <[p := Fulfilled h]> (settled s);
         promises := promises s; launched := launched s; handles := S h;
         returned := returned s |}
  | _ => s
  end.

(** The launch fails: the [finally] clears [browserLock] and the
    promise is rejected. *)
Definition launch_rejects (p : nat) (e : Thrown) (s : State) : State :=
  match tasks s !! p with
  | Some Launching =>
      {| browser := browser s; browserLock := None; connected := connected s;
         tasks := delete p (tasks s); settled := <[p := Rejected e]> (settled s);
         promises := promises s; launched := launched s; handles := handles s;
         returned := returned s |}
  | _ => s
  end.

Definition step (s : State) (e : Step) : State :=
  match e with
  | Call c => call c s
  | CloseSettles p => close_settles p s
  | LaunchResolves p => launch_resolves p s
  | LaunchRejects p e => launch_rejects p e s
  | Disconnects h =>
      {| browser := browser s; browserLock := browserLock s;
         connected := connected s ∖ {[h]};
         tasks := tasks s; settled := settled s; promises := promises s;
         launched := launched s; handles := handles s; returned := returned s |}
  | Forget =>
      {| browser := None; browserLock := browserLock s; connected := connected s;
         tasks := tasks s; settled := settled s; promises := promises s;
         launched := launched s; handles := handles s; returned := returned s |}
  end.

Definition run (s : State) (steps : list Step) : State := foldl step s steps.

(** Launches in flight: bodies suspended at [await chromium.launch()]. *)
Definition in_flight (s : State) : nat :=
  size (filter (fun kv => kv.2 = Launching) (tasks s)).

(** What a caller ends up with, once the promise it awaits has settled. *)
Definition outcome (s : State) (a : Answer) : option Settled :=
  match a with
  | Now h => Some (Fulfilled h)
  | Later p => settled s !! p
  end.

(** The invariant of the lock: [browserLock] holds the promise of the
    one suspended body, and is [null] when there is none; promises of
    bodies are not settled and were created before. *)
Definition lock_inv (s : State) : Prop :=
  match browserLock s with
  | None => tasks s = ∅
  | Some p => (exists ph, tasks s = {[p := ph]}) /\ settled s !! p = None
  end /\
  (forall q, is_Some (tasks s !! q) \/ is_Some (settled s !! q) -> (q < promises s)%nat).

(** The steps that bring the attempt [p], started from a state whose
    variable [browser] was [b], to the end of its launch. *)
Definition to_launch_end (b : option nat) (p : nat) (last : Step) : list Step :=
  match b with
  | Some _ => [CloseSettles p; last]
  | None => [last]
  end.

(** The callers [cs] all answered with the promise [p]. *)
Definition answer_all (p : nat) (cs : list nat) (s : State) : State :=
  {| browser := browser s; browserLock := browserLock s; connected := connected s;
     tasks := tasks s; settled := settled s; promises := promises s;
     launched := launched s; handles := handles s;
     returned := returned s ++ map (fun c => (c, Later p)) cs |}.

End BrowserLock.

(* ===================================================================== *)
(** * Sample data                                                         *)
(* ===================================================================== *)

Module Samples.
Import Validators Hash Config Cache RateLimiter ErrorHandler Browser Route.

(** A parser for the examples: it knows three URLs. *)
Definition ad_parser (s : string) : option URL :=
  if String.eqb s "https://Stats.G.DoubleClick.net/collect" then
    Some {| protocol := "https:"; hostname := "stats.g.doubleclick.net" |}
  else if String.eqb s "https://example.com/static/Banner.png" then
    Some {| protocol := "https:"; hostname := "example.com" |}
  else if String.eqb s "https://example.com/index.html" then
    Some {| protocol := "https:"; hostname := "example.com" |}
  else None.

(** A request, as validation returns it. *)
Definition example_request : ScreenshotRequest :=
  {| url := "https://example.com"; width := Some 800; height := Some 600;
     fullPage := false; darkMode := false; blockAds := true;
     device := desktop; waitFor := networkidle; timeout := 30000 |}.

(** The metadata of a capture. *)
Definition sample : ScreenshotMetadata :=
  {| id := "m1abc-0a1b2c3d"; meta_url := "https://example.com";
     meta_width := 800; meta_height := 600; meta_fullPage := false;
     fileSize := 4096; capturedAt := 0; meta_expiresAt := 3600000 |}.

(** Answers of Playwright: a context that cannot be created because the
    browser is gone, and an attempt where everything succeeds. *)
Definition crashing : Script :=
  {| isConnected := true; launch := Return tt;
     newContext := Throw (JsError "browser.newContext: Target page, context or browser has been closed");
     newPage := Return tt; route := Return tt; goto := Return tt;
     waitForLoadState := Return tt; waitForTimeout := Return tt;
     screenshot := Return None; page_close := Return tt; context_close := Return tt |}.

Definition png : Buffer :=
  [ Byte.x89; Byte.x50; Byte.x4e; Byte.x47; Byte.x0d; Byte.x0a; Byte.x1a; Byte.x0a;
    Byte.x00; Byte.x00 ].

Definition healthy : Script :=
  {| isConnected := true; launch := Return tt; newContext := Return tt;
     newPage := Return tt; route := Return tt; goto := Return tt;
     waitForLoadState := Return tt; waitForTimeout := Return tt;
     screenshot := Return (Some png); page_close := Return tt; context_close := Return tt |}.

Definition started : World := {| browser := Some 0%nat; launches := 1; trace := [] |}.

(** A platform, a request and a server at rest. *)
Definition toy_parser (s : string) : option URL :=
  if String.eqb s "https://example.com" then
    Some {| protocol := "https:"; hostname := "example.com" |}
  else if String.eqb s "http://localhost/admin" then
    Some {| protocol := "http:"; hostname := "localhost" |}
  else if String.eqb s "http://192.168.1.1/" then
    Some {| protocol := "http:"; hostname := "192.168.1.1" |}
  else if String.eqb s "file:///etc/passwd" then
    Some {| protocol := "file:"; hostname := "" |}
  else if String.eqb s "http://[::1]/" then
    Some {| protocol := "http:"; hostname := "[::1]" |}
  else if String.eqb s "https://example.com/closed-beta" then
    Some {| protocol := "https:"; hostname := "example.com" |}
  else None.

(** A sample of zod's check: the text is trimmed, must parse, and is
    handed on trimmed. *)
Definition toy_zod (s : string) : option string :=
  match toy_parser (trim s) with
  | Some _ => Some (trim s)
  | None => None
  end.

Definition body_of (u : string) : Body :=
  {| body_url := JString u; body_width := JUndefined; body_height := JUndefined;
     body_fullPage := JUndefined; body_darkMode := JUndefined;
     body_blockAds := JUndefined; body_device := JUndefined;
     body_waitFor := JUndefined; body_timeout := JUndefined |}.

Definition request_of (u : string) (sc : Script) : Request :=
  {| headers := {| x_forwarded_for := None; x_real_ip := None |};
     body := Some (body_of u); returnImage := false;
     now_check := 1000; now_record := 1000; now_lookup := 1001;
     now_captured := 2500; now_stored := 2501;
     scripts := fun _ => sc; screenshotId := "m1abc-0a1b2c3d";
     saveScreenshot := Return tt; getScreenshot := Return None |}.

Definition idle : Server :=
  {| cache := ∅; rateLimitStore := ∅;
     world := {| browser := None; launches := 0; trace := [] |}; calls := [] |}.

Definition serve_toy : Request -> Server -> RateHeaders * Response * Server :=
  app_post_screenshot toy_parser toy_zod
    (fun _ => "url: Internal/private URLs are not allowed") toy_digest defaults.

(** A navigation that runs out of time, whatever the attempt. *)
Definition timing_out : Script :=
  {| isConnected := true; launch := Return tt; newContext := Return tt;
     newPage := Return tt; route := Return tt;
     goto := Throw (JsError "page.goto: Timeout 30000ms exceeded.");
     waitForLoadState := Return tt; waitForTimeout := Return tt;
     screenshot := Return (Some png); page_close := Return tt;
     context_close := Return tt |}.

Definition empty_payload : Script :=
  {| isConnected := true; launch := Return tt; newContext := Return tt;
     newPage := Return tt; route := Return tt; goto := Return tt;
     waitForLoadState := Return tt; waitForTimeout := Return tt;
     screenshot := Return (Some []); page_close := Return tt;
     context_close := Return tt |}.

End Samples.

(* ===================================================================== *)
(** * [middleware/rateLimiter.ts]: the monitoring and reset functions     *)
(* ===================================================================== *)

Module RateLimiterAdmin.
Import Config RateLimiter.

Record RateStatus := { status_count : Z; status_remaining : Z; status_resetIn : Z }.

(** [getRateLimitStatus] reads the clock twice: once inside
    [checkRateLimit], once for its own window start. *)
Definition getRateLimitStatus (cfg : Config) (store : Store) (now_check now_count : Z)
    (ip : string) : RateStatus :=
  let r := checkRateLimit cfg store now_check ip in
  let timestamps := default [] (store !! ip) in
  let windowStart := now_count - windowMs cfg in
  let validTimestamps := cleanupTimestamps timestamps windowStart in
  {| status_count := Z.of_nat (length validTimestamps);
     status_remaining := remaining r;
     status_resetIn := resetIn r |}.

Definition clearRateLimit (store : Store) (ip : string) : Store := delete ip store.

Definition clearAllRateLimits (store : Store) : Store := ∅.

(** The characters of a client key. *)
Definition chars (s : string) : list ascii := list_ascii_of_string s.

End RateLimiterAdmin.

(* ===================================================================== *)
(** * The request schema, field by field                                  *)
(* ===================================================================== *)

Module Schema.
Import Validators.

(** [urlSchema]: the field is a string, the url check of zod accepts it
    and hands on [u], and [u] passes the two refinements. *)
Definition url_handed_on (parseURL : string -> option URL)
    (zod_url : string -> option string) (v : Json) (u : string) : Prop :=
  exists s, v = JString s /\ zod_url s = Some u /\
            refine_protocol parseURL u = true /\ refine_host parseURL u = true.

(** [z.number().int().min(lo).max(hi).optional()]: the field is left out,
    or it is an integer within the bounds, returned as it is. *)
Definition optional_within (lo hi : Z) (v : Json) (o : option Z) : Prop :=
  (v = JUndefined /\ o = None) \/ (exists n, v = JInt n /\ lo <= n <= hi /\ o = Some n).

(** [....optional().default(d)] on a boolean. *)
Definition boolean_or (d : bool) (v : Json) (b : bool) : Prop :=
  (v = JUndefined /\ b = d) \/ v = JBool b.

(** [z.enum([...]).optional().default(d)], [text] giving the member's
    spelling. *)
Definition member_or {A} (text : A -> string) (d : A) (v : Json) (x : A) : Prop :=
  (v = JUndefined /\ x = d) \/ v = JString (text x).

(** [z.number().int().min(lo).max(hi).optional().default(d)] *)
Definition within_or (lo hi d : Z) (v : Json) (n : Z) : Prop :=
  (v = JUndefined /\ n = d) \/ (v = JInt n /\ lo <= n <= hi).

End Schema.

(* ===================================================================== *)
(** * [services/browser.ts]: the shape of an attempt, the browser handles *)
(* ===================================================================== *)

Module BrowserShape.
Import Validators Config Browser.

(** The same answers, with other outcomes for the two waits of
    [waitForPage]. *)
Definition with_wait_outcomes (sc : Script) (wl wt : completion unit) : Script :=
  {| isConnected := isConnected sc; launch := launch sc; newContext := newContext sc;
     newPage := newPage sc; route := route sc; goto := goto sc;
     waitForLoadState := wl; waitForTimeout := wt;
     screenshot := screenshot sc; page_close := page_close sc;
     context_close := context_close sc |}.

Definition returned {A} (c : completion A) : bool :=
  match c with Return _ => true | Throw _ => false end.

(** The calls of an attempt that gets to the end, once it holds the
    browser [h]: in the order of [captureScreenshotOnce]. The 500 ms wait
    is made only if the wait for the load state succeeded. *)
Definition session (options : ScreenshotRequest) (sc : Script) (h : nat) : list Event :=
  [ EvNewContext h (context_options options) true; EvNewPage true ] ++
  (if blockAds options then [ EvRoute ] else []) ++
  [ EvGoto (url options) (timeout options); EvWaitForLoadState (waitFor options) ] ++
  (if returned (waitForLoadState sc) then [ EvWaitForTimeout 500 ] else []) ++
  [ EvScreenshot (fullPage options); EvPageClose; EvContextClose ].

(** Calls that start or stop a browser process. *)
Definition is_engine (e : Event) : bool :=
  match e with EvLaunch _ | EvBrowserClose _ => true | _ => false end.

Definition is_route (e : Event) : bool :=
  match e with EvRoute => true | _ => false end.

(** The handles are accounted for: the handle in [browser] and the
    handles closed so far were launched, and every browser launched so far
    is the current one or was closed. *)
Definition handles_ok (w : World) : Prop :=
  (forall h, browser w = Some h -> (h < launches w)%nat) /\
  (forall h, EvBrowserClose h ∈ trace w -> (h < launches w)%nat) /\
  (forall h, (h < launches w)%nat -> browser w = Some h \/ EvBrowserClose h ∈ trace w).

End BrowserShape.

(* ===================================================================== *)
(** * Searching a text that starts with a known prefix                    *)
(* ===================================================================== *)

Module Prefixed.

(** [p] cannot start at the head of [s] followed by anything: a
    character of [s] differs before [s] or [p] ends. *)
Fixpoint clash (s p : string) {struct p} : bool :=
  match p, s with
  | EmptyString, _ => false
  | String _ _, EmptyString => false
  | String a p', String b s' => if Ascii.eqb a b then clash s' p' else true
  end.

(** [p] starts nowhere inside [s], not even with its end beyond [s]. *)
Fixpoint all_clash (s p : string) : bool :=
  match s with
  | EmptyString => true
  | String _ s' => clash s p && all_clash s' p
  end.

(** No pattern of the table can start inside the prefix, letters
    compared without case. *)
Definition table_clear (prefix : string) (table : list ErrorHandler.PatternEntry) : bool :=
  forallb (fun e =>
             match ErrorHandler.pattern e with
             | ErrorHandler.PRegExp (LiteralI lit) =>
                 all_clash (toLowerCase prefix) (toLowerCase lit)
             | ErrorHandler.PString s => all_clash prefix s
             end) table.

End Prefixed.

(* ===================================================================== *)
(** * [utils/hash.ts]: [generateScreenshotId]                             *)
(* ===================================================================== *)

Module Ids.
Import Hash.

(** A digit of [toString(36)]: [0-9], then [a-z]. *)
Definition radix36_digit (d : Z) : ascii :=
  if d <? 10 then ascii_of_N (Z.to_N (48 + d)) else ascii_of_N (Z.to_N (87 + d)).

(** The digits of [n >= 0] in base 36, most significant first, put in
    front of [acc]; [fuel] bounds the number of digits. *)
Fixpoint digits36 (fuel : nat) (n : Z) (acc : string) : string :=
  match fuel with
  | O => acc
  | S fuel' =>
      let acc := String (radix36_digit (n mod 36)) acc in
      if n / 36 =? 0 then acc else digits36 fuel' (n / 36) acc
  end.

(** [n.toString(36)] for an integer [n]; an integer below 2^k has at
    most [k] digits. *)
Definition Number_toString36 (n : Z) : string :=
  if n <? 0 then String "-" (digits36 (S (Z.to_nat (Z.log2 (- n)))) (- n) "")
  else digits36 (S (Z.to_nat (Z.log2 n))) n "".

(** [buffer.toString('hex')] *)
Fixpoint Buffer_toString_hex (bytes : list Byte.byte) : string :=
  match bytes with
  | [] => ""
  | b :: rest =>
      let n := Byte.to_N b in
      String (hex_digit (n / 16)) (String (hex_digit (n mod 16)) (Buffer_toString_hex rest))
  end.

(** [generateScreenshotId], with the reading [now] of the clock and the
    bytes [crypto.randomBytes(4)] returns. *)
Definition generateScreenshotId (now : Z) (randomBytes : list Byte.byte) : string :=
  let timestamp := Number_toString36 now in
  let random := Buffer_toString_hex randomBytes in
  timestamp +:+ "-" +:+ random.

(** Reading the digits back. *)
Definition digit36_value (c : ascii) : Z :=
  let n := Z.of_N (N_of_ascii c) in
  if n <? 58 then n - 48 else n - 87.

Definition value36 (s : string) : Z :=
  fold_left (fun v c => 36 * v + digit36_value c) (list_ascii_of_string s) 0.

Fixpoint bytes_of_hex (s : string) : list Byte.byte :=
  match s with
  | String h (String l rest) =>
      match Byte.of_N (16 * unhex h + unhex l) with
      | Some b => b :: bytes_of_hex rest
      | None => []
      end
  | _ => []
  end.

(** Lower-case letters and digits: the characters of both parts. *)
Definition is_lower_alnum (c : ascii) : bool :=
  let n := N_of_ascii c in
  (((48 <=? n) && (n <=? 57)) || ((97 <=? n) && (n <=? 122)))%N.

End Ids.

(* ===================================================================== *)
(** * [routes/serve.ts]: [GET /screenshots/:filename]                     *)
(* ===================================================================== *)

Module Serve.
Import Config ErrorHandler Browser Hash.

(** A character of the class [[a-z0-9-]] under the flag [i]. *)
Definition is_name_char (c : ascii) : bool :=
  let n := N_of_ascii c in
  (((97 <=? n) && (n <=? 122)) || ((65 <=? n) && (n <=? 90))
   || ((48 <=? n) && (n <=? 57)) || (n =? 45))%N.

(** The longest run of such characters at the head of [s], and what
    follows it. *)
Fixpoint span_name (s : string) : string * string :=
  match s with
  | EmptyString => (EmptyString, EmptyString)
  | String c s' =>
      if is_name_char c
      then let '(stem, rest) := span_name s' in (String c stem, rest)
      else (EmptyString, s)
  end.

(** [filename.match(/^[a-z0-9-]+\.png$/i)]: the class does not hold the
    dot, so the run is the whole of what the group can match. *)
Definition filename_match (filename : string) : bool :=
  let '(stem, rest) := span_name filename in
  negb (String.eqb stem "") && String.eqb (toLowerCase rest) ".png".

Fixpoint drop_chars (n : nat) (s : string) : string :=
  match n, s with
  | O, _ => s
  | S _, EmptyString => EmptyString
  | S n', String _ s' => drop_chars n' s'
  end.

(** [s.replace(pat, '')] for a string [pat]: the first occurrence is
    removed. *)
Fixpoint replace_first (s pat : string) : string :=
  if startsWith s pat then drop_chars (String.length pat) s
  else
    match s with
    | EmptyString => EmptyString
    | String c s' => String c (replace_first s' pat)
    end.

(** The [Response] of the route. *)
Record ServeResponse := {
  serve_status : Z;
  content_type : string;
  content_length : string;
  cache_control : string;
  etag : string;
  serve_body : Buffer
}.

(** The handler; [getScreenshot] is the function of the storage
    service. *)
Definition serve_get (cfg : Config) (getScreenshot : string -> completion (option Buffer))
    (filename : string) : completion ServeResponse :=
  if String.eqb filename "" || negb (filename_match filename)
  then throwNotFoundError "Invalid filename"
  else
    let id := replace_first filename ".png" in
    buffer ← getScreenshot id;
    match buffer with
    | None => throwNotFoundError "Screenshot not found"
    | Some buffer =>
        let cacheSeconds := cacheTtl cfg / 1000 in
        Return {| serve_status := 200;
                  content_type := "image/png";
                  content_length := Number_toString (Z.of_nat (length buffer));
                  cache_control :=
                    "public, max-age=" +:+ Number_toString cacheSeconds +:+ ", immutable";
                  etag := String dquote (id +:+ String dquote "");
                  serve_body := buffer |}
    end.

(** The route as the application serves it, [app.onError] answering
    for what the handler throws. *)
Definition app_serve_get (cfg : Config) (getScreenshot : string -> completion (option Buffer))
    (filename : string) : ServeResponse + ErrorReply :=
  match serve_get cfg getScreenshot filename with
  | Return r => inl r
  | Throw e => inr (onError e)
  end.

End Serve.

(* ===================================================================== *)
(** * [routes/screenshot.ts]: the kinds of outcome of the handler         *)
(* ===================================================================== *)

Module RouteShape.
Import Route.

(** The handler answered with this status and this [X-Cache] header. *)
Definition answered (st : Z) (xcache : string) (r : completion Response) : bool :=
  match r with
  | Return (Json st' xc _) | Return (Image st' xc _) => (st' =? st) && String.eqb xc xcache
  | _ => false
  end.

Definition threw {A} (r : completion A) : bool :=
  match r with Throw _ => true | Return _ => false end.

(** The calls the handler has made when it returns. *)
Definition new_calls_of (s s' : Server) : list Call := drop (length (calls s)) (calls s').

Definition is_recordRequest (c : Call) : bool :=
  match c with CallRecordRequest _ => true | _ => false end.

(** The number of times the request was recorded by the rate limiter. *)
Definition charges (l : list Call) : nat := length (List.filter is_recordRequest l).

End RouteShape.


(* ===================================================================== *)
(** * Properties                                                           *)
(* ===================================================================== *)

(** ** Facts about the string operations *)

Section StringFacts.

Lemma startsWith_app (s p : string) :
  startsWith s p = true <-> exists r, s = p +:+ r.
Proof.
  revert s; induction p as [|a p IH]; intros s; simpl.
  - split; [intros _; by exists s | done].
  - destruct s as [|b s].
    + split; [done | intros [r Hr]; discriminate].
    + rewrite andb_true_iff, IH. split.
      * intros [Hab [r ->]]. apply Ascii.eqb_eq in Hab as ->. by exists r.
      * intros [r Hr]. injection Hr as -> ->. split; [apply Ascii.eqb_refl | by exists r].
Qed.

Lemma includes_app (s p : string) :
  includes s p = true <-> exists l r, s = l +:+ p +:+ r.
Proof.
  induction s as [|c s IH]; simpl.
  - rewrite orb_false_r, startsWith_app. split.
    + intros [r Hr]. by exists "", r.
    + intros [l [r Hr]]. destruct l; [by exists r | discriminate].
  - rewrite orb_true_iff, startsWith_app, IH. split.
    + intros [[r Hr] | [l [r ->]]]; [by exists "", r | by exists (String c l), r].
    + intros [l [r Hr]]. destruct l as [|c' l].
      * left. by exists r.
      * right. injection Hr as -> ->. by exists l, r.
Qed.

Lemma endsWith_app (s p : string) :
  endsWith s p = true <-> exists l, s = l +:+ p.
Proof.
  induction s as [|c s IH]; cbn [endsWith].
  - rewrite orb_false_r, String.eqb_eq. split.
    + intros <-. by exists "".
    + intros [l Hl]. destruct l; [done | discriminate].
  - rewrite orb_true_iff, String.eqb_eq, IH. split.
    + intros [<- | [l ->]]; [by exists "" | by exists (String c l)].
    + intros [l Hl]. destruct l as [|c' l].
      * by left.
      * right. injection Hl as -> ->. by exists l.
Qed.

Lemma test_literal (lit s : string) :
  test (LiteralI lit) s = true <->
  exists l r, toLowerCase s = l +:+ toLowerCase lit +:+ r.
Proof. apply includes_app. Qed.

End StringFacts.

Module AdblockFacts.
Import Adblock.

Lemma exact_domain_iff (host : string) :
  existsb (String.eqb host) AD_DOMAINS = true <-> In host AD_DOMAINS.
Proof.
  rewrite existsb_exists. split.
  - intros [d [Hd He]]. apply String.eqb_eq in He. by subst.
  - intros H. exists host. split; [done | apply String.eqb_refl].
Qed.

Lemma subdomain_iff (host : string) :
  existsb (fun d => endsWith host ("." +:+ d)) AD_DOMAINS = true <->
  exists d, In d AD_DOMAINS /\ exists sub, host = sub +:+ "." +:+ d.
Proof.
  rewrite existsb_exists. split.
  - intros [d [Hd He]]. exists d. split; [done | by apply endsWith_app].
  - intros [d [Hd He]]. exists d. split; [done | by apply endsWith_app].
Qed.

Lemma pattern_iff (url : string) :
  existsb (fun p => test p url) AD_URL_PATTERNS = true <-> path_listed url.
Proof.
  rewrite existsb_exists. split.
  - intros [[lit] [Hp Ht]]. exists lit. split; [done | by apply test_literal].
  - intros [lit [Hp Ht]]. exists (LiteralI lit). split; [done | by apply test_literal].
Qed.

Lemma host_listed_iff (host : string) :
  host_listed host <->
  existsb (String.eqb host) AD_DOMAINS = true \/
  existsb (fun d => endsWith host ("." +:+ d)) AD_DOMAINS = true.
Proof.
  rewrite exact_domain_iff, subdomain_iff. unfold host_listed. split.
  - intros [d [Hd [-> | Hs]]]; [by left | right; by exists d].
  - intros [H | [d [Hd Hs]]]; [exists host; auto | exists d; auto].
Qed.

End AdblockFacts.

(** ** The ad-block predicate *)

Module AdblockSpec.
Import Adblock AdblockFacts Samples.

Example shouldBlockUrl_subdomain :
  shouldBlockUrl ad_parser "https://Stats.G.DoubleClick.net/collect" = Return true.
Proof. reflexivity. Qed.

Example shouldBlockUrl_path :
  shouldBlockUrl ad_parser "https://example.com/static/Banner.png" = Return true.
Proof. reflexivity. Qed.

Example shouldBlockUrl_clean :
  shouldBlockUrl ad_parser "https://example.com/index.html" = Return false.
Proof. reflexivity. Qed.

Example shouldBlockUrl_relative :
  shouldBlockUrl ad_parser "/ads/banner.js" = Return false.
Proof. reflexivity. Qed.

(** C10. [shouldBlockUrl] is total: whatever the URL parser does on the
    input, the call returns a boolean and does not throw. On an input the
    parser rejects it returns [false]. On an input the parser accepts it
    returns [true] exactly when the lower-cased hostname is a listed
    domain or a subdomain of one, or the URL contains one of the listed
    path patterns (letters compared without case). *)
Theorem shouldBlockUrl_total_exact (parseURL : string -> option URL) (url : string) :
  (exists b, shouldBlockUrl parseURL url = Return b) /\
  (parseURL url = None -> shouldBlockUrl parseURL url = Return false) /\
  (forall u, parseURL url = Some u ->
     (shouldBlockUrl parseURL url = Return true <->
      host_listed (toLowerCase (hostname u)) \/ path_listed url)).
Proof.
  unfold shouldBlockUrl, shouldBlockUrl_try, new_URL.
  destruct (parseURL url) as [u|] eqn:Hu; cbn [mbind completion_bind try_catch].
  - set (h := toLowerCase (hostname u)).
    pose proof (host_listed_iff h) as Hh. pose proof (pattern_iff url) as Hp.
    assert (Hyes : forall c : completion bool, c = Return true ->
              host_listed h \/ path_listed url ->
              (exists b, c = Return b) /\ (Some u = None -> c = Return false) /\
              (forall u', Some u = Some u' ->
                 (c = Return true <->
                  host_listed (toLowerCase (hostname u')) \/ path_listed url))).
    { intros c -> Hl. split; [eauto | split; [done |]].
      intros u' [= <-]. by split. }
    destruct (existsb (String.eqb h) AD_DOMAINS); cbn [try_catch];
      [apply Hyes; [done | left; apply Hh; by left] |].
    destruct (existsb (fun d => endsWith h ("." +:+ d)) AD_DOMAINS); cbn [try_catch];
      [apply Hyes; [done | left; apply Hh; by right] |].
    destruct (existsb (fun p => test p url) AD_URL_PATTERNS); cbn [try_catch];
      [apply Hyes; [done | right; by apply Hp] |].
    split; [eauto | split; [done |]].
    intros u' [= <-]. split; [done |]. fold h.
    intros [H | H]; [apply Hh in H; destruct H; done | apply Hp in H; done].
  - split; [by exists false | split; [done | intros u' [=]]].
Qed.

Lemma shouldBlockUrl_total_exact_witness :
  shouldBlockUrl ad_parser "/ads/banner.js" = Return false /\
  (shouldBlockUrl ad_parser "https://example.com/static/Banner.png" = Return true <->
   host_listed (toLowerCase "example.com") \/
   path_listed "https://example.com/static/Banner.png").
Proof.
  destruct (shouldBlockUrl_total_exact ad_parser "/ads/banner.js") as [_ [H1 _]].
  destruct (shouldBlockUrl_total_exact ad_parser "https://example.com/static/Banner.png")
    as [_ [_ H2]].
  split; [apply H1; reflexivity |].
  apply (H2 {| protocol := "https:"; hostname := "example.com" |}). reflexivity.
Defined.

End AdblockSpec.

(** ** Error classification *)

Module ErrorHandlerSpec.
Import ErrorHandler.

Lemma first_match_or_none (table : list PatternEntry) (m : string) :
  (exists e, first_match table m e) \/ no_match table m.
Proof.
  induction table as [|e table IH].
  - right. constructor.
  - destruct (matches (pattern e) m) eqn:He.
    + left. exists e, [], table. by repeat split.
    + destruct IH as [[e' (before & after & -> & Hm & Hb)] | Hn].
      * left. exists e', (e :: before), after. repeat split; [done | by constructor].
      * right. by constructor.
Qed.

Lemma classify_from_first (table : list PatternEntry) (m : string) (e : PatternEntry) :
  first_match table m e ->
  classify_from table m =
    {| cl_code := code e; cl_status := status e; cl_message := message_or (message e) m |}.
Proof.
  intros (before & after & -> & Hm & Hb).
  induction Hb as [|e' before He' _ IH]; simpl.
  - by rewrite Hm.
  - by rewrite He'.
Qed.

Lemma classify_from_none (table : list PatternEntry) (m : string) :
  no_match table m ->
  classify_from table m =
    {| cl_code := INTERNAL_ERROR; cl_status := 500; cl_message := generic_message |}.
Proof.
  induction 1 as [|e table He _ IH]; simpl; [done | by rewrite He].
Qed.

Lemma onError_loop_first (table : list PatternEntry) (m : string) (e : PatternEntry) :
  first_match table m e ->
  onError_loop table m =
    Some {| reply_body := {| error_code := code e;
                             error_message := default "" (message e);
                             retryAfter := None |};
            reply_status := status e |}.
Proof.
  intros (before & after & -> & Hm & Hb).
  induction Hb as [|e' before He' _ IH]; simpl.
  - by rewrite Hm.
  - by rewrite He'.
Qed.

Lemma onError_loop_none (table : list PatternEntry) (m : string) :
  no_match table m -> onError_loop table m = None.
Proof.
  induction 1 as [|e table He _ IH]; simpl; [done | by rewrite He].
Qed.

Lemma first_match_In (table : list PatternEntry) (m : string) (e : PatternEntry) :
  first_match table m e -> In e table.
Proof. intros (before & after & -> & _). apply in_or_app. right. by left. Qed.

Lemma own_message_or (e : PatternEntry) (m : string) :
  own_message e = true -> message_or (message e) m = default "" (message e).
Proof.
  unfold own_message, message_or. destruct (message e) as [s|]; [|done].
  by destruct (String.eqb s "").
Qed.

Lemma tables_own_message (e : PatternEntry) :
  In e ERROR_PATTERNS \/ In e ERROR_PATTERNS_index -> own_message e = true.
Proof.
  assert (H : forallb own_message (ERROR_PATTERNS ++ ERROR_PATTERNS_index)%list = true)
    by reflexivity.
  rewrite forallb_forall in H. intros He. apply H, in_or_app, He.
Qed.

Lemma canned_of_table (e : PatternEntry) :
  In e ERROR_PATTERNS \/ In e ERROR_PATTERNS_index ->
  In (default "" (message e)) canned_messages.
Proof.
  intros He. pose proof (tables_own_message e He) as Ho.
  unfold own_message in Ho. destruct (message e) as [s|] eqn:Hs; [|done].
  right. apply in_or_app.
  destruct He as [He | He]; [left | right];
    apply list_elem_of_In, list_elem_of_omap; exists e;
    (split; [by apply list_elem_of_In | done]).
Qed.

Example timeout_first_wins :
  errorHandler_catch (JsError "page.goto: Timeout 30000ms exceeded; net::ERR_NAME_NOT_RESOLVED")
  = {| reply_body := {| error_code := TIMEOUT;
                        error_message := "The page took too long to load";
                        retryAfter := None |};
       reply_status := 504 |}.
Proof. reflexivity. Qed.

Example unmatched_is_internal :
  onError (JsError "Screenshot capture returned invalid PNG data") = default_reply.
Proof. reflexivity. Qed.

(** C7. A raw failure text [m] is classified by one ordered table per
    handler (the middleware [errorHandler] with [ERROR_PATTERNS], and
    [app.onError] with the table of [src/index.ts]), first match wins:
    the reply carries the code, the status and the fixed message of the
    first entry whose pattern matches [m]; a text containing "timeout" in
    any case gets [TIMEOUT] with status 504; a text that matches no entry
    gets [INTERNAL_ERROR], status 500 and the generic message. The message
    of the reply is always one of the fixed messages and the payload holds
    nothing besides code and message: the raw text is not copied into it. *)
Theorem classification_first_match_wins (m : string) :
  let reply (e : PatternEntry) :=
    {| reply_body := {| error_code := code e;
                        error_message := default "" (message e);
                        retryAfter := None |};
       reply_status := status e |} in
  ((exists e, first_match ERROR_PATTERNS m e) \/ no_match ERROR_PATTERNS m) /\
  ((exists e, first_match ERROR_PATTERNS_index m e) \/ no_match ERROR_PATTERNS_index m) /\
  (forall e, first_match ERROR_PATTERNS m e -> errorHandler_catch (JsError m) = reply e) /\
  (forall e, first_match ERROR_PATTERNS_index m e -> onError (JsError m) = reply e) /\
  (test (LiteralI "timeout") m = true ->
     errorHandler_catch (JsError m) =
       {| reply_body := {| error_code := TIMEOUT;
                           error_message := "The page took too long to load";
                           retryAfter := None |};
          reply_status := 504 |} /\
     onError (JsError m) = errorHandler_catch (JsError m)) /\
  (no_match ERROR_PATTERNS m -> errorHandler_catch (JsError m) = default_reply) /\
  (no_match ERROR_PATTERNS_index m -> onError (JsError m) = default_reply) /\
  In (error_message (reply_body (errorHandler_catch (JsError m)))) canned_messages /\
  In (error_message (reply_body (onError (JsError m)))) canned_messages.
Proof.
  intros reply.
  assert (Hmid : forall e, first_match ERROR_PATTERNS m e ->
                   errorHandler_catch (JsError m) = reply e).
  { intros e He. unfold errorHandler_catch, classifyError.
    rewrite (classify_from_first _ _ _ He). cbn [cl_code cl_message cl_status].
    rewrite own_message_or; [done |].
    apply tables_own_message. left. by eapply first_match_In. }
  assert (Hidx : forall e, first_match ERROR_PATTERNS_index m e ->
                   onError (JsError m) = reply e).
  { intros e He. unfold onError. by rewrite (onError_loop_first _ _ _ He). }
  assert (Hmid0 : no_match ERROR_PATTERNS m ->
                  errorHandler_catch (JsError m) = default_reply).
  { intros Hn. unfold errorHandler_catch, classifyError.
    by rewrite (classify_from_none _ _ Hn). }
  assert (Hidx0 : no_match ERROR_PATTERNS_index m -> onError (JsError m) = default_reply).
  { intros Hn. unfold onError. by rewrite (onError_loop_none _ _ Hn). }
  repeat split; try done; try apply first_match_or_none.
  - unfold errorHandler_catch, classifyError, ERROR_PATTERNS.
    cbn [classify_from pattern entry matches]. by rewrite H.
  - unfold errorHandler_catch, onError, classifyError, ERROR_PATTERNS, ERROR_PATTERNS_index.
    cbn [classify_from onError_loop pattern entry matches]. by rewrite H.
  - destruct (first_match_or_none ERROR_PATTERNS m) as [[e He] | Hn].
    + rewrite (Hmid e He). apply canned_of_table. left. by eapply first_match_In.
    + rewrite (Hmid0 Hn). by left.
  - destruct (first_match_or_none ERROR_PATTERNS_index m) as [[e He] | Hn].
    + rewrite (Hidx e He). apply canned_of_table. right. by eapply first_match_In.
    + rewrite (Hidx0 Hn). by left.
Qed.

Lemma classification_first_match_wins_witness :
  errorHandler_catch (JsError "Navigation Timeout Exceeded: 30000ms exceeded") =
    {| reply_body := {| error_code := TIMEOUT;
                        error_message := "The page took too long to load";
                        retryAfter := None |};
       reply_status := 504 |} /\
  onError (JsError "browser has crashed") = default_reply.
Proof.
  split.
  - apply (classification_first_match_wins
             "Navigation Timeout Exceeded: 30000ms exceeded"). reflexivity.
  - apply (classification_first_match_wins "browser has crashed").
    unfold no_match. repeat constructor.
Defined.

End ErrorHandlerSpec.

(** ** The cache key *)

Module HashSpec.
Import Validators Hash Samples.

Example stringify_example :
  JSON_stringify (normalized example_request) =
  String "{" (key "url" +:+ quoteJSONString "https://example.com" +:+ ","
  +:+ key "width" +:+ "800," +:+ key "height" +:+ "600,"
  +:+ key "fullPage" +:+ "false," +:+ key "darkMode" +:+ "false,"
  +:+ key "blockAds" +:+ "true," +:+ key "device" +:+ quoteJSONString "desktop"
  +:+ "," +:+ key "waitFor" +:+ quoteJSONString "networkidle" +:+ "}").
Proof. reflexivity. Qed.


(** *** [JSON.stringify] can be read back *)

Lemma append_nil_l (s : string) : "" +:+ s = s.
Proof. reflexivity. Qed.

Lemma append_cons (c : ascii) (s t : string) : String c s +:+ t = String c (s +:+ t).
Proof. reflexivity. Qed.

Lemma append_assoc (a b c : string) : (a +:+ b) +:+ c = a +:+ (b +:+ c).
Proof.
  induction a as [|x a IH]; [done |].
  rewrite !append_cons. by f_equal.
Qed.

Lemma String_inj (a b : ascii) (s t : string) :
  String a s = String b t -> a = b /\ s = t.
Proof. by intros [= -> ->]. Qed.

Lemma unescape_escape_char (c : ascii) (r : string) :
  unescape_head (escape_char c +:+ r) = Some (c, r).
Proof. destruct c as [[] [] [] [] [] [] [] []]; reflexivity. Qed.

Lemma escape_cancel (s1 s2 r1 r2 : string) :
  escape s1 +:+ String dquote r1 = escape s2 +:+ String dquote r2 ->
  s1 = s2 /\ r1 = r2.
Proof.
  revert s2. induction s1 as [|c1 s1 IH]; intros [|c2 s2] H; cbn [escape] in H.
  - simpl in H. by injection H as ->.
  - rewrite append_assoc in H. apply (f_equal unescape_head) in H.
    rewrite unescape_escape_char in H. discriminate.
  - rewrite append_assoc in H. apply (f_equal unescape_head) in H.
    rewrite unescape_escape_char in H. discriminate.
  - rewrite !append_assoc in H. apply (f_equal unescape_head) in H.
    rewrite !unescape_escape_char in H. injection H as -> H.
    by destruct (IH _ H) as [-> ->].
Qed.

Lemma quote_cancel (s1 s2 r1 r2 : string) :
  quoteJSONString s1 +:+ r1 = quoteJSONString s2 +:+ r2 -> s1 = s2 /\ r1 = r2.
Proof.
  unfold quoteJSONString. cbn [String.append]. intros [= H].
  rewrite !append_assoc in H. by apply escape_cancel in H.
Qed.

(** A run of characters of one class, closed by a character outside it,
    is determined by the string it starts. *)
Lemma run_cancel (P : ascii -> bool) (a1 a2 : string) (c1 c2 : ascii) (r1 r2 : string) :
  forallb P (list_ascii_of_string a1) = true ->
  forallb P (list_ascii_of_string a2) = true ->
  P c1 = false -> P c2 = false ->
  a1 +:+ String c1 r1 = a2 +:+ String c2 r2 ->
  a1 = a2 /\ c1 = c2 /\ r1 = r2.
Proof.
  intros H1 H2 Hc1 Hc2. revert a2 H2.
  induction a1 as [|x a1 IH]; intros [|y a2] H2 H; simpl in *.
  - by injection H as -> ->.
  - injection H as -> _. apply andb_true_iff in H2 as [H2 _]. congruence.
  - injection H as -> _. apply andb_true_iff in H1 as [H1 _]. congruence.
  - injection H as -> H.
    apply andb_true_iff in H1 as [_ H1]. apply andb_true_iff in H2 as [_ H2].
    by destruct (IH H1 _ H2 H) as (-> & -> & ->).
Qed.

Lemma string_of_uint_chars (d : Decimal.uint) :
  forallb number_char (list_ascii_of_string (NilEmpty.string_of_uint d)) = true.
Proof. induction d; simpl; done. Qed.

Lemma Number_toString_chars (n : Z) :
  forallb number_char (list_ascii_of_string (Number_toString n)) = true.
Proof.
  unfold Number_toString. destruct (Z.to_int n) as [d|d]; simpl;
    apply string_of_uint_chars.
Qed.

Lemma Number_toString_inj (n1 n2 : Z) :
  Number_toString n1 = Number_toString n2 -> n1 = n2.
Proof.
  unfold Number_toString. intros H.
  apply (f_equal NilEmpty.int_of_string) in H. rewrite !NilEmpty.isi in H.
  injection H as H. apply (f_equal Z.of_int) in H. by rewrite !DecimalZ.of_to in H.
Qed.

Lemma number_cancel (n1 n2 : Z) (r1 r2 : string) :
  Number_toString n1 +:+ String "," r1 = Number_toString n2 +:+ String "," r2 ->
  n1 = n2 /\ r1 = r2.
Proof.
  intros H.
  apply (run_cancel number_char) in H as (H & _ & ->);
    [| apply Number_toString_chars | apply Number_toString_chars | done | done].
  split; [by apply Number_toString_inj | done].
Qed.


Lemma boolean_cancel (b1 b2 : bool) (r1 r2 : string) :
  boolean_text b1 +:+ String "," r1 = boolean_text b2 +:+ String "," r2 ->
  b1 = b2 /\ r1 = r2.
Proof. destruct b1, b2; intros [= ->]; done. Qed.

Lemma device_text_inj (d1 d2 : Device) : device_text d1 = device_text d2 -> d1 = d2.
Proof. by destruct d1, d2. Qed.

Lemma waitFor_text_inj (w1 w2 : WaitFor) : waitFor_text w1 = waitFor_text w2 -> w1 = w2.
Proof. by destruct w1, w2. Qed.

(** Strip the characters both sides of [H] start with; a mismatch closes
    the goal. *)
Lemma key_plain (name : string) :
  escape name = name -> key name = String dquote (name +:+ String dquote ":").
Proof.
  intros H. unfold key, quoteJSONString. rewrite H, append_cons, append_assoc.
  reflexivity.
Qed.

Ltac norm_goal :=
  unfold quoteJSONString; cbn [optional_member];
  rewrite ?(key_plain "url"), ?(key_plain "width"), ?(key_plain "height"),
    ?(key_plain "fullPage"), ?(key_plain "darkMode"), ?(key_plain "blockAds"),
    ?(key_plain "device"), ?(key_plain "waitFor") by reflexivity;
  repeat (progress (rewrite ?append_cons, ?append_nil_l, ?append_assoc)).

Ltac norm H := revert H; norm_goal; intros H.

(** Strip the characters both sides of [H] start with; a mismatch closes
    the goal. *)
Ltac peel H :=
  norm H;
  repeat match type of H with
         | String _ _ = String _ _ =>
             let Hc := fresh in
             apply String_inj in H as [Hc H]; first [discriminate Hc | clear Hc]
         end.

Lemma append_cancel_l (p a b : string) : p +:+ a = p +:+ b -> a = b.
Proof.
  induction p as [|c p IH]; [done |]. rewrite !append_cons. intros [= H]. auto.
Qed.

Lemma optional_members_cancel (w1 w2 h1 h2 : option Z) (x1 x2 : string) :
  optional_member "width" w1 +:+ optional_member "height" h1 +:+
    "," +:+ key "fullPage" +:+ x1 =
  optional_member "width" w2 +:+ optional_member "height" h2 +:+
    "," +:+ key "fullPage" +:+ x2 ->
  w1 = w2 /\ h1 = h2 /\ x1 = x2.
Proof.
  intros H.
  destruct w1 as [w1|], w2 as [w2|], h1 as [h1|], h2 as [h2|]; peel H;
    try (apply number_cancel in H as [-> H]; peel H);
    try (apply number_cancel in H as [-> H]; peel H);
    done.
Qed.

Lemma JSON_stringify_inj (n1 n2 : Normalized) :
  JSON_stringify n1 = JSON_stringify n2 -> n1 = n2.
Proof.
  destruct n1 as [u1 w1 h1 f1 d1 b1 dv1 wf1], n2 as [u2 w2 h2 f2 d2 b2 dv2 wf2].
  unfold JSON_stringify; cbn [n_url n_width n_height n_fullPage n_darkMode n_blockAds
                               n_device n_waitFor].
  intros H.
  do 2 apply append_cancel_l in H. apply quote_cancel in H as [-> H].
  apply optional_members_cancel in H as (-> & -> & H).
  apply boolean_cancel in H as [-> H]. apply append_cancel_l in H.
  apply boolean_cancel in H as [-> H]. apply append_cancel_l in H.
  apply boolean_cancel in H as [-> H]. apply append_cancel_l in H.
  apply quote_cancel in H as [Hd H]. apply device_text_inj in Hd as ->.
  do 2 apply append_cancel_l in H.
  apply quote_cancel in H as [Hw _]. apply waitFor_text_inj in Hw as ->.
  reflexivity.
Qed.

Lemma same_but_timeout_normalized (r1 r2 : ScreenshotRequest) :
  same_but_timeout r1 r2 <-> normalized r1 = normalized r2.
Proof.
  unfold same_but_timeout, normalized. split.
  - intros (-> & -> & -> & -> & -> & -> & -> & ->). reflexivity.
  - intros [= -> -> -> -> -> -> -> ->]. repeat split.
Qed.

Lemma substring0_length (n : nat) (s : string) :
  (n <= String.length s)%nat -> String.length (substring0 n s) = n.
Proof.
  revert s. induction n as [|n IH]; intros [|c s] Hn; simpl in *; try lia.
  rewrite IH; lia.
Qed.

Lemma substring0_hex (n : nat) (s : string) :
  hex_text s = true -> hex_text (substring0 n s) = true.
Proof.
  unfold hex_text. revert s. induction n as [|n IH]; intros [|c s]; simpl; try done.
  rewrite !andb_true_iff. intros [Hc Hs]. auto.
Qed.

Example key_ignores_timeout :
  generateCacheKey toy_digest example_request =
  generateCacheKey toy_digest
    {| url := "https://example.com"; width := Some 800; height := Some 600;
       fullPage := false; darkMode := false; blockAds := true;
       device := desktop; waitFor := networkidle; timeout := 5000 |}.
Proof. reflexivity. Qed.

(** C1. The cache key is the first 16 characters of the hexadecimal
    digest of [JSON.stringify] of the eight fields url, width, height,
    fullPage, darkMode, blockAds, device and waitFor (16 hexadecimal
    characters when the digest has the format of SHA-256). Two requests that
    differ at most in [timeout] get the same key. The encoding that is
    hashed can be read back: two requests that differ in one of the eight
    fields give different texts to the digest, so their keys are equal
    only if the digest, cut to 16 characters, collides on them. The digest
    itself is the platform's and is a parameter here. *)
Theorem generateCacheKey_fingerprint (sha256_hex : string -> string)
    (r1 r2 : ScreenshotRequest) :
  generateCacheKey sha256_hex r1 =
    substring0 16 (sha256_hex (JSON_stringify (normalized r1))) /\
  (hex_text (sha256_hex (JSON_stringify (normalized r1))) = true ->
   String.length (sha256_hex (JSON_stringify (normalized r1))) = 64%nat ->
   hex_text (generateCacheKey sha256_hex r1) = true /\
   String.length (generateCacheKey sha256_hex r1) = 16%nat) /\
  (same_but_timeout r1 r2 ->
   generateCacheKey sha256_hex r1 = generateCacheKey sha256_hex r2) /\
  (~ same_but_timeout r1 r2 ->
   JSON_stringify (normalized r1) <> JSON_stringify (normalized r2)) /\
  (generateCacheKey sha256_hex r1 = generateCacheKey sha256_hex r2 ->
   same_but_timeout r1 r2 \/
   (JSON_stringify (normalized r1) <> JSON_stringify (normalized r2) /\
    substring0 16 (sha256_hex (JSON_stringify (normalized r1))) =
    substring0 16 (sha256_hex (JSON_stringify (normalized r2))))).
Proof.
  assert (Hinj : ~ same_but_timeout r1 r2 ->
                 JSON_stringify (normalized r1) <> JSON_stringify (normalized r2)).
  { intros Hd He. apply Hd, same_but_timeout_normalized, JSON_stringify_inj, He. }
  split; [done |]. split; [| split; [| split; [done |]]].
  - intros Hhex Hlen. unfold generateCacheKey. split.
    + by apply substring0_hex.
    + apply substring0_length. lia.
  - intros Hs. unfold generateCacheKey.
    by rewrite (proj1 (same_but_timeout_normalized r1 r2) Hs).
  - intros Hk.
    destruct (decide (JSON_stringify (normalized r1) = JSON_stringify (normalized r2)))
      as [He | Hne].
    + left. by apply same_but_timeout_normalized, JSON_stringify_inj.
    + right. by split.
Qed.

Lemma generateCacheKey_fingerprint_witness :
  generateCacheKey toy_digest example_request =
  generateCacheKey toy_digest
    {| url := "https://example.com"; width := Some 800; height := Some 600;
       fullPage := false; darkMode := false; blockAds := true;
       device := desktop; waitFor := networkidle; timeout := 60000 |} /\
  String.length (generateCacheKey toy_digest example_request) = 16%nat /\
  JSON_stringify (normalized example_request) <>
  JSON_stringify (normalized
    {| url := "https://example.com"; width := Some 800; height := Some 600;
       fullPage := true; darkMode := false; blockAds := true;
       device := desktop; waitFor := networkidle; timeout := 30000 |}).
Proof.
  split; [| split].
  - apply (generateCacheKey_fingerprint toy_digest). repeat split.
  - apply (generateCacheKey_fingerprint toy_digest example_request example_request);
      reflexivity.
  - apply (generateCacheKey_fingerprint toy_digest).
    unfold same_but_timeout. simpl. intros (_ & _ & _ & H & _). discriminate H.
Defined.

End HashSpec.

(** ** The cache *)

Module CacheSpec.
Import Config Cache Samples.

Lemma getCache_served (cache : Store) (now : Z) (k : string) (a : ScreenshotMetadata) :
  (getCache cache now k).1 = Some a <->
  exists e, cache !! k = Some e /\ data e = a /\ live e now.
Proof.
  unfold getCache, live. destruct (cache !! k) as [e|]; simpl.
  - destruct (Z.gtb_spec now (expiresAt e)); simpl.
    + split; [done | intros (e' & [= <-] & _ & ?); lia].
    + split.
      * intros [= <-]. exists e. split; [done | split; [done | lia]].
      * by intros (e' & [= <-] & -> & _).
  - split; [done | by intros (e & ? & _)].
Qed.

Lemma getCache_expired (cache : Store) (now : Z) (k : string) (e : CacheEntry) :
  cache !! k = Some e -> now > expiresAt e ->
  getCache cache now k = (None, delete k cache).
Proof.
  intros He Hx. unfold getCache. rewrite He.
  destruct (Z.gtb_spec now (expiresAt e)); [done | lia].
Qed.

Lemma getCache_fresh (cache : Store) (now : Z) (k : string) (e : CacheEntry) :
  cache !! k = Some e -> now <= expiresAt e ->
  getCache cache now k = (Some (data e), cache).
Proof.
  intros He Hx. unfold getCache. rewrite He.
  destruct (Z.gtb_spec now (expiresAt e)); [lia | done].
Qed.

Lemma sweep_lookup (cache : Store) (now : Z) (k : string) (e : CacheEntry) :
  sweep cache now !! k = Some e <-> cache !! k = Some e /\ live e now.
Proof.
  unfold sweep, live. rewrite map_lookup_filter_Some. simpl.
  split; intros [? ?]; (split; [done | lia]).
Qed.

Lemma stats_keys_live (cache : Store) (now : Z) (k : string) :
  k ∈ stats_keys (getCacheStats cache now).1 <->
  exists e, cache !! k = Some e /\ live e now.
Proof.
  unfold getCacheStats. cbn [fst stats_keys].
  rewrite list_elem_of_fmap. split.
  - intros ([k' e] & -> & Hin). apply elem_of_map_to_list in Hin.
    exists e. by apply sweep_lookup.
  - intros (e & He). exists (k, e). split; [done |].
    by apply elem_of_map_to_list, sweep_lookup.
Qed.

Example served_one_ms_before_expiry :
  (getCache (setCache defaults ∅ 0 "k" sample) 3599999 "k").1 = Some sample.
Proof. reflexivity. Qed.

Example absent_one_ms_after_expiry :
  (getCache (setCache defaults ∅ 0 "k" sample) 3600001 "k").1 = None.
Proof. reflexivity. Qed.

(** C2, as stated, fails at the expiry instant: with the default TTL, an
    entry written at 0 expires at 3600000; a read at exactly 3600000 is not
    strictly before the expiry, yet [getCache] returns the data and
    [getCacheStats] still lists the key. *)
Lemma served_at_expiry_instant :
  let cache := setCache defaults ∅ 0 "k" sample in
  (forall e, cache !! "k" = Some e -> ~ live_strict e 3600000) /\
  (getCache cache 3600000 "k").1 = Some sample /\
  "k" ∈ stats_keys (getCacheStats cache 3600000).1.
Proof.
  split; [| split].
  - intros e. unfold setCache. rewrite lookup_insert_eq. intros [= <-].
    unfold live_strict. simpl. lia.
  - reflexivity.
  - apply stats_keys_live. eexists. split; [apply lookup_insert_eq |].
    unfold live. simpl. lia.
Qed.

(** C2, amended. After [setCache(k, a)] at [t] the entry expires at
    [t + cacheTtl]. A [getCache(k)] at an instant not after the expiry
    ([now <= expiresAt], which covers every instant strictly before it)
    returns [a] and leaves the store as it is; at an instant past the
    expiry it returns absent and deletes the entry, and [getCacheStats] run
    at such an instant neither lists the key nor keeps the entry. In
    general [getCache] serves an entry exactly when [now <= expiresAt], and
    [getCacheStats] lists exactly the keys of such entries: an entry with
    [now > expiresAt] is never served. *)
Theorem cache_round_trip_and_expiry (cfg : Config) (cache : Store) (k : string)
    (a : ScreenshotMetadata) (t now : Z) :
  let cache1 := setCache cfg cache t k a in
  cache1 !! k = Some {| data := a; createdAt := t; expiresAt := t + cacheTtl cfg |} /\
  (now <= t + cacheTtl cfg -> getCache cache1 now k = (Some a, cache1)) /\
  (now > t + cacheTtl cfg ->
     getCache cache1 now k = (None, delete k cache1) /\
     snd (getCache cache1 now k) !! k = None /\
     (k ∉ stats_keys (getCacheStats cache1 now).1) /\
     snd (getCacheStats cache1 now) !! k = None) /\
  (forall (c : Store) k' a',
     (getCache c now k').1 = Some a' <->
     exists e, c !! k' = Some e /\ data e = a' /\ now <= expiresAt e) /\
  (forall (c : Store) k',
     k' ∈ stats_keys (getCacheStats c now).1 <->
     exists e, c !! k' = Some e /\ now <= expiresAt e).
Proof.
  intros cache1.
  assert (Hk : cache1 !! k =
               Some {| data := a; createdAt := t; expiresAt := t + cacheTtl cfg |})
    by apply lookup_insert_eq.
  split; [done |]. split; [| split; [| split]].
  - intros Hn. by rewrite (getCache_fresh _ _ _ _ Hk).
  - intros Hn. rewrite (getCache_expired _ _ _ _ Hk) by done.
    split; [done |]. split; [apply lookup_delete_eq |]. split.
    + rewrite stats_keys_live. intros (e & He & Hl).
      rewrite Hk in He. injection He as <-. unfold live in Hl. simpl in Hl. lia.
    + unfold getCacheStats. cbn [snd].
      destruct (sweep cache1 now !! k) as [e|] eqn:He; [| done].
      apply sweep_lookup in He as [He Hl].
      rewrite Hk in He. injection He as <-. unfold live in Hl. simpl in Hl. lia.
  - intros c k' a'. apply getCache_served.
  - intros c k'. apply stats_keys_live.
Qed.

Lemma cache_round_trip_and_expiry_witness :
  getCache (setCache defaults ∅ 0 "k" sample) 1000 "k" =
    (Some sample, setCache defaults ∅ 0 "k" sample) /\
  "k" ∉ stats_keys (getCacheStats (setCache defaults ∅ 0 "k" sample) 3600001).1.
Proof.
  split.
  - apply (cache_round_trip_and_expiry defaults ∅ "k" sample 0 1000). simpl. lia.
  - apply (cache_round_trip_and_expiry defaults ∅ "k" sample 0 3600001). simpl. lia.
Defined.

End CacheSpec.

(** ** The rate limiter *)

Module RateLimiterSpec.
Import Config ErrorHandler RateLimiter.

Lemma cleanup_elem (l : list Z) (ws ts : Z) :
  ts ∈ cleanupTimestamps l ws <-> ts ∈ l /\ ws < ts.
Proof.
  unfold cleanupTimestamps. rewrite list_elem_of_filter.
  split; intros [? ?]; (split; [done || lia | done || lia]).
Qed.

Lemma cleanup_keeps_all (l : list Z) (ws : Z) :
  Forall (fun ts => ws < ts) l -> cleanupTimestamps l ws = l.
Proof.
  unfold cleanupTimestamps. induction 1 as [|ts l Hts _ IH]; [done |].
  rewrite filter_cons_True by lia. by rewrite IH.
Qed.

Lemma cleanup_drops_all (l : list Z) (ws : Z) :
  Forall (fun ts => ts <= ws) l -> cleanupTimestamps l ws = [].
Proof.
  unfold cleanupTimestamps. induction 1 as [|ts l Hts _ IH]; [done |].
  rewrite filter_cons_False by lia. done.
Qed.

Lemma Math_min_least (t : Z) (rest : list Z) :
  Math_min t rest ∈ t :: rest /\ forall x, x ∈ t :: rest -> Math_min t rest <= x.
Proof.
  unfold Math_min. revert t. induction rest as [|y rest IH]; intros t; simpl.
  - split; [by left |]. intros x Hx. apply list_elem_of_singleton in Hx. lia.
  - destruct (IH (Z.min t y)) as [Hin Hle]. split.
    + apply elem_of_cons in Hin as [-> | Hin].
      * destruct (Z.min_spec t y) as [[_ ->] | [_ ->]]; [by left | right; by left].
      * right. by right.
    + intros x Hx. apply elem_of_cons in Hx as [-> | Hx].
      * specialize (Hle (Z.min t y)). pose proof (Hle ltac:(by left)). lia.
      * apply elem_of_cons in Hx as [-> | Hx].
        -- specialize (Hle (Z.min t y)). pose proof (Hle ltac:(by left)). lia.
        -- apply Hle. by right.
Qed.

(** *** A burst of requests inside one window *)

Section Burst.
Variable cfg : Config.
Variable ip : string.
Variable t0 : Z.

Let in_window (ts : Z) : Prop := t0 <= ts < t0 + windowMs cfg.

Local Abbreviation decisions := (RateLimiter.decisions cfg).

Lemma decisions_S (c n : nat) :
  decisions c (S n) = (Z.of_nat c <? maxRequests cfg) :: decisions (S c) n.
Proof.
  unfold decisions. simpl. rewrite Nat.add_0_r. f_equal.
  rewrite <- seq_shift, map_map. apply map_ext. intros i. do 2 f_equal. lia.
Qed.

Lemma decisions_saturated (c c' n : nat) :
  maxRequests cfg <= Z.of_nat c -> (c <= c')%nat -> decisions c n = decisions c' n.
Proof.
  intros Hc Hcc. unfold decisions. apply map_ext. intros i.
  destruct (Z.ltb_spec (Z.of_nat (c + i)) (maxRequests cfg)); [lia |].
  destruct (Z.ltb_spec (Z.of_nat (c' + i)) (maxRequests cfg)); [lia | done].
Qed.

Lemma serve_decisions (times : list (Z * Z)) (store : Store) (l : list Z) :
  within_window cfg t0 times ->
  store !! ip = Some l -> Forall in_window l ->
  (serve cfg store ip times).1 = decisions (length l) (length times).
Proof.
  intros Hw. revert store l.
  induction Hw as [|[tc tr] times [Htc Htr] _ IH]; intros store l Hl Hin; [done |].
  cbn [serve length]. rewrite decisions_S.
  unfold rateLimiter, checkRateLimit. cbn [snd allowed fst] in *.
  rewrite Hl. cbn [default from_option id].
  rewrite (cleanup_keeps_all l (tc - windowMs cfg))
    by (eapply Forall_impl; [exact Hin | unfold in_window; intros; lia]).
  destruct (Z.ltb_spec (Z.of_nat (length l)) (maxRequests cfg)) as [Hlt | Hge].
  - set (store' := recordRequest cfg store tr ip).
    assert (Hs : store' !! ip = Some (l ++ [tr])).
    { unfold store', recordRequest. rewrite Hl. cbn [default from_option id].
      rewrite lookup_insert_eq. f_equal. f_equal.
      apply cleanup_keeps_all.
      eapply Forall_impl; [exact Hin | unfold in_window; intros; lia]. }
    specialize (IH store' (l ++ [tr]) Hs).
    destruct (serve cfg store' ip times) as [ds final]. cbn [fst] in *.
    rewrite IH.
    + f_equal. f_equal. rewrite length_app. simpl. lia.
    + apply Forall_app. split; [done |]. by constructor.
  - specialize (IH store l Hl Hin).
    destruct (serve cfg store ip times) as [ds final]. cbn [fst] in *.
    rewrite IH. f_equal. apply decisions_saturated; lia.
Qed.

Lemma serve_decisions_fresh (times : list (Z * Z)) (store : Store) :
  within_window cfg t0 times ->
  Forall (fun ts => ts + windowMs cfg <= t0) (default [] (store !! ip)) ->
  (serve cfg store ip times).1 = decisions 0 (length times).
Proof.
  intros Hw Hold. destruct Hw as [|[tc tr] times [Htc Htr] Hw]; [done |].
  cbn [serve length]. rewrite decisions_S.
  unfold rateLimiter, checkRateLimit. cbn [snd allowed fst] in *.
  rewrite (cleanup_drops_all _ (tc - windowMs cfg))
    by (eapply Forall_impl; [exact Hold | simpl; intros; lia]).
  cbn [length]. destruct (Z.ltb_spec (Z.of_nat 0) (maxRequests cfg)) as [Hlt | Hge].
  - set (store' := recordRequest cfg store tr ip).
    assert (Hs : store' !! ip = Some [tr]).
    { unfold store', recordRequest. rewrite lookup_insert_eq. f_equal.
      rewrite (cleanup_drops_all _ (tr - windowMs cfg)); [done |].
      eapply Forall_impl; [exact Hold | simpl; intros; lia]. }
    pose proof (serve_decisions times store' [tr] Hw Hs) as Hd.
    destruct (serve cfg store' ip times) as [ds final]. cbn [fst] in *.
    rewrite Hd; [done |]. by constructor.
  - assert (Hrest : forall ts (st : Store),
              within_window cfg t0 ts ->
              Forall (fun ts => ts + windowMs cfg <= t0) (default [] (st !! ip)) ->
              (serve cfg st ip ts).1 = decisions 1 (length ts)).
    { clear -Hge. induction 1 as [|[tc tr] ts [Htc Htr] _ IH]; intros Hold; [done |].
      cbn [serve length]. rewrite decisions_S.
      unfold rateLimiter, checkRateLimit. cbn [snd allowed fst] in *.
      rewrite (cleanup_drops_all _ (tc - windowMs cfg))
        by (eapply Forall_impl; [exact Hold | simpl; intros; lia]).
      cbn [length].
      destruct (Z.ltb_spec (Z.of_nat 0) (maxRequests cfg)) as [? | _]; [lia |].
      specialize (IH Hold).
      destruct (serve cfg st ip ts) as [ds final]. cbn [fst] in *. rewrite IH.
      destruct (Z.ltb_spec (Z.of_nat 1) (maxRequests cfg)) as [? | _]; [lia |].
      f_equal. apply decisions_saturated; lia. }
    specialize (Hrest times store Hw Hold).
    destruct (serve cfg store ip times) as [ds final]. cbn [fst] in *.
    by rewrite Hrest.
Qed.

Lemma decisions_full (n : nat) :
  maxRequests cfg = Z.of_nat n ->
  decisions 0 (S n) = replicate n true ++ [false].
Proof.
  intros Hn. unfold decisions. rewrite seq_S, map_app. simpl. f_equal.
  - assert (H : forall k, (k <= n)%nat ->
              map (fun i => Z.of_nat i <? maxRequests cfg) (seq 0 k) = replicate k true).
    { induction k as [|k IH]; intros Hk; [done |].
      rewrite seq_S, map_app, IH by lia. simpl.
      destruct (Z.ltb_spec (Z.of_nat k) (maxRequests cfg)); [| lia].
      by rewrite <- replicate_cons_app. }
    by apply H.
  - destruct (Z.ltb_spec (Z.of_nat n) (maxRequests cfg)); [lia | done].
Qed.

End Burst.

Example eleventh_request_refused :
  (serve defaults ∅ "203.0.113.7"
     [ (0, 0); (1, 1); (2, 2); (3, 3); (4, 4); (5, 5); (6, 6); (7, 7); (8, 8); (9, 9);
       (10, 10) ]).1
  = [ true; true; true; true; true; true; true; true; true; true; false ].
Proof. reflexivity. Qed.

Example reset_counts_from_oldest :
  checkRateLimit defaults {[ "203.0.113.7" := [1000; 5000] ]} 6000 "203.0.113.7"
  = {| allowed := true; remaining := 8; resetIn := 3595000 |}.
Proof. reflexivity. Qed.

(** C3. [checkRateLimit] keeps the stored instants of the client that are
    later than [now - windowMs] and drops the others (so every instant older
    than the window start is dropped). With [count] the number kept:
    [allowed] holds exactly when [count < maxRequests]; [remaining] is
    [maxRequests - count], floored at 0; [resetIn] is the whole window when
    nothing is kept, else [oldest + windowMs - now] for the least kept
    instant. Consequently, for a client with no instant left in the window,
    [maxRequests + 1] requests through the middleware inside one window are
    allowed one by one up to [maxRequests] and the last is refused; and once
    every stored instant is a full window old, a check is allowed again
    (when the maximum is positive). *)
Theorem checkRateLimit_postcondition (cfg : Config) (store : Store) (now : Z)
    (ip : string) :
  let stored := default [] (store !! ip) in
  let kept := cleanupTimestamps stored (now - windowMs cfg) in
  let count := Z.of_nat (length kept) in
  let r := checkRateLimit cfg store now ip in
  (forall ts, ts ∈ kept <-> ts ∈ stored /\ now - windowMs cfg < ts) /\
  (forall ts, ts ∈ stored -> ts < now - windowMs cfg -> ts ∉ kept) /\
  (allowed r = true <-> count < maxRequests cfg) /\
  remaining r = Z.max 0 (maxRequests cfg - count) /\
  (kept = [] -> resetIn r = windowMs cfg) /\
  (kept <> [] ->
     exists oldest, oldest ∈ kept /\ (forall ts, ts ∈ kept -> oldest <= ts) /\
                    resetIn r = oldest + windowMs cfg - now) /\
  (forall (t0 : Z) (times : list (Z * Z)),
     0 <= maxRequests cfg ->
     length times = S (Z.to_nat (maxRequests cfg)) ->
     within_window cfg t0 times ->
     Forall (fun ts => ts + windowMs cfg <= t0) stored ->
     (serve cfg store ip times).1 = replicate (Z.to_nat (maxRequests cfg)) true ++ [false]) /\
  (0 < maxRequests cfg ->
     (forall ts, ts ∈ stored -> ts + windowMs cfg <= now) ->
     allowed r = true /\ remaining r = maxRequests cfg /\ resetIn r = windowMs cfg).
Proof.
  intros stored kept count r.
  assert (Hr : r = {| allowed := count <? maxRequests cfg;
                      remaining := Z.max 0 (maxRequests cfg - count);
                      resetIn := match kept with
                                 | [] => windowMs cfg
                                 | t :: rest => Math_min t rest + windowMs cfg - now
                                 end |}) by reflexivity.
  split; [intros ts; apply cleanup_elem |].
  split; [intros ts _ Hlt Hin; apply cleanup_elem in Hin; lia |].
  split; [rewrite Hr; cbn [allowed]; apply Z.ltb_lt |].
  split; [by rewrite Hr |].
  split; [intros Hk; rewrite Hr; cbn [resetIn]; by rewrite Hk |].
  split; [| split].
  - intros Hk. rewrite Hr. cbn [resetIn].
    destruct kept as [|t rest]; [done |].
    destruct (Math_min_least t rest) as [Hin Hle].
    exists (Math_min t rest). by repeat split.
  - intros t0 times Hmax Hlen Hw Hold.
    rewrite (serve_decisions_fresh cfg ip t0 times store Hw Hold), Hlen.
    apply decisions_full. lia.
  - intros Hmax Hold.
    assert (Hk : kept = []).
    { apply cleanup_drops_all, Forall_forall. intros ts Hts.
      apply Hold in Hts. lia. }
    rewrite Hr. unfold count. rewrite Hk. cbn [allowed remaining resetIn length].
    repeat split; [apply Z.ltb_lt | ]; lia.
Qed.

Lemma checkRateLimit_postcondition_witness :
  (serve defaults ∅ "203.0.113.7"
     [ (0, 0); (1, 1); (2, 2); (3, 3); (4, 4); (5, 5); (6, 6); (7, 7); (8, 8); (9, 9);
       (10, 10) ]).1
  = replicate 10 true ++ [false] /\
  allowed (checkRateLimit defaults {[ "203.0.113.7" := [0; 1; 2] ]} 3600002
             "203.0.113.7") = true.
Proof.
  pose proof (checkRateLimit_postcondition defaults ∅ 0 "203.0.113.7")
    as (_ & _ & _ & _ & _ & _ & Hburst & _).
  pose proof (checkRateLimit_postcondition defaults {[ "203.0.113.7" := [0; 1; 2] ]}
                3600002 "203.0.113.7") as (_ & _ & _ & _ & _ & _ & _ & Hafter).
  split.
  - apply (Hburst 0); [done | done | | constructor].
    unfold within_window. repeat constructor; simpl; lia.
  - apply Hafter; [done |].
    intros ts Hts. rewrite lookup_singleton_eq in Hts. simpl in Hts.
    repeat (apply elem_of_cons in Hts as [-> | Hts]; [simpl; lia |]).
    by apply elem_of_nil in Hts.
Defined.

End RateLimiterSpec.

(** ** The browser service *)

Module BrowserSpec.
Import Validators Config Browser Samples.

Ltac trace_split :=
  first [ by rewrite app_nil_r
        | rewrite <- ?app_assoc; reflexivity ].

Lemma try_shape (parseURL : string -> option URL) (options : ScreenshotRequest)
    (sc : Script) (w : World) :
  let '(r, l, w') := captureScreenshotOnce_try parseURL options sc w in
  exists body,
    trace w' = trace w ++ body /\
    forallb (fun e => negb (is_close e)) body = true /\
    count context_created body = (if context l then 1 else 0)%nat /\
    count page_created body = (if page l then 1 else 0)%nat /\
    (page l = true -> context l = true) /\
    count is_attempt body = 0%nat /\
    (browser w = None -> exists res rest, body = EvLaunch res :: rest) /\
    (existsb is_screenshot body = true -> r = payload_result sc) /\
    (existsb is_screenshot body = false -> exists e, r = Throw e).
Proof.
  unfold captureScreenshotOnce_try, createContext, getBrowser, setupAdBlocking,
    waitForPage, close_and_forget, emit, set_browser, payload_result.
  destruct w as [b n t]. cbn [browser launches trace].
  repeat case_match; simplify_eq/=;
    (eexists; split; [trace_split |];
     repeat split; try done; intros; try discriminate;
     first [eexists _, _; reflexivity | eexists; reflexivity]).
Qed.

Lemma finally_shape (l : Locals) (sc : Script) (w : World) :
  captureScreenshotOnce_finally l sc w =
  (Return tt,
   {| browser := browser w; launches := launches w;
      trace := trace w ++ (if page l then [EvPageClose] else []) ++
                          (if context l then [EvContextClose] else []) |}).
Proof.
  unfold captureScreenshotOnce_finally, catch_discard, try_catch, emit.
  destruct w as [b n t], l as [[] []], (page_close sc) as [[]|], (context_close sc) as [[]|];
    cbn [browser launches trace context page];
    rewrite ?app_nil_r, <- ?app_assoc; reflexivity.
Qed.

Lemma count_app (p : Event -> bool) (s t : list Event) :
  count p (s ++ t) = (count p s + count p t)%nat.
Proof. unfold count. by rewrite List.filter_app, length_app. Qed.

Lemma count_none (p : Event -> bool) (t : list Event) :
  forallb (fun e => negb (p e)) t = true -> count p t = 0%nat.
Proof.
  unfold count. induction t as [|e t IH]; [done |]. simpl.
  rewrite andb_true_iff. intros [He Ht]. destruct (p e); [done | auto].
Qed.

Lemma existsb_count (p : Event -> bool) (t : list Event) :
  existsb p t = negb (count p t =? 0)%nat.
Proof.
  unfold count. induction t as [|e t IH]; [done |]. simpl.
  destruct (p e); [done | by rewrite IH].
Qed.

Lemma no_close_split (t : list Event) :
  forallb (fun e => negb (is_close e)) t = true ->
  forallb (fun e => negb (is_page_close e)) t = true /\
  forallb (fun e => negb (is_context_close e)) t = true.
Proof.
  induction t as [|e t IH]; [done |]. simpl. rewrite !andb_true_iff.
  intros [He Ht]. destruct (IH Ht). by destruct e.
Qed.

Example failed_navigation_still_closes :
  let sc := {| isConnected := true; launch := Return tt; newContext := Return tt;
               newPage := Return tt; route := Return tt;
               goto := Throw (JsError "net::ERR_ABORTED");
               waitForLoadState := Return tt; waitForTimeout := Return tt;
               screenshot := Return None;
               page_close := Throw (JsError "Target page, context or browser has been closed");
               context_close := Throw (JsError "Protocol error") |} in
  let out := captureScreenshotOnce (fun _ => None) example_request sc
               {| browser := Some 0%nat; launches := 1; trace := [] |} in
  out.1 = Throw (JsError "net::ERR_ABORTED") /\
  trace out.2 =
    [ EvNewContext 0 (context_options example_request) true; EvNewPage true;
      EvRoute; EvGoto "https://example.com" 30000; EvPageClose; EvContextClose ].
Proof. split; reflexivity. Qed.

(** C8. Whatever Playwright answers during an attempt, and so at whatever
    step the attempt ends: the trace of the attempt is a body without any
    close followed by the closes owed for what the body created, the page
    (if one was created) before the context (if one was created); at most
    one context and one page are created, and each is closed exactly once;
    the completion of the attempt is the completion of its [try] block, and
    it does not depend on the outcome of the two [close] calls. *)
Theorem cleanup_on_every_exit (parseURL : string -> option URL)
    (options : ScreenshotRequest) (sc : Script) (w : World) :
  let primary := (captureScreenshotOnce_try parseURL options sc w).1.1 in
  let out := captureScreenshotOnce parseURL options sc w in
  out.1 = primary /\
  (forall pc cc,
     captureScreenshotOnce parseURL options (with_close_outcomes sc pc cc) w = out) /\
  exists body,
    trace out.2 = trace w ++ body ++ closes_for body /\
    forallb (fun e => negb (is_close e)) body = true /\
    (count context_created body <= 1)%nat /\
    (count page_created body <= count context_created body)%nat /\
    count is_page_close (body ++ closes_for body) = count page_created body /\
    count is_context_close (body ++ closes_for body) = count context_created body.
Proof.
  intros primary out.
  assert (Hout : forall sc', captureScreenshotOnce_try parseURL options sc' w =
                             captureScreenshotOnce_try parseURL options sc w ->
            captureScreenshotOnce parseURL options sc' w =
            (primary,
             let w1 := (captureScreenshotOnce_try parseURL options sc w).2 in
             let l := (captureScreenshotOnce_try parseURL options sc w).1.2 in
             {| browser := browser w1; launches := launches w1;
                trace := trace w1 ++ (if page l then [EvPageClose] else []) ++
                                     (if context l then [EvContextClose] else []) |})).
  { intros sc' Hsc'. unfold captureScreenshotOnce, primary. rewrite Hsc'.
    destruct (captureScreenshotOnce_try parseURL options sc w) as [[r l] w1].
    by rewrite finally_shape. }
  assert (Ho : out = _) by exact (Hout sc eq_refl).
  split; [by rewrite Ho |]. split; [intros pc cc; rewrite Ho; by apply Hout |].
  rewrite Ho. cbn [snd trace].
  pose proof (try_shape parseURL options sc w) as Hs.
  destruct (captureScreenshotOnce_try parseURL options sc w) as [[r l] w1].
  destruct Hs as (body & Ht & Hnc & Hc & Hp & Hpc & _). cbn [fst snd].
  exists body. destruct (no_close_split body Hnc) as [Hnp Hncc].
  assert (Hcl : closes_for body = (if page l then [EvPageClose] else []) ++
                                  (if context l then [EvContextClose] else [])).
  { unfold closes_for. rewrite !existsb_count, Hc, Hp. by destruct l as [[] []]. }
  rewrite Hcl, Ht, <- app_assoc. split; [done |]. split; [done |].
  rewrite !count_app, (count_none _ _ Hnp), (count_none _ _ Hncc), Hc, Hp.
  destruct l as [[] []]; cbn; repeat split; try lia.
  by specialize (Hpc eq_refl).
Qed.

(** *** The retry loop *)

Lemma new_events_app (w w' : World) (t : list Event) :
  trace w' = trace w ++ t -> new_events w w' = t.
Proof. intros H. unfold new_events. by rewrite H, drop_app_length. Qed.

Lemma once_shape (parseURL : string -> option URL) (options : ScreenshotRequest)
    (sc : Script) (w : World) :
  exists t,
    trace (captureScreenshotOnce parseURL options sc w).2 = trace w ++ t /\
    count is_attempt t = 0%nat /\
    (browser w = None -> exists res rest, t = EvLaunch res :: rest).
Proof.
  unfold captureScreenshotOnce.
  pose proof (try_shape parseURL options sc w) as Hs.
  destruct (captureScreenshotOnce_try parseURL options sc w) as [[r l] w1].
  destruct Hs as (body & Ht & _ & _ & _ & _ & Ha & Hl & _).
  rewrite finally_shape. cbn [snd trace]. rewrite Ht, <- app_assoc.
  eexists. split; [reflexivity |]. split.
  - rewrite count_app, Ha. by destruct l as [[] []].
  - intros Hb. destruct (Hl Hb) as (res & rest & ->). by eexists _, _.
Qed.

Lemma attempt_at_shape (parseURL : string -> option URL) (options : ScreenshotRequest)
    (scripts : nat -> Script) (n : nat) (w : World) :
  exists t,
    trace (attempt_at parseURL options scripts n w).2 = trace w ++ EvAttempt n :: t /\
    count is_attempt t = 0%nat /\
    (browser w = None -> exists res rest, t = EvLaunch res :: rest).
Proof.
  unfold attempt_at.
  destruct (once_shape parseURL options (scripts n) (emit (EvAttempt n) w))
    as (t & Ht & Ha & Hl).
  exists t. split; [| by split].
  rewrite Ht. unfold emit. cbn [trace]. by rewrite <- app_assoc.
Qed.

Lemma close_and_forget_shape (w : World) :
  browser (close_and_forget w) = None /\
  exists t, trace (close_and_forget w) = trace w ++ t /\ count is_attempt t = 0%nat /\
            t = match browser w with Some h => [EvBrowserClose h] | None => [] end.
Proof.
  unfold close_and_forget, set_browser, emit.
  destruct (browser w) as [h|] eqn:Hb; cbn [browser trace].
  - split; [done |]. by eexists.
  - split; [done |]. exists []. by rewrite app_nil_r.
Qed.

Lemma loop_attempts (parseURL : string -> option URL) (options : ScreenshotRequest)
    (scripts : nat -> Script) (k n : nat) (last : option Thrown) (w : World) :
  exists t,
    trace (captureScreenshot_loop parseURL options scripts k n last w).2 = trace w ++ t /\
    (attempts t <= k)%nat /\ (1 <= k -> 1 <= attempts t)%nat.
Proof.
  revert n last w. induction k as [|k IH]; intros n last w.
  - exists []. cbn. rewrite app_nil_r. repeat split; lia.
  - cbn [captureScreenshot_loop]. fold (attempt_at parseURL options scripts n w).
    destruct (attempt_at_shape parseURL options scripts n w) as (t & Ht & Ha & _).
    destruct (attempt_at parseURL options scripts n w) as [[b|e] w1]; cbn [snd] in *.
    + exists (EvAttempt n :: t). split; [done |].
      unfold attempts in *. change (count is_attempt (EvAttempt n :: t))
        with (S (count is_attempt t)). lia.
    + destruct (retryable (message_text (as_Error e))).
      * destruct (close_and_forget_shape w1) as (_ & tc & Htc & Hac & _).
        destruct (IH (S n) (Some (as_Error e)) (close_and_forget w1)) as (t' & Ht' & Ha' & _).
        exists (EvAttempt n :: t ++ tc ++ t'). split.
        -- rewrite Ht', Htc, Ht. by rewrite <- !app_assoc.
        -- unfold attempts in *.
           change (count is_attempt (EvAttempt n :: t ++ tc ++ t'))
             with (S (count is_attempt (t ++ tc ++ t'))).
           rewrite !count_app. lia.
      * exists (EvAttempt n :: t). split; [done |].
        unfold attempts in *. change (count is_attempt (EvAttempt n :: t))
          with (S (count is_attempt t)). lia.
Qed.

Example crash_then_success :
  let out := captureScreenshot (fun _ => None) example_request
               (fun n => match n with O => crashing | _ => healthy end) started in
  out.1 = Return png /\
  List.filter (fun e => is_attempt e || is_launch e ||
                        match e with EvBrowserClose _ => true | _ => false end)
              (trace out.2) =
    [ EvAttempt 0; EvBrowserClose 0; EvAttempt 1; EvLaunch (Some 1%nat) ].
Proof. split; reflexivity. Qed.

Example three_crashes :
  let out := captureScreenshot (fun _ => None) example_request
               (fun _ => crashing) started in
  out.1 = Throw (JsError "browser.newContext: Target page, context or browser has been closed") /\
  attempts (trace out.2) = 3%nat.
Proof. split; reflexivity. Qed.

Lemma loop_S (parseURL : string -> option URL) (options : ScreenshotRequest)
    (scripts : nat -> Script) (k n : nat) (last : option Thrown) (w : World) :
  captureScreenshot_loop parseURL options scripts (S k) n last w =
  match attempt_at parseURL options scripts n w with
  | (Return b, w') => (Return b, w')
  | (Throw e, w') =>
      if retryable (message_text (as_Error e))
      then captureScreenshot_loop parseURL options scripts k (S n) (Some (as_Error e))
             (close_and_forget w')
      else (Throw (as_Error e), w')
  end.
Proof. reflexivity. Qed.

Lemma count_attempt_cons (n : nat) (t : list Event) :
  count is_attempt (EvAttempt n :: t) = S (count is_attempt t).
Proof. reflexivity. Qed.

(** Put the trace of the final world in the form [trace w ++ _] and
    count its attempts. *)
Ltac attempts_of Hs :=
  erewrite new_events_app by (rewrite Hs, <- ?app_assoc; reflexivity);
  unfold attempts; rewrite ?count_app, ?count_attempt_cons.

(** The texts the loop retries are those in which one of the three
    literals occurs, with this spelling and case, at any place. *)
Lemma retryable_exact (m : string) :
  retryable m = true <->
  (exists a b, m = a +:+ "closed" +:+ b) \/
  (exists a b, m = a +:+ "Target page" +:+ b) \/
  (exists a b, m = a +:+ "Protocol error" +:+ b).
Proof. unfold retryable. rewrite !orb_true_iff, !includes_app. tauto. Qed.

(** C4, at a request the service can receive. The navigation to
    [https://example.com/closed-beta] runs out of time on every attempt.
    The attempt rewrites the failure as "Timeout navigating to" followed by
    the URL; the text of the URL contains "closed", so the loop takes the
    timeout for a closed browser: it closes the shared browser, launches a
    new one and tries again, three attempts in all, and leaves no browser
    behind. The same timeout for [https://example.com] ends the capture at
    the first attempt and keeps the browser, as the comments of the loop
    say of every failure that is not a closed browser or context. *)
Lemma navigation_timeout_is_retried :
  let request (u : string) :=
    {| url := u; width := None; height := None; fullPage := false; darkMode := false;
       blockAds := true; device := desktop; waitFor := networkidle; timeout := 30000 |} in
  let capture (u : string) :=
    captureScreenshot toy_parser (request u) (fun _ => timing_out) started in
  (capture "https://example.com/closed-beta").1
    = Throw (JsError "Timeout navigating to https://example.com/closed-beta") /\
  attempts (trace (capture "https://example.com/closed-beta").2) = 3%nat /\
  List.filter (fun e => is_launch e || match e with EvBrowserClose _ => true | _ => false end)
    (trace (capture "https://example.com/closed-beta").2)
    = [ EvBrowserClose 0; EvLaunch (Some 1%nat); EvBrowserClose 1;
        EvLaunch (Some 2%nat); EvBrowserClose 2 ] /\
  browser (capture "https://example.com/closed-beta").2 = None /\
  (capture "https://example.com").1 = Throw (JsError "Timeout navigating to https://example.com") /\
  attempts (trace (capture "https://example.com").2) = 1%nat /\
  browser (capture "https://example.com").2 = Some 0%nat.
Proof. repeat split; vm_compute; reflexivity. Qed.

(** X23. The retry loop. A capture makes at least one and at most three
    attempts. A failure is retried exactly when "closed", "Target page" or
    "Protocol error" occurs in its text, with this spelling and case, at
    any place. With [a0], [a1], [a2] the attempts as the loop runs them and
    [w1], [w2] the worlds after the invalidation that follows a retried
    failure: an attempt that succeeds, or fails with a text that is not
    retried, ends the capture with its result and no further attempt; a
    retried failure is followed, while attempts remain, by the close of the
    shared browser and the reset of the handle, so that the next attempt
    starts with a launch; after a third such failure the capture ends with
    that error, and there is no fourth attempt. *)
Theorem retry_policy (parseURL : string -> option URL) (options : ScreenshotRequest)
    (scripts : nat -> Script) (w : World) :
  let once := attempt_at parseURL options scripts in
  let out := captureScreenshot parseURL options scripts w in
  let a0 := once 0%nat w in
  let w1 := close_and_forget a0.2 in
  let a1 := once 1%nat w1 in
  let w2 := close_and_forget a1.2 in
  let a2 := once 2%nat w2 in
  let fresh_launch (n : nat) (w' : World) :=
    exists res rest, new_events w' (once n w').2 = EvAttempt n :: EvLaunch res :: rest in
  (1 <= attempts (new_events w out.2) <= 3)%nat /\
  (forall r, retried r = true <->
     exists e, r = Throw e /\
       ((exists a b, message_text (as_Error e) = a +:+ "closed" +:+ b) \/
        (exists a b, message_text (as_Error e) = a +:+ "Target page" +:+ b) \/
        (exists a b, message_text (as_Error e) = a +:+ "Protocol error" +:+ b))) /\
  (retried a0.1 = false ->
     out = (rethrown a0.1, a0.2) /\ attempts (new_events w out.2) = 1%nat) /\
  (retried a0.1 = true ->
     browser w1 = None /\
     new_events a0.2 w1 =
       match browser a0.2 with Some h => [EvBrowserClose h] | None => [] end /\
     fresh_launch 1%nat w1 /\
     (retried a1.1 = false ->
        out = (rethrown a1.1, a1.2) /\ attempts (new_events w out.2) = 2%nat) /\
     (retried a1.1 = true ->
        browser w2 = None /\ fresh_launch 2%nat w2 /\
        out = (rethrown a2.1, if retried a2.1 then close_and_forget a2.2 else a2.2) /\
        attempts (new_events w out.2) = 3%nat)).
Proof.
  cbv zeta.
  split.
  { destruct (loop_attempts parseURL options scripts (S maxRetries) 0 None w)
      as (t & Ht & Hle & Hge).
    unfold captureScreenshot. rewrite (new_events_app _ _ _ Ht).
    unfold maxRetries in *. lia. }
  split.
  { intros [b|e]; cbn [retried].
    - split; [done | by intros (e & [=] & _)].
    - rewrite retryable_exact. split; [intros H; by exists e |].
      by intros (e' & [= <-] & H). }
  unfold captureScreenshot, maxRetries. rewrite loop_S.
  destruct (attempt_at_shape parseURL options scripts 0 w) as (t0 & Ht0 & Ha0 & _).
  destruct (attempt_at parseURL options scripts 0 w) as [r0 wa0]. cbn [fst snd] in *.
  destruct (close_and_forget_shape wa0) as (Hb1 & tc1 & Htc1 & Hac1 & Hc1).
  set (w1 := close_and_forget wa0) in *.
  destruct (attempt_at_shape parseURL options scripts 1 w1) as (t1 & Ht1 & Ha1 & Hl1).
  destruct r0 as [b0|e0]; cbn [retried rethrown].
  { split; [intros _ | done]. split; [done |]. cbn [snd]. attempts_of Ht0. lia. }
  destruct (retryable (message_text (as_Error e0))).
  2: { split; [intros _ | done]. split; [done |]. cbn [snd]. attempts_of Ht0. lia. }
  split; [done |]. intros _. split; [done |].
  split; [by rewrite (new_events_app _ _ _ Htc1) |]. split.
  { destruct (Hl1 Hb1) as (res & rest & ->). exists res, rest.
    by apply new_events_app. }
  rewrite loop_S.
  destruct (attempt_at parseURL options scripts 1 w1) as [r1 wa1]. cbn [fst snd] in *.
  destruct (close_and_forget_shape wa1) as (Hb2 & tc2 & Htc2 & Hac2 & _).
  set (w2 := close_and_forget wa1) in *.
  destruct (attempt_at_shape parseURL options scripts 2 w2) as (t2 & Ht2 & Ha2 & Hl2).
  rewrite Htc1, Ht0, <- app_assoc in Ht1.
  destruct r1 as [b1|e1]; cbn [retried rethrown].
  { split; [intros _ | done]. split; [done |]. cbn [snd]. attempts_of Ht1. lia. }
  destruct (retryable (message_text (as_Error e1))).
  2: { split; [intros _ | done]. split; [done |]. cbn [snd]. attempts_of Ht1. lia. }
  split; [done |]. intros _. split; [done |]. split.
  { destruct (Hl2 Hb2) as (res & rest & ->). exists res, rest.
    by apply new_events_app. }
  rewrite loop_S.
  destruct (attempt_at parseURL options scripts 2 w2) as [r2 wa2]. cbn [fst snd] in *.
  destruct (close_and_forget_shape wa2) as (_ & tc3 & Htc3 & Hac3 & _).
  rewrite Htc2, Ht1, <- !app_assoc in Ht2.
  rewrite Ht2 in Htc3.
  destruct r2 as [b2|e2]; cbn [retried rethrown].
  { split; [done |]. cbn [snd]. attempts_of Ht2. lia. }
  destruct (retryable (message_text (as_Error e2))); cbn [captureScreenshot_loop default
    from_option id snd].
  - split; [done |]. attempts_of Htc3. lia.
  - split; [done |]. attempts_of Ht2. lia.
Qed.

Lemma retry_policy_witness :
  let scripts := fun n : nat => match n with O => crashing | _ => healthy end in
  let a0 := attempt_at (fun _ => None) example_request scripts 0 started in
  let w1 := close_and_forget a0.2 in
  let a1 := attempt_at (fun _ => None) example_request scripts 1 w1 in
  captureScreenshot (fun _ => None) example_request scripts started
  = (rethrown a1.1, a1.2).
Proof.
  cbv zeta.
  pose proof (retry_policy (fun _ => None) example_request
                (fun n : nat => match n with O => crashing | _ => healthy end) started)
    as (_ & _ & _ & H).
  destruct (H eq_refl) as (_ & _ & _ & H1 & _).
  exact (proj1 (H1 eq_refl)).
Defined.

(** *** The validation of the payload *)

Lemma isValidPng_prefix (b : Buffer) :
  isValidPng b = true <-> exists rest, b = pngSignature ++ rest.
Proof.
  split.
  - unfold isValidPng, pngSignature.
    destruct b as [|b0 [|b1 [|b2 [|b3 [|b4 [|b5 [|b6 [|b7 rest]]]]]]]];
      cbn -[Byte.eqb]; rewrite ?andb_false_r; try done.
    rewrite !andb_true_iff.
    intros (H0 & H1 & H2 & H3 & H4 & H5 & H6 & H7 & _).
    apply Byte.byte_dec_bl in H0, H1, H2, H3, H4, H5, H6, H7. subst. by exists rest.
  - intros [rest ->]. reflexivity.
Qed.

Lemma validate_buffer_Return (p : option Buffer) (b : Buffer) :
  validate_buffer p = Return b -> p = Some b /\ b <> [] /\ isValidPng b = true.
Proof.
  unfold validate_buffer. destruct p as [b'|]; [| done].
  destruct b' as [|x b']; [done |]. cbn [length Nat.eqb].
  destruct (isValidPng (x :: b')) eqn:E; [| done].
  intros [= <-]. done.
Qed.

Lemma validate_buffer_bad (p : option Buffer) :
  Route.bad_payload p ->
  validate_buffer p = Throw (JsError empty_buffer_message) \/
  validate_buffer p = Throw (JsError invalid_png_message).
Proof.
  unfold validate_buffer, Route.bad_payload. destruct p as [b|]; [| by left].
  destruct b as [|x b]; [by left |]. intros [? | H]; [done |].
  cbn [length Nat.eqb]. rewrite H. by right.
Qed.

Lemma once_result (parseURL : string -> option URL) (options : ScreenshotRequest)
    (sc : Script) (w : World) :
  let out := captureScreenshotOnce parseURL options sc w in
  (existsb is_screenshot (new_events w out.2) = true -> out.1 = payload_result sc) /\
  (existsb is_screenshot (new_events w out.2) = false -> exists e, out.1 = Throw e).
Proof.
  unfold captureScreenshotOnce.
  pose proof (try_shape parseURL options sc w) as Hs.
  destruct (captureScreenshotOnce_try parseURL options sc w) as [[r l] w1].
  destruct Hs as (body & Ht & _ & _ & _ & _ & _ & _ & Hy & Hn).
  rewrite finally_shape. cbn [fst snd].
  erewrite new_events_app by (cbn [trace]; rewrite Ht, <- app_assoc; reflexivity).
  assert (He : existsb is_screenshot
                 (body ++ (if page l then [EvPageClose] else []) ++
                          (if context l then [EvContextClose] else [])) =
               existsb is_screenshot body).
  { rewrite existsb_app. destruct l as [[] []]; cbn; by rewrite orb_false_r. }
  rewrite He. by split.
Qed.

Lemma once_Return (parseURL : string -> option URL) (options : ScreenshotRequest)
    (sc : Script) (w : World) (b : Buffer) :
  (captureScreenshotOnce parseURL options sc w).1 = Return b ->
  screenshot sc = Return (Some b) /\ b <> [] /\ isValidPng b = true.
Proof.
  intros Hr. destruct (once_result parseURL options sc w) as [Hy Hn].
  destruct (existsb is_screenshot
              (new_events w (captureScreenshotOnce parseURL options sc w).2)).
  - specialize (Hy eq_refl). rewrite Hr in Hy. unfold payload_result in Hy.
    destruct (screenshot sc) as [p|]; [| done].
    symmetry in Hy. apply validate_buffer_Return in Hy as (-> & ? & ?). done.
  - destruct (Hn eq_refl) as [e He]. congruence.
Qed.

Lemma loop_Return (parseURL : string -> option URL) (options : ScreenshotRequest)
    (scripts : nat -> Script) (k n : nat) (last : option Thrown) (w : World) (b : Buffer) :
  (captureScreenshot_loop parseURL options scripts k n last w).1 = Return b ->
  exists m w0, (m < n + k)%nat /\ (attempt_at parseURL options scripts m w0).1 = Return b.
Proof.
  revert n last w. induction k as [|k IH]; intros n last w; [done |].
  rewrite loop_S.
  destruct (attempt_at parseURL options scripts n w) as [[b'|e] w'] eqn:E.
  - cbn. intros [= ->]. exists n, w. rewrite E. split; [lia | done].
  - destruct (retryable (message_text (as_Error e))); [| done].
    intros H. apply IH in H as (m & w0 & Hm & H). exists m, w0. split; [lia | done].
Qed.

Lemma captureScreenshot_Return (parseURL : string -> option URL)
    (options : ScreenshotRequest) (scripts : nat -> Script) (w : World) (b : Buffer) :
  (captureScreenshot parseURL options scripts w).1 = Return b ->
  b <> [] /\ isValidPng b = true /\
  exists m, (m < 3)%nat /\ screenshot (scripts m) = Return (Some b).
Proof.
  intros H. apply loop_Return in H as (m & w0 & Hm & H).
  apply once_Return in H as (? & ? & ?). repeat split; [done | done |].
  exists m. split; [unfold maxRetries in Hm; lia | done].
Qed.

End BrowserSpec.

(** ** Request validation *)

Module ValidatorsSpec.
Import Validators.

Lemma span_digits_app (ds : string) (c : ascii) (r : string) :
  all_digits ds = true -> is_digit c = false ->
  span_digits (ds +:+ String c r) = (ds, String c r).
Proof.
  unfold all_digits. intros Hds Hc.
  induction ds as [|x ds IH]; cbn [span_digits String.append].
  - change ("" +:+ String c r) with (String c r). cbn [span_digits]. by rewrite Hc.
  - change (String x ds +:+ String c r) with (String x (ds +:+ String c r)).
    cbn [span_digits]. simpl in Hds. apply andb_true_iff in Hds as [Hx Hds].
    by rewrite Hx, (IH Hds).
Qed.

Lemma span_digits_all (ds : string) :
  all_digits ds = true -> span_digits ds = (ds, "").
Proof.
  unfold all_digits. induction ds as [|x ds IH]; [done |].
  simpl. intros [Hx Hds]%andb_true_iff. by rewrite Hx, (IH Hds).
Qed.

Lemma octets_ok : forallb octet_ok (map Z.of_nat (seq 0 256)) = true.
Proof. vm_compute. reflexivity. Qed.

Lemma octet_text_ok (n : Z) : octet n -> octet_ok n = true.
Proof.
  unfold octet. intros Hn. pose proof octets_ok as H. rewrite forallb_forall in H.
  apply H. apply in_map_iff. exists (Z.to_nat n). split; [lia |].
  apply in_seq. lia.
Qed.

Lemma digit_group_octet (n : Z) (c : ascii) (r : string) :
  octet n -> is_digit c = false ->
  digit_group (octet_text n +:+ String c r) = Some (octet_text n, String c r).
Proof.
  intros Hn Hc. apply octet_text_ok in Hn. unfold octet_ok in Hn.
  apply andb_true_iff in Hn as [[[Hd H1]%andb_true_iff H3]%andb_true_iff _].
  unfold digit_group. rewrite (span_digits_app _ _ _ Hd Hc). by rewrite H1, H3.
Qed.

Lemma digit_group_octet_end (n : Z) :
  octet n -> digit_group (octet_text n) = Some (octet_text n, "").
Proof.
  intros Hn. apply octet_text_ok in Hn. unfold octet_ok in Hn.
  apply andb_true_iff in Hn as [[[Hd H1]%andb_true_iff H3]%andb_true_iff _].
  unfold digit_group. rewrite (span_digits_all _ Hd). by rewrite H1, H3.
Qed.

Lemma Number_of_octet (n : Z) : octet n -> Number_of_digits (octet_text n) = n.
Proof.
  intros Hn. apply octet_text_ok in Hn. unfold octet_ok in Hn.
  apply andb_true_iff in Hn as [_ Hn]. by apply Z.eqb_eq.
Qed.

Lemma digit_group_octet_dot (n : Z) (r : string) :
  octet n ->
  digit_group (octet_text n +:+ "." +:+ r) = Some (octet_text n, String "." r).
Proof. intros Hn. by apply (digit_group_octet n "." r). Qed.

Lemma ipPattern_dotted_quad (a b c d : Z) :
  octet a -> octet b -> octet c -> octet d ->
  ipPattern_match (dotted_quad a b c d) =
    Some (octet_text a, octet_text b, octet_text c, octet_text d).
Proof.
  intros Ha Hb Hc Hd. unfold ipPattern_match, dotted_quad.
  rewrite (digit_group_octet_dot a) by done. cbn [mbind option_bind expect_dot].
  rewrite (digit_group_octet_dot b) by done. cbn [mbind option_bind expect_dot].
  rewrite (digit_group_octet_dot c) by done. cbn [mbind option_bind expect_dot].
  rewrite (digit_group_octet_end d) by done. cbn [mbind option_bind]. done.
Qed.

Lemma list_includes_In (l : list string) (s : string) :
  list_includes l s = true <-> In s l.
Proof.
  unfold list_includes. rewrite existsb_exists. split.
  - intros (x & Hx & He). apply String.eqb_eq in He. by subst.
  - intros H. exists s. split; [done | apply String.eqb_refl].
Qed.

Example ip_10 : ipPattern_match "10.0.0.5" = Some ("10", "0", "0", "5").
Proof. reflexivity. Qed.

Example ip_too_long : ipPattern_match "1000.0.0.5" = None.
Proof. reflexivity. Qed.

Example ip_name : ipPattern_match "example.com" = None.
Proof. reflexivity. Qed.

Section WithPlatform.
Variable parseURL : string -> option URL.
Variable zod_url : string -> option string.

Lemma refine_protocol_rejects (u : string) (parsed : URL) :
  parseURL u = Some parsed -> ~ In (protocol parsed) allowed_protocols ->
  refine_protocol parseURL u = false.
Proof.
  intros Hp Hn. unfold refine_protocol, new_URL. rewrite Hp.
  destruct (list_includes allowed_protocols (protocol parsed)) eqn:E; [| done].
  by apply list_includes_In in E.
Qed.

Lemma refine_host_rejects_listed (u : string) (parsed : URL) :
  parseURL u = Some parsed -> In (toLowerCase (hostname parsed)) Route.named_hosts ->
  refine_host parseURL u = false.
Proof.
  intros Hp Hl. unfold refine_host, new_URL. rewrite Hp.
  assert (Hb : In (toLowerCase (hostname parsed)) blockedHostnames).
  { unfold Route.named_hosts in Hl. unfold blockedHostnames. cbn in *. tauto. }
  apply list_includes_In in Hb. by rewrite Hb.
Qed.

Lemma refine_host_rejects_private (u : string) (parsed : URL) (a b c d : Z) :
  parseURL u = Some parsed ->
  octet a -> octet b -> octet c -> octet d -> private_range a b ->
  toLowerCase (hostname parsed) = dotted_quad a b c d ->
  refine_host parseURL u = false.
Proof.
  intros Hp Ha Hb Hc Hd Hr Hh. unfold refine_host, new_URL. rewrite Hp, Hh.
  destruct (list_includes blockedHostnames (dotted_quad a b c d)); [done |].
  rewrite ipPattern_dotted_quad by done.
  rewrite !Number_of_octet by done.
  destruct Hr as [-> | [[-> Hb'] | [-> ->]]]; [done | | done].
  cbn. destruct (Z.leb_spec 16 b), (Z.leb_spec b 31); (done || lia).
Qed.

Lemma refinements_reject (v : string) :
  Route.forbidden_target parseURL v ->
  refine_protocol parseURL v && refine_host parseURL v = false.
Proof.
  intros (parsed & Hp & H).
  destruct H as [H | [H | (a & b & c & d & Ha & Hb & Hc & Hd & Hr & Hh)]].
  - by rewrite (refine_protocol_rejects _ _ Hp H).
  - rewrite (refine_host_rejects_listed _ _ Hp H). apply andb_false_r.
  - rewrite (refine_host_rejects_private _ _ _ _ _ _ Hp Ha Hb Hc Hd Hr Hh).
    apply andb_false_r.
Qed.

(** The text is refused when the format check refuses it, and when the
    value the check hands on is a forbidden target. *)
Lemma urlSchema_rejects (u : string) :
  (forall v, zod_url u = Some v -> Route.forbidden_target parseURL v) ->
  urlSchema parseURL zod_url (JString u) = None.
Proof.
  intros Hf. cbn [urlSchema]. destruct (zod_url u) as [v|]; [| done].
  by rewrite (refinements_reject v (Hf v eq_refl)).
Qed.

Lemma safeParse_rejects (b : Body) (u : string) :
  body_url b = JString u ->
  (forall v, zod_url u = Some v -> Route.forbidden_target parseURL v) ->
  safeParse parseURL zod_url (Some b) = None.
Proof.
  intros Hu Hf. unfold safeParse. cbn [mbind option_bind].
  by rewrite Hu, (urlSchema_rejects _ Hf).
Qed.

End WithPlatform.

End ValidatorsSpec.

(** ** The route *)

Module RouteSpec.
Import Validators Hash Config Cache RateLimiter ErrorHandler Browser Route Samples.

Example miss_then_stored :
  let out := serve_toy (request_of "https://example.com" healthy) idle in
  (exists data, out.1.2 = Json 201 "MISS" data) /\
  calls out.2 =
    [ CallRecordRequest "unknown";
      CallGetCache (generateCacheKey toy_digest
                      {| url := "https://example.com"; width := None; height := None;
                         fullPage := false; darkMode := false; blockAds := true;
                         device := desktop; waitFor := networkidle; timeout := 30000 |});
      CallCaptureScreenshot; CallSaveScreenshot "m1abc-0a1b2c3d";
      CallSetCache (generateCacheKey toy_digest
                      {| url := "https://example.com"; width := None; height := None;
                         fullPage := false; darkMode := false; blockAds := true;
                         device := desktop; waitFor := networkidle; timeout := 30000 |}) ].
Proof. split; [eexists |]; reflexivity. Qed.

Lemma new_calls (s : Server) (l : list Call) :
  drop (length (calls s)) (calls s ++ l) = l.
Proof. apply drop_app_length. Qed.

Lemma getCache_subseteq (c : Cache.Store) (now : Z) (k : string) :
  (getCache c now k).2 ⊆ c.
Proof.
  unfold getCache. destruct (c !! k) as [e|]; [| done].
  destruct (now >? expiresAt e); [apply delete_subseteq | done].
Qed.

Section WithPlatform.
Variable parseURL : string -> option URL.
Variable zod_url : string -> option string.
Variable issues_text : option Body -> string.
Variable sha256_hex : string -> string.
Variable cfg : Config.

Local Abbreviation validate := (validateScreenshotRequest parseURL zod_url issues_text).
Local Abbreviation post := (post_screenshot parseURL zod_url issues_text sha256_hex cfg).
Local Abbreviation app := (app_post_screenshot parseURL zod_url issues_text sha256_hex cfg).

Lemma post_invalid (rq : Request) (s : Server) (error : string) :
  validate (body rq) = Failure error ->
  post rq s = (Throw (AppError VALIDATION_ERROR error 400), s).
Proof. intros H. unfold post_screenshot. by rewrite H. Qed.

(** The handler writes the cache only with what a capture returned. *)
Lemma post_setCache (rq : Request) (s : Server) :
  existsb is_setCache (drop (length (calls s)) (calls (post rq s).2)) = true ->
  exists request buffer w',
    validate (body rq) = Success request /\
    captureScreenshot parseURL request (scripts rq) (world s) = (Return buffer, w').
Proof.
  unfold post_screenshot.
  destruct (validate (body rq)) as [request | error]; cbn [snd].
  2: { by rewrite drop_all. }
  destruct (getCache (cache s) (now_lookup rq) (generateCacheKey sha256_hex request))
    as [[cached|] cache'].
  { destruct (returnImage rq); [destruct (getScreenshot rq) as [[buffer|]|] |];
      cbn [snd calls logged with_cache]; by rewrite <- ?app_assoc, new_calls. }
  cbn [world logged with_cache].
  destruct (captureScreenshot parseURL request (scripts rq) (world s))
    as [[buffer|e] w'] eqn:Ec.
  2: { cbn [snd calls logged with_cache with_world]. rewrite <- app_assoc.
       by rewrite new_calls. }
  intros _. by exists request, buffer, w'.
Qed.

Lemma post_cache_subseteq (rq : Request) (s : Server) :
  existsb is_setCache (drop (length (calls s)) (calls (post rq s).2)) = false ->
  cache (post rq s).2 ⊆ cache s.
Proof.
  unfold post_screenshot.
  destruct (validate (body rq)) as [request | error]; cbn [snd]; [| done].
  pose proof (getCache_subseteq (cache s) (now_lookup rq)
                (generateCacheKey sha256_hex request)) as Hsub.
  destruct (getCache (cache s) (now_lookup rq) (generateCacheKey sha256_hex request))
    as [[cached|] cache']; cbn [snd] in Hsub.
  { by destruct (returnImage rq); [destruct (getScreenshot rq) as [[buffer|]|] |]. }
  cbn [world logged with_cache].
  destruct (captureScreenshot parseURL request (scripts rq) (world s))
    as [[buffer|e] w']; [| done].
  destruct (saveScreenshot rq); [| done].
  destruct (returnImage rq); cbn [snd calls logged with_cache with_world];
    rewrite <- !app_assoc, new_calls; done.
Qed.

End WithPlatform.

(** *** Payload validation *)

(** C6, as stated, fails on the kind of the error: an empty payload makes
    the attempt throw a plain [Error], which [captureScreenshot] rethrows
    and [app.onError] reports as [INTERNAL_ERROR] with status 500, not as
    the capture-failed kind [SCREENSHOT_FAILED] with status 502. (Nothing is
    cached, as the claim says.) *)
Lemma empty_payload_is_internal_error :
  let out := serve_toy (request_of "https://example.com" empty_payload) idle in
  (captureScreenshot toy_parser
     {| url := "https://example.com"; width := None; height := None;
        fullPage := false; darkMode := false; blockAds := true;
        device := desktop; waitFor := networkidle; timeout := 30000 |}
     (fun _ => empty_payload) (world idle)).1
    = Throw (JsError "Screenshot capture returned empty buffer") /\
  out.1.2 = Failed {| reply_body := {| error_code := INTERNAL_ERROR;
                                       error_message := "An unexpected error occurred";
                                       retryAfter := None |};
                      reply_status := 500 |} /\
  out.1.2 <> Failed {| reply_body := {| error_code := SCREENSHOT_FAILED;
                                        error_message := "Screenshot capture returned empty buffer";
                                        retryAfter := None |};
                       reply_status := 502 |} /\
  cache out.2 = ∅.
Proof. repeat split; try reflexivity. intros H. discriminate H. Qed.

(** C6, amended. An attempt returns a payload only if [page.screenshot]
    produced it and it begins with the eight bytes of the PNG signature (so
    it is not empty); when the attempt gets as far as [page.screenshot] and
    the payload is missing, empty or does not begin with the signature, the
    attempt throws the plain error "Screenshot capture returned empty
    buffer" or "Screenshot capture returned invalid PNG data". Neither text
    is retried, and [app.onError] reports both as [INTERNAL_ERROR] with
    status 500 and the generic message. The handler writes the cache only
    after [captureScreenshot] returned a buffer, which then begins with the
    signature; when every attempt can only get an unusable payload, no
    cache entry is written and the cache holds nothing it did not hold
    before. *)
Theorem invalid_payload_never_cached (parseURL : string -> option URL)
    (zod_url : string -> option string) (issues_text : option Body -> string)
    (sha256_hex : string -> string) (cfg : Config) :
  (forall options sc w,
     let out := captureScreenshotOnce parseURL options sc w in
     (forall b, out.1 = Return b ->
                screenshot sc = Return (Some b) /\ exists rest, b = pngSignature ++ rest) /\
     (forall p, existsb is_screenshot (new_events w out.2) = true ->
                screenshot sc = Return p -> bad_payload p ->
                out.1 = Throw (JsError empty_buffer_message) \/
                out.1 = Throw (JsError invalid_png_message))) /\
  (forall m, m = empty_buffer_message \/ m = invalid_png_message ->
             retryable m = false /\ onError (JsError m) = default_reply) /\
  (forall rq s,
     let out := post_screenshot parseURL zod_url issues_text sha256_hex cfg rq s in
     let written := existsb is_setCache (drop (length (calls s)) (calls out.2)) in
     (written = true ->
        exists request buffer w' rest,
          validateScreenshotRequest parseURL zod_url issues_text (body rq) = Success request /\
          captureScreenshot parseURL request (scripts rq) (world s) = (Return buffer, w') /\
          buffer = pngSignature ++ rest) /\
     (written = false -> cache out.2 ⊆ cache s) /\
     ((forall n p, screenshot (scripts rq n) = Return p -> bad_payload p) ->
        written = false)).
Proof.
  split; [| split].
  - intros options sc w out. split.
    + intros b Hb. apply BrowserSpec.once_Return in Hb as (Hs & _ & Hv).
      split; [done | by apply BrowserSpec.isValidPng_prefix].
    + intros p Hreach Hp Hbad.
      destruct (BrowserSpec.once_result parseURL options sc w) as [Hy _].
      fold out in Hy. rewrite (Hy Hreach). unfold payload_result. rewrite Hp.
      by apply BrowserSpec.validate_buffer_bad.
  - by intros m [-> | ->].
  - intros rq s out written.
    assert (Hw : written = true ->
              exists request buffer w' rest,
                validateScreenshotRequest parseURL zod_url issues_text (body rq)
                  = Success request /\
                captureScreenshot parseURL request (scripts rq) (world s)
                  = (Return buffer, w') /\
                buffer = pngSignature ++ rest).
    { intros H. apply post_setCache in H as (request & buffer & w' & Hv & Hc).
      pose proof (BrowserSpec.captureScreenshot_Return parseURL request (scripts rq)
                    (world s) buffer) as Hb.
      rewrite Hc in Hb. destruct (Hb eq_refl) as (_ & Hpng & _).
      apply BrowserSpec.isValidPng_prefix in Hpng as [rest ->].
      by exists request, (pngSignature ++ rest), w', rest. }
    split; [done |]. split; [apply post_cache_subseteq |].
    intros Hbad. destruct written eqn:E; [| done].
    destruct (Hw eq_refl) as (request & buffer & w' & rest & _ & Hc & ->).
    pose proof (BrowserSpec.captureScreenshot_Return parseURL request (scripts rq)
                  (world s) (pngSignature ++ rest)) as Hb.
    rewrite Hc in Hb. destruct (Hb eq_refl) as (_ & _ & m & _ & Hm).
    apply Hbad in Hm. cbn in Hm. by destruct Hm.
Qed.

Lemma invalid_payload_never_cached_witness :
  onError (JsError invalid_png_message) = default_reply /\
  existsb is_setCache
    (drop (length (calls idle))
       (calls (post_screenshot toy_parser toy_zod (fun _ => "url: Invalid URL format")
                 toy_digest defaults
                 (request_of "https://example.com" empty_payload) idle).2)) = false.
Proof.
  pose proof (invalid_payload_never_cached toy_parser toy_zod
                (fun _ => "url: Invalid URL format") toy_digest defaults)
    as (_ & Hm & Hs).
  split.
  - apply Hm. by right.
  - apply (Hs (request_of "https://example.com" empty_payload) idle).
    intros n p [= <-]. by left.
Defined.

(** *** The guard on the target URL *)

Example file_scheme_refused :
  (serve_toy (request_of "file:///etc/passwd" healthy) idle).1.2
  = Failed {| reply_body := {| error_code := VALIDATION_ERROR;
                               error_message := "url: Internal/private URLs are not allowed";
                               retryAfter := None |};
              reply_status := 400 |}.
Proof. reflexivity. Qed.

(** C9, as stated, fails on the rate limit: the middleware runs before the
    handler, so a request for [http://localhost/admin] is refused by
    validation with status 400, without capture or cache write, but its
    instant has been recorded in the rate-limit store of the client. *)
Lemma refused_request_is_recorded :
  let rq := request_of "http://localhost/admin" healthy in
  let out := serve_toy rq idle in
  forbidden_target toy_parser "http://localhost/admin" /\
  out.1.2 = Failed {| reply_body := {| error_code := VALIDATION_ERROR;
                                       error_message := "url: Internal/private URLs are not allowed";
                                       retryAfter := None |};
                      reply_status := 400 |} /\
  rateLimitStore idle !! "unknown" = None /\
  rateLimitStore out.2 !! "unknown" = Some [now_record rq] /\
  calls out.2 = [CallRecordRequest "unknown"].
Proof.
  split.
  - eexists. split; [reflexivity |]. right. left. cbn. tauto.
  - repeat split; reflexivity.
Qed.

(** The entry "::1" of [blockedHostnames] meets no parsed host. For
    [http://[::1]/] the parser answers the host "[::1]", with its brackets;
    the comparison with "::1" fails, the text is no dotted quad, and the
    request is validated and captured. *)
Example ipv6_loopback_is_captured :
  let out := serve_toy (request_of "http://[::1]/" healthy) idle in
  refine_host toy_parser "http://[::1]/" = true /\
  (exists data, out.1.2 = Json 201 "MISS" data) /\
  In CallCaptureScreenshot (calls out.2).
Proof.
  split; [reflexivity |]. split; [eexists; reflexivity |].
  vm_compute. right. right. by left.
Qed.

(** C9, amended. Take the URL of the request as the url check of zod
    hands it on to the refinements. When its scheme is other than http and
    https, or its host (lower-cased) is localhost, 127.0.0.1, 0.0.0.0,
    metadata.google.internal or 169.254.169.254, or a dotted quad in
    10.0.0.0/8, 172.16.0.0/12 or 192.168.0.0/16 (and likewise when the url
    check refuses the text): validation fails, the handler throws the
    validation error (status 400) and changes nothing, so that no capture
    and no cache write occur for the request. The rate limiter runs before
    the handler: when it lets the request through, the response is that
    validation error and the only effect is that the request is recorded in
    the rate-limit store; when it refuses the request, the response is the
    429 reply and nothing changes. *)
Theorem ssrf_guard (parseURL : string -> option URL)
    (zod_url : string -> option string) (issues_text : option Body -> string)
    (sha256_hex : string -> string) (cfg : Config)
    (rq : Request) (s : Server) (b : Body) (u : string) :
  body rq = Some b -> body_url b = JString u ->
  (forall v, zod_url u = Some v -> forbidden_target parseURL v) ->
  let ip := getClientIp (headers rq) in
  let check := checkRateLimit cfg (rateLimitStore s) (now_check rq) ip in
  let out := app_post_screenshot parseURL zod_url issues_text sha256_hex cfg rq s in
  exists error,
    validateScreenshotRequest parseURL zod_url issues_text (body rq) = Failure error /\
    post_screenshot parseURL zod_url issues_text sha256_hex cfg rq s =
      (Throw (AppError VALIDATION_ERROR error 400), s) /\
    cache out.2 = cache s /\ world out.2 = world s /\
    (allowed check = true ->
       out.1.2 = Failed {| reply_body := {| error_code := VALIDATION_ERROR;
                                            error_message := error;
                                            retryAfter := None |};
                           reply_status := 400 |} /\
       rateLimitStore out.2 = recordRequest cfg (rateLimitStore s) (now_record rq) ip /\
       calls out.2 = calls s ++ [CallRecordRequest ip]) /\
    (allowed check = false ->
       out.1.2 = Failed (rate_limit_reply cfg check) /\ out.2 = s).
Proof.
  intros Hb Hu Hf ip check out.
  assert (Hv : exists error,
             validateScreenshotRequest parseURL zod_url issues_text (body rq)
             = Failure error).
  { unfold validateScreenshotRequest. rewrite Hb.
    rewrite (ValidatorsSpec.safeParse_rejects parseURL zod_url b u Hu Hf). by eexists. }
  destruct Hv as [error Hv]. exists error.
  split; [done |]. split; [by apply post_invalid |].
  unfold out, app_post_screenshot, rateLimiter. fold ip. fold check.
  destruct (allowed check); cbn [fst snd].
  - rewrite (post_invalid parseURL zod_url issues_text sha256_hex cfg rq _ error Hv).
    cbn [fst snd]. repeat split; done.
  - repeat split; done.
Qed.

(** The text arrives with a space in front, which the url check removes
    before the refinements read the host. *)
Lemma ssrf_guard_witness :
  let rq := request_of " http://192.168.1.1/" healthy in
  toy_zod " http://192.168.1.1/" = Some "http://192.168.1.1/" /\
  exists error,
    post_screenshot toy_parser toy_zod (fun _ => "url: blocked") toy_digest defaults
      rq idle = (Throw (AppError VALIDATION_ERROR error 400), idle).
Proof.
  cbv zeta. split; [reflexivity |].
  assert (Hf : forall v, toy_zod " http://192.168.1.1/" = Some v ->
                         forbidden_target toy_parser v).
  { intros v [= <-]. eexists. split; [reflexivity |]. right. right.
    exists 192, 168, 1, 1. unfold octet, private_range. repeat split; lia. }
  destruct (ssrf_guard toy_parser toy_zod (fun _ => "url: blocked") toy_digest
              defaults (request_of " http://192.168.1.1/" healthy) idle
              (body_of " http://192.168.1.1/") " http://192.168.1.1/" eq_refl eq_refl Hf)
    as (error & _ & H & _).
  by exists error.
Defined.

End RouteSpec.

(** ** The launch lock *)

Module BrowserLockSpec.
Import BrowserLock.

Lemma init_inv : lock_inv init.
Proof.
  split; [done |]. intros q [[x H] | [x H]]; cbn in H; by rewrite lookup_empty in H.
Qed.

Lemma lookup_singleton_phase (p q : nat) (ph ph' : Phase) :
  ({[p := ph]} : gmap nat Phase) !! q = Some ph' -> q = p /\ ph' = ph.
Proof. intros H. apply lookup_singleton_Some in H as [-> ->]. done. Qed.

Lemma step_inv (s : State) (e : Step) : lock_inv s -> lock_inv (step s e).
Proof.
  destruct s as [b l cn ts st pr la ha re]. unfold lock_inv. cbn [browserLock tasks settled promises].
  intros [Hl Hf]. destruct e as [c | p | p | p err | h |]; cbn [step].
  - (* Call *)
    unfold call, answer. cbn [browser browserLock connected tasks settled promises
                                launched handles returned].
    assert (Hfresh : st !! pr = None).
    { destruct (st !! pr) eqn:E; [| done].
      assert (pr < pr)%nat by (apply Hf; right; by eexists). lia. }
    destruct b as [h|]; [destruct (bool_decide (h ∈ cn)) |]; destruct l as [p|];
      cbn [browserLock tasks settled promises]; try (split; [done | done]).
    + subst ts. split; [split; [eexists; apply insert_empty | done] |].
      intros q [[x H] | H].
      * apply lookup_insert_Some in H as [[<- _] | [_ H]]; [lia |].
        by rewrite lookup_empty in H.
      * specialize (Hf q (or_intror H)). lia.
    + subst ts. split; [split; [eexists; apply insert_empty | done] |].
      intros q [[x H] | H].
      * apply lookup_insert_Some in H as [[<- _] | [_ H]]; [lia |].
        by rewrite lookup_empty in H.
      * specialize (Hf q (or_intror H)). lia.
  - (* CloseSettles *)
    unfold close_settles. cbn [tasks].
    destruct (ts !! p) as [[|]|] eqn:E; cbn [browserLock tasks settled promises];
      try (split; [done | done]).
    destruct l as [q|]; [| subst ts; by rewrite lookup_empty in E].
    destruct Hl as [[ph ->] Hs]. apply lookup_singleton_phase in E as [-> <-].
    split; [split; [eexists; apply insert_singleton_eq | done] |].
    intros q' [[x H] | H].
    + apply Hf. left. apply lookup_insert_Some in H as [[<- _] | [_ H]]; [| by eexists].
      exists Closing. apply lookup_singleton_eq.
    + apply Hf. by right.
  - (* LaunchResolves *)
    unfold launch_resolves. cbn [tasks].
    destruct (ts !! p) as [[|]|] eqn:E; cbn [browserLock tasks settled promises];
      try (split; [done | done]).
    destruct l as [q|]; [| subst ts; by rewrite lookup_empty in E].
    destruct Hl as [[ph ->] Hs]. apply lookup_singleton_phase in E as [-> <-].
    split; [apply delete_singleton_eq |].
    intros q' [[x H] | [x H]].
    + rewrite delete_singleton_eq, lookup_empty in H. done.
    + apply lookup_insert_Some in H as [[<- _] | [_ H]].
      * apply Hf. left. exists Launching. apply lookup_singleton_eq.
      * apply Hf. right. by eexists.
  - (* LaunchRejects *)
    unfold launch_rejects. cbn [tasks].
    destruct (ts !! p) as [[|]|] eqn:E; cbn [browserLock tasks settled promises];
      try (split; [done | done]).
    destruct l as [q|]; [| subst ts; by rewrite lookup_empty in E].
    destruct Hl as [[ph ->] Hs]. apply lookup_singleton_phase in E as [-> <-].
    split; [apply delete_singleton_eq |].
    intros q' [[x H] | [x H]].
    + rewrite delete_singleton_eq, lookup_empty in H. done.
    + apply lookup_insert_Some in H as [[<- _] | [_ H]].
      * apply Hf. left. exists Launching. apply lookup_singleton_eq.
      * apply Hf. right. by eexists.
  - done.
  - done.
Qed.

Lemma run_inv (steps : list Step) (s : State) : lock_inv s -> lock_inv (run s steps).
Proof.
  revert s. induction steps as [|e steps IH]; intros s Hs; [done |].
  apply IH, step_inv, Hs.
Qed.

Lemma in_flight_le (s : State) : lock_inv s -> (in_flight s <= 1)%nat.
Proof.
  intros [Hl _]. unfold in_flight.
  etransitivity; [apply map_subseteq_size, map_filter_subseteq |].
  destruct (browserLock s) as [p|].
  - destruct Hl as [[ph ->] _]. rewrite map_size_singleton. lia.
  - rewrite Hl, map_size_empty. lia.
Qed.

Lemma call_locked (s : State) (p c : nat) :
  browserLock s = Some p -> live s = false -> call c s = answer c (Later p) s.
Proof.
  unfold call, live. intros Hl Hv. rewrite Hl.
  destruct (browser s) as [h|]; [by rewrite Hv | done].
Qed.

Lemma calls_locked (cs : list nat) (s : State) (p : nat) :
  browserLock s = Some p -> live s = false ->
  run s (map Call cs) = answer_all p cs s.
Proof.
  revert s. induction cs as [|c cs IH]; intros s Hl Hv.
  - destruct s. unfold answer_all. cbn. by rewrite app_nil_r.
  - cbn [map run foldl step]. rewrite (call_locked s p c Hl Hv).
    change (foldl step ?x ?l) with (run x l). rewrite IH by done.
    destruct s. unfold answer_all, answer. cbn. by rewrite <- app_assoc.
Qed.

(** The first of a burst of callers starts the attempt; the state after
    the whole burst. *)
Lemma burst_state (c : nat) (cs : list nat) (s : State) :
  lock_inv s -> live s = false -> browserLock s = None ->
  run s (map Call (c :: cs)) =
  {| browser := browser s; browserLock := Some (promises s); connected := connected s;
     tasks := {[ promises s := match browser s with Some _ => Closing | None => Launching end ]};
     settled := settled s; promises := S (promises s);
     launched := match browser s with Some _ => launched s | None => S (launched s) end;
     handles := handles s;
     returned := returned s ++ map (fun c => (c, Later (promises s))) (c :: cs) |}.
Proof.
  intros [Hl _] Hv Hn. rewrite Hn in Hl.
  cbn [map run foldl step]. change (foldl step ?x ?l) with (run x l).
  rewrite (calls_locked cs (call c s) (promises s)).
  - unfold call, live in *. rewrite Hn, Hl.
    destruct s as [b l cn ts st pr la ha re]. cbn in *.
    destruct b as [h|]; [rewrite Hv |]; unfold answer_all, answer; cbn;
      rewrite <- app_assoc, insert_empty; reflexivity.
  - unfold call, live in *. rewrite Hn.
    destruct (browser s) as [h|]; [rewrite Hv |]; reflexivity.
  - unfold call, live in *. rewrite Hn.
    destruct (browser s) as [h|] eqn:Hb; [rewrite Hv |]; cbn; [by rewrite Hv | done].
Qed.

Example three_callers_one_launch :
  let s := run init [Call 1; Call 2; Call 3; LaunchResolves 0] in
  launched s = 1%nat /\
  returned s = [(1%nat, Later 0); (2%nat, Later 0); (3%nat, Later 0)] /\
  outcome s (Later 0) = Some (Fulfilled 0) /\
  browser s = Some 0%nat /\ browserLock s = None.
Proof. repeat split; reflexivity. Qed.

Example stale_handle_is_closed_first :
  let s := run init [Call 1; LaunchResolves 0; Disconnects 0; Call 2; Call 3] in
  launched s = 1%nat /\ in_flight s = 0%nat /\ tasks s = {[ 1%nat := Closing ]} /\
  launched (run s [CloseSettles 1]) = 2%nat /\ in_flight (run s [CloseSettles 1]) = 1%nat.
Proof. repeat split; reflexivity. Qed.

Lemma fresh_promise (s : State) (q : nat) :
  lock_inv s -> (promises s <= q)%nat -> settled s !! q = None /\ tasks s !! q = None.
Proof.
  intros [_ Hf] Hq. split.
  - destruct (settled s !! q) eqn:E; [| done].
    assert (q < promises s)%nat by (apply Hf; right; by eexists). lia.
  - destruct (tasks s !! q) eqn:E; [| done].
    assert (q < promises s)%nat by (apply Hf; left; by eexists). lia.
Qed.

(** A promise settles once. *)
Lemma settled_stable (s : State) (e : Step) (p : nat) (o : Settled) :
  lock_inv s -> settled s !! p = Some o -> settled (step s e) !! p = Some o.
Proof.
  intros [Hl _] Hp.
  assert (Hq : forall q, tasks s !! q = Some Launching -> q <> p).
  { intros q Hq ->. destruct (browserLock s) as [q'|].
    - destruct Hl as [[ph Ht] Hs]. rewrite Ht in Hq.
      apply lookup_singleton_phase in Hq as [-> _]. congruence.
    - rewrite Hl, lookup_empty in Hq. done. }
  destruct e as [c | q | q | q err | h |]; cbn [step]; try done.
  - unfold call, answer.
    destruct (browser s) as [h|]; [destruct (bool_decide (h ∈ connected s)) |];
      destruct (browserLock s); done.
  - unfold close_settles. by destruct (tasks s !! q) as [[|]|].
  - unfold launch_resolves. destruct (tasks s !! q) as [[|]|] eqn:E; try done.
    cbn [settled]. rewrite lookup_insert_ne; [done | by apply Hq].
  - unfold launch_rejects. destruct (tasks s !! q) as [[|]|] eqn:E; try done.
    cbn [settled]. rewrite lookup_insert_ne; [done | by apply Hq].
Qed.

Ltac run_steps :=
  repeat progress
    (unfold to_launch_end, run, close_settles, launch_resolves, launch_rejects, call,
       answer, live, outcome;
     cbn [foldl step browser browserLock connected tasks settled promises
          launched handles returned];
     rewrite ?lookup_singleton_eq, ?lookup_insert_eq).

(** C5. In every state the service can reach, at most one launch is in
    flight, and [browserLock] is set exactly while a body of the launch
    function is suspended. A caller that finds no live browser while the
    lock is set gets the promise in the lock, and nothing is started; what
    a caller was handed keeps its outcome once it has one. When
    callers [c :: cs] arrive with no live browser and no attempt in flight,
    the first starts one attempt and all of them get its promise; until it
    settles at most one launch has been started, and at the end of the
    attempt exactly one: if it resolves, every caller receives the same new
    handle, which becomes the live browser; if it is rejected, every caller
    receives the same failure, the lock is released with no browser, and the
    next call starts a fresh attempt with a new promise and a new launch. *)
Theorem single_flight_launch (steps : list Step) :
  let s := run init steps in
  (in_flight s <= 1)%nat /\
  (browserLock s = None <-> tasks s = ∅) /\
  (forall p c, browserLock s = Some p -> live s = false ->
     step s (Call c) = answer c (Later p) s) /\
  (forall e a o, outcome s a = Some o -> outcome (step s e) a = Some o) /\
  (forall c cs,
     live s = false -> browserLock s = None ->
     let p := promises s in
     let s1 := run s (map Call (c :: cs)) in
     returned s1 = returned s ++ map (fun c => (c, Later p)) (c :: cs) /\
     browserLock s1 = Some p /\ settled s1 !! p = None /\
     (launched s1 <= S (launched s))%nat /\ (in_flight s1 <= 1)%nat /\
     (let s2 := run s1 (to_launch_end (browser s) p (LaunchResolves p)) in
      launched s2 = S (launched s) /\ returned s2 = returned s1 /\
      outcome s2 (Later p) = Some (Fulfilled (handles s)) /\
      browser s2 = Some (handles s) /\ live s2 = true /\ browserLock s2 = None) /\
     (forall e c',
        let s3 := run s1 (to_launch_end (browser s) p (LaunchRejects p e)) in
        launched s3 = S (launched s) /\ returned s3 = returned s1 /\
        outcome s3 (Later p) = Some (Rejected e) /\
        browser s3 = None /\ browserLock s3 = None /\
        let s4 := step s3 (Call c') in
        returned s4 = returned s3 ++ [(c', Later (S p))] /\
        browserLock s4 = Some (S p) /\ launched s4 = S (S (launched s)) /\
        settled s4 !! S p = None)).
Proof.
  intros s. pose proof (run_inv steps init init_inv) as Hinv. fold s in Hinv.
  clearbody s.
  split; [by apply in_flight_le |]. split; [| split; [| split]].
  - destruct Hinv as [Hl _]. destruct (browserLock s) as [p|].
    + destruct Hl as [[ph ->] _]. split; [done |]. intros H.
      apply (f_equal (fun m : gmap nat Phase => m !! p)) in H.
      by rewrite lookup_singleton_eq, lookup_empty in H.
    + by split.
  - intros p c. apply call_locked.
  - intros e [h | p] o; cbn [outcome]; [done | by apply settled_stable].
  - intros c cs Hv Hn p s1.
    pose proof (burst_state c cs s Hinv Hv Hn) as Hs1. fold s1 in Hs1.
    pose proof (run_inv (map Call (c :: cs)) s Hinv) as Hinv1. fold s1 in Hinv1.
    destruct (fresh_promise s p Hinv (le_n _)) as [Hsp _].
    destruct (fresh_promise s (S p) Hinv ltac:(unfold p; lia)) as [Hssp _].
    clearbody s1. subst s1. subst p.
    destruct s as [b l cn ts st pr la ha re]. cbn in Hv, Hn, Hsp, Hssp. subst l.
    cbn [browser browserLock connected tasks settled promises launched handles returned].
    split; [done |]. split; [done |]. split; [done |].
    split; [destruct b; lia |]. split; [by apply in_flight_le |]. split.
    + destruct b as [h|]; run_steps;
        (repeat split; try done; apply bool_decide_eq_true; set_solver).
    + intros e c'.
      destruct b as [h|]; run_steps; repeat split; try done;
        rewrite lookup_insert_ne by lia; done.
Qed.

Lemma single_flight_launch_witness :
  let s1 := run init (map Call [1; 2; 3]%nat) in
  returned s1 = [(1%nat, Later 0); (2%nat, Later 0); (3%nat, Later 0)] /\
  outcome (run s1 [LaunchResolves 0]) (Later 0) = Some (Fulfilled 0) /\
  launched (run s1 [LaunchResolves 0]) = 1%nat.
Proof.
  destruct (single_flight_launch []) as (_ & _ & _ & _ & H).
  destruct (H 1%nat [2; 3]%nat eq_refl eq_refl) as (Hr & _ & _ & _ & _ & Hok & _).
  destruct Hok as (Hl & _ & Ho & _).
  split; [exact Hr |]. split; [exact Ho | exact Hl].
Defined.

End BrowserLockSpec.

(** ** The cache: eviction, deletion, statistics *)

Module CacheLaws.
Import Config Cache Samples.

Lemma getCache_result (cache : Store) (now : Z) (k : string) :
  (getCache cache now k).1 =
    match cache !! k with
    | Some e => if now >? expiresAt e then None else Some (data e)
    | None => None
    end.
Proof. unfold getCache. destruct (cache !! k) as [e|]; [by destruct (now >? _) | done]. Qed.

Lemma getCache_store (cache : Store) (now : Z) (k k' : string) :
  (getCache cache now k).2 !! k' =
    match cache !! k' with
    | Some e => if bool_decide (k = k') && (now >? expiresAt e) then None else Some e
    | None => None
    end.
Proof.
  unfold getCache. destruct (decide (k = k')) as [<- | Hne].
  - rewrite bool_decide_eq_true_2 by done.
    destruct (cache !! k) as [e|] eqn:He; cbn [snd andb].
    + destruct (now >? expiresAt e); cbn [snd]; [apply lookup_delete_eq | done].
    + done.
  - rewrite bool_decide_eq_false_2 by done. cbn [andb].
    destruct (cache !! k) as [e|] eqn:He; cbn [snd].
    + destruct (now >? expiresAt e); cbn [snd].
      * rewrite lookup_delete_ne by done. by destruct (cache !! k').
      * by destruct (cache !! k').
    + by destruct (cache !! k').
Qed.

Lemma sweep_lookup_match (cache : Store) (now : Z) (k : string) :
  sweep cache now !! k =
    match cache !! k with
    | Some e => if now >? expiresAt e then None else Some e
    | None => None
    end.
Proof.
  unfold sweep. destruct (cache !! k) as [e|] eqn:He.
  - destruct (Z.gtb_spec now (expiresAt e)).
    + apply map_lookup_filter_None. right. intros e' He'. simpl.
      rewrite He in He'. injection He' as <-. lia.
    + apply map_lookup_filter_Some. split; [done |]. simpl. lia.
  - apply map_lookup_filter_None. by left.
Qed.

Lemma sweep_size (cache : Store) (now : Z) : (size (sweep cache now) <= size cache)%nat.
Proof. apply map_subseteq_size, map_filter_subseteq. Qed.

Lemma sweep_sweep (cache : Store) (now now' : Z) :
  now <= now' -> sweep (sweep cache now) now' = sweep cache now'.
Proof.
  intros Hle. apply map_eq. intros k. rewrite !sweep_lookup_match.
  destruct (cache !! k) as [e|]; [| done].
  destruct (Z.gtb_spec now (expiresAt e)), (Z.gtb_spec now' (expiresAt e));
    try done; try lia.
Qed.

Lemma expired_sweep_size (cache : Store) (now : Z) :
  (size (filter (fun kv => (now > expiresAt kv.2)%Z) cache) + size (sweep cache now)
   = size cache)%nat.
Proof.
  unfold sweep.
  rewrite <- (map_size_disj_union (filter _ cache) (filter _ cache)).
  - f_equal. apply map_filter_union_complement.
  - apply map_disjoint_filter_complement.
Qed.

(** X1. What the two sweeps do at an instant [now]. The entries
    [cleanupExpiredCache] keeps are exactly the stored entries with
    [now <= expiresAt], unchanged; the number it returns is the number of
    stored entries with [now > expiresAt]. [getCacheStats] leaves the same
    store and reports as size the number of entries kept, which is the
    length of its list of keys, a list without duplicates; the two numbers
    add up to the number of entries stored before. A second
    [cleanupExpiredCache] at the same instant removes nothing and
    returns 0. *)
Theorem cleanupExpiredCache_exact (cache : Store) (now : Z) :
  let '(cleaned, cache') := cleanupExpiredCache cache now in
  let '(stats, cache'') := getCacheStats cache now in
  (forall k e, cache' !! k = Some e <-> cache !! k = Some e /\ now <= expiresAt e) /\
  cleaned = size (filter (fun kv => now > expiresAt kv.2) cache) /\
  cache'' = cache' /\
  stats_size stats = size cache' /\
  stats_size stats = length (stats_keys stats) /\
  NoDup (stats_keys stats) /\
  (cleaned + stats_size stats = size cache)%nat /\
  cleanupExpiredCache cache' now = (0%nat, cache').
Proof.
  unfold cleanupExpiredCache, getCacheStats. cbn [fst stats_size stats_keys].
  pose proof (expired_sweep_size cache now) as Hsz.
  split; [| split; [| split; [| split; [| split; [| split; [| split]]]]]].
  - intros k e. rewrite sweep_lookup_match.
    destruct (cache !! k) as [e'|]; [| by split; [| intros [? _]]].
    destruct (Z.gtb_spec now (expiresAt e')).
    + split; [done | intros [[= ->] ?]; lia].
    + split; [intros [= ->]; split; [done | lia] | by intros [? _]].
  - lia.
  - done.
  - done.
  - by rewrite length_fmap, length_map_to_list.
  - apply NoDup_fst_map_to_list.
  - lia.
  - rewrite sweep_sweep by lia. f_equal. lia.
Qed.

(** X2. Eviction cannot be observed. Whatever removes expired entries at
    an instant [now] (the lazy deletion of [getCache] and [hasCache] for
    any key, the sweeps of [getCacheStats] and [cleanupExpiredCache]), a
    [getCache] at an instant [now' >= now] returns for every key what it
    would have returned on the store as it was. A [getCache] that returns
    data leaves the store as it is, so a hit does not extend the life of
    the entry. *)
Theorem eviction_unobservable (cache : Store) (now now' : Z) (k k' : string) :
  now <= now' ->
  (getCache (getCache cache now k).2 now' k').1 = (getCache cache now' k').1 /\
  (getCache (hasCache cache now k).2 now' k').1 = (getCache cache now' k').1 /\
  (getCache (getCacheStats cache now).2 now' k').1 = (getCache cache now' k').1 /\
  (getCache (cleanupExpiredCache cache now).2 now' k').1 = (getCache cache now' k').1 /\
  (forall a, (getCache cache now k).1 = Some a -> (getCache cache now k).2 = cache).
Proof.
  intros Hle.
  assert (Hget : (getCache (getCache cache now k).2 now' k').1 = (getCache cache now' k').1).
  { rewrite !getCache_result, getCache_store.
    destruct (cache !! k') as [e|]; [| done].
    destruct (bool_decide (k = k')); cbn [andb]; [| done].
    destruct (Z.gtb_spec now (expiresAt e)); [| done].
    by destruct (Z.gtb_spec now' (expiresAt e)); [| lia]. }
  assert (Hsweep : (getCache (sweep cache now) now' k').1 = (getCache cache now' k').1).
  { rewrite !getCache_result, sweep_lookup_match.
    destruct (cache !! k') as [e|]; [| done].
    destruct (Z.gtb_spec now (expiresAt e)); [| done].
    by destruct (Z.gtb_spec now' (expiresAt e)); [| lia]. }
  split; [done |]. split; [| split; [done | split; [done |]]].
  - unfold hasCache. by destruct (getCache cache now k) as [r c'].
  - intros a. unfold getCache. destruct (cache !! k) as [e|]; [| done].
    by destruct (now >? expiresAt e).
Qed.

(** Two entries, written at 0 and at 5000 with a time to live of one
    hour. At 3600001 the first is past its expiry and the second is not:
    the sweep removes one entry, and so does a [getCache] of the first key.
    Reads at 3600002 answer the same with and without these evictions:
    nothing for the first key, the data for the second. *)
Lemma eviction_unobservable_witness :
  let cache := setCache defaults (setCache defaults ∅ 0 "k" sample) 5000 "j" sample in
  (cleanupExpiredCache cache 3600001).1 = 1%nat /\
  (cleanupExpiredCache cache 3600001).2 !! "k" = None /\
  (getCache cache 3600001 "k").2 !! "k" = None /\
  cache !! "k" <> None /\
  (getCache (cleanupExpiredCache cache 3600001).2 3600002 "k").1
    = (getCache cache 3600002 "k").1 /\
  (getCache (cleanupExpiredCache cache 3600001).2 3600002 "j").1
    = (getCache cache 3600002 "j").1 /\
  (getCache (getCache cache 3600001 "k").2 3600002 "j").1
    = (getCache cache 3600002 "j").1 /\
  (getCache cache 3600002 "j").1 = Some sample /\
  (getCache cache 3600002 "k").1 = None.
Proof.
  cbv zeta.
  assert (H : 3600001 <= 3600002) by lia.
  destruct (eviction_unobservable
              (setCache defaults (setCache defaults ∅ 0 "k" sample) 5000 "j" sample)
              3600001 3600002 "k" "k" H) as (_ & _ & _ & Hkk & _).
  destruct (eviction_unobservable
              (setCache defaults (setCache defaults ∅ 0 "k" sample) 5000 "j" sample)
              3600001 3600002 "k" "j" H) as (Hgj & _ & _ & Hkj & _).
  split; [vm_compute; reflexivity |]. split; [vm_compute; reflexivity |].
  split; [vm_compute; reflexivity |]. split; [vm_compute; discriminate |].
  split; [exact Hkk |]. split; [exact Hkj |]. split; [exact Hgj |].
  split; vm_compute; reflexivity.
Defined.

(** X3. [setCache] replaces without condition and [deleteCache] reports
    what was stored, not what is live. A second [setCache] for a key wins
    over the first in data and in expiry, whichever was later; writing a key
    changes no other key's answer. [deleteCache] returns true exactly when
    the key was stored, also when its entry is already past expiry and
    [hasCache] answers false; afterwards the key is absent at every instant,
    every other key answers as before, and a second [deleteCache] returns
    false. *)
Theorem write_and_delete (cfg : Config) (cache : Store) (k k' : string)
    (a1 a2 : ScreenshotMetadata) (t1 t2 now : Z) :
  setCache cfg (setCache cfg cache t1 k a1) t2 k a2 = setCache cfg cache t2 k a2 /\
  (k <> k' -> (getCache (setCache cfg cache t1 k a1) now k').1 = (getCache cache now k').1) /\
  ((deleteCache cache k).1 = true <-> is_Some (cache !! k)) /\
  ((hasCache cache now k).1 = true -> (deleteCache cache k).1 = true) /\
  (getCache (deleteCache cache k).2 now k).1 = None /\
  (k <> k' -> (getCache (deleteCache cache k).2 now k').1 = (getCache cache now k').1) /\
  (deleteCache (deleteCache cache k).2 k).1 = false.
Proof.
  unfold deleteCache. cbn [fst snd].
  split; [apply insert_insert_eq |].
  split; [intros Hne; rewrite !getCache_result; unfold setCache;
          by rewrite lookup_insert_ne |].
  split; [apply bool_decide_eq_true |].
  split.
  { unfold hasCache. pose proof (getCache_result cache now k) as Hr.
    destruct (getCache cache now k) as [r c']. cbn [fst] in *.
    rewrite !bool_decide_eq_true. intros Hs. rewrite Hr in Hs.
    destruct (cache !! k); [done | by destruct Hs]. }
  split; [by rewrite getCache_result, lookup_delete_eq |].
  split; [intros Hne; by rewrite !getCache_result, lookup_delete_ne |].
  rewrite lookup_delete_eq. apply bool_decide_eq_false_2. by intros [? ?].
Qed.

(** A store that holds "j" and "k". Writing "k" again, with other data
    and at a later instant, replaces the entry; "j" answers as before the
    writes; "k" is reported deleted, is absent afterwards while "j" still
    answers, and is not reported a second time. *)
Lemma write_and_delete_witness :
  let other :=
    {| id := "m1abd-99887766"; meta_url := "https://example.com";
       meta_width := 1920; meta_height := 1080; meta_fullPage := true;
       fileSize := 8192; capturedAt := 10; meta_expiresAt := 3600010 |} in
  let held := setCache defaults ∅ 0 "j" sample in
  let cache := setCache defaults held 0 "k" sample in
  setCache defaults cache 10 "k" other = setCache defaults held 10 "k" other /\
  (getCache (setCache defaults cache 10 "k" other) 11 "k").1 = Some other /\
  (getCache cache 9 "j").1 = (getCache held 9 "j").1 /\
  (getCache held 9 "j").1 = Some sample /\
  (deleteCache cache "k").1 = true /\
  (getCache (deleteCache cache "k").2 9 "k").1 = None /\
  (getCache (deleteCache cache "k").2 9 "j").1 = Some sample /\
  (deleteCache (deleteCache cache "k").2 "k").1 = false.
Proof.
  cbv zeta.
  assert (Hne : "k" <> "j") by discriminate.
  destruct (write_and_delete defaults (setCache defaults ∅ 0 "j" sample) "k" "j" sample
              {| id := "m1abd-99887766"; meta_url := "https://example.com";
                 meta_width := 1920; meta_height := 1080; meta_fullPage := true;
                 fileSize := 8192; capturedAt := 10; meta_expiresAt := 3600010 |}
              0 10 9) as (Hover & Hother & _).
  destruct (write_and_delete defaults
              (setCache defaults (setCache defaults ∅ 0 "j" sample) 0 "k" sample)
              "k" "j" sample sample 0 0 9)
    as (_ & _ & Hdel & _ & Hgone & Hkept & Hagain).
  split; [exact Hover |]. split; [vm_compute; reflexivity |].
  split; [exact (Hother Hne) |]. split; [vm_compute; reflexivity |].
  split; [apply Hdel; by eexists |]. split; [exact Hgone |].
  split; [rewrite (Hkept Hne); vm_compute; reflexivity | exact Hagain].
Defined.

(** An entry past its expiry is still stored until something evicts it:
    [deleteCache] reports it while [hasCache] does not. *)
Example expired_entry_still_deleted :
  (hasCache (setCache defaults ∅ 0 "k" sample) 3600001 "k").1 = false /\
  (deleteCache (setCache defaults ∅ 0 "k" sample) "k").1 = true.
Proof. split; reflexivity. Qed.

End CacheLaws.

(** ** The rate limiter: bounds, isolation of clients, client keys *)

Module RateLimiterLaws.
Import Config ErrorHandler RateLimiter RateLimiterAdmin.

Lemma cleanup_length_mono (l : list Z) (ws ws' : Z) :
  ws <= ws' ->
  (length (cleanupTimestamps l ws') <= length (cleanupTimestamps l ws))%nat.
Proof.
  intros Hle. unfold cleanupTimestamps. induction l as [|ts l IH]; [done |].
  rewrite !filter_cons. repeat case_decide; simpl; lia.
Qed.

Lemma cleanup_length (l : list Z) (ws : Z) :
  (length (cleanupTimestamps l ws) <= length l)%nat.
Proof. apply length_filter. Qed.

Lemma check_ext (cfg : Config) (s1 s2 : Store) (now : Z) (ip : string) :
  s1 !! ip = s2 !! ip -> checkRateLimit cfg s1 now ip = checkRateLimit cfg s2 now ip.
Proof. intros H. unfold checkRateLimit. by rewrite H. Qed.

Lemma record_lookup (cfg : Config) (store : Store) (now : Z) (ip : string) :
  recordRequest cfg store now ip !! ip =
    Some (cleanupTimestamps (default [] (store !! ip)) (now - windowMs cfg) ++ [now]).
Proof. unfold recordRequest. apply lookup_insert_eq. Qed.

Lemma record_lookup_ne (cfg : Config) (store : Store) (now : Z) (ip ip' : string) :
  ip <> ip' -> recordRequest cfg store now ip !! ip' = store !! ip'.
Proof. intros Hne. unfold recordRequest. by rewrite lookup_insert_ne. Qed.

Lemma serve_ext (cfg : Config) (ip : string) (times : list (Z * Z)) (s1 s2 : Store) :
  s1 !! ip = s2 !! ip ->
  (serve cfg s1 ip times).1 = (serve cfg s2 ip times).1 /\
  (serve cfg s1 ip times).2 !! ip = (serve cfg s2 ip times).2 !! ip.
Proof.
  revert s1 s2. induction times as [|[tc tr] times IH]; intros s1 s2 Hs; [done |].
  cbn [serve]. unfold rateLimiter. cbn [snd].
  rewrite (check_ext cfg s1 s2 tc ip Hs).
  destruct (allowed (checkRateLimit cfg s2 tc ip)).
  - assert (Hr : recordRequest cfg s1 tr ip !! ip = recordRequest cfg s2 tr ip !! ip)
      by (by rewrite !record_lookup, Hs).
    destruct (IH _ _ Hr) as [H1 H2].
    destruct (serve cfg (recordRequest cfg s1 tr ip) ip times) as [d1 f1].
    destruct (serve cfg (recordRequest cfg s2 tr ip) ip times) as [d2 f2].
    cbn [fst snd] in *. by rewrite H1.
  - destruct (IH _ _ Hs) as [H1 H2].
    destruct (serve cfg s1 ip times) as [d1 f1].
    destruct (serve cfg s2 ip times) as [d2 f2].
    cbn [fst snd] in *. by rewrite H1.
Qed.

Lemma serve_other (cfg : Config) (ip ip' : string) (times : list (Z * Z)) (store : Store) :
  ip <> ip' -> (serve cfg store ip times).2 !! ip' = store !! ip'.
Proof.
  intros Hne. revert store. induction times as [|[tc tr] times IH]; intros store; [done |].
  cbn [serve]. unfold rateLimiter. cbn [snd].
  destruct (allowed (checkRateLimit cfg store tc ip)).
  - specialize (IH (recordRequest cfg store tr ip)).
    destruct (serve cfg (recordRequest cfg store tr ip) ip times) as [d f].
    cbn [snd] in *. by rewrite IH, record_lookup_ne.
  - specialize (IH store). destruct (serve cfg store ip times) as [d f]. done.
Qed.

(** X4. The list stored for a client stays bounded. When the middleware
    lets a request through, with the clock not running backwards between
    its two readings, the list it stores for the client ends with the
    instant of this request and holds at most [maxRequests] instants; the
    instants kept before it are all later than the start of the window of
    this request; the lists of the other clients are as they were. *)
Theorem recorded_window_bounded (cfg : Config) (store store' : Store)
    (now_check now_record : Z) (ip : string) :
  now_check <= now_record ->
  (rateLimiter cfg store now_check now_record ip).2 = inr store' ->
  exists l,
    store' !! ip = Some (l ++ [now_record]) /\
    Z.of_nat (length (l ++ [now_record])) <= maxRequests cfg /\
    (forall ts, ts ∈ l -> now_record - windowMs cfg < ts) /\
    (forall ip', ip <> ip' -> store' !! ip' = store !! ip').
Proof.
  intros Hclock. unfold rateLimiter. cbn [snd].
  destruct (allowed (checkRateLimit cfg store now_check ip)) eqn:Ha; [| done].
  intros [= <-].
  exists (cleanupTimestamps (default [] (store !! ip)) (now_record - windowMs cfg)).
  split; [apply record_lookup |]. split; [| split].
  - unfold checkRateLimit in Ha. cbn [allowed] in Ha. apply Z.ltb_lt in Ha.
    pose proof (cleanup_length_mono (default [] (store !! ip))
                  (now_check - windowMs cfg) (now_record - windowMs cfg)).
    rewrite length_app. simpl. lia.
  - intros ts Hts. unfold cleanupTimestamps in Hts.
    apply list_elem_of_filter in Hts as [Hts _]. lia.
  - intros ip' Hne. by apply record_lookup_ne.
Qed.

Lemma recorded_window_bounded_witness :
  exists l,
    recordRequest defaults {[ "203.0.113.7" := [1000; 5000] ]} 6001 "203.0.113.7"
      !! "203.0.113.7" = Some (l ++ [6001]) /\
    Z.of_nat (length (l ++ [6001])) <= 10.
Proof.
  assert (Hc : 6000 <= 6001) by lia.
  assert (Hr : (rateLimiter defaults {[ "203.0.113.7" := [1000; 5000] ]} 6000 6001
                  "203.0.113.7").2
               = inr (recordRequest defaults {[ "203.0.113.7" := [1000; 5000] ]} 6001
                        "203.0.113.7")) by (vm_compute; reflexivity).
  destruct (recorded_window_bounded defaults {[ "203.0.113.7" := [1000; 5000] ]}
              (recordRequest defaults {[ "203.0.113.7" := [1000; 5000] ]} 6001 "203.0.113.7")
              6000 6001 "203.0.113.7" Hc Hr) as (l & Hl & Hn & _).
  exists l. split; [exact Hl | exact Hn].
Defined.

(** X5. Clients do not share a budget. Whatever a client [ip] does (a
    request recorded, any sequence of requests through the middleware, its
    entry cleared), the check of any other client [ip'] returns the same
    record at every instant, and the decisions the middleware takes for a
    sequence of requests of [ip'] are the same. *)
Theorem clients_isolated (cfg : Config) (store : Store) (ip ip' : string)
    (now now' : Z) (times times' : list (Z * Z)) :
  ip <> ip' ->
  checkRateLimit cfg (recordRequest cfg store now ip) now' ip'
    = checkRateLimit cfg store now' ip' /\
  checkRateLimit cfg (clearRateLimit store ip) now' ip'
    = checkRateLimit cfg store now' ip' /\
  checkRateLimit cfg (serve cfg store ip times).2 now' ip'
    = checkRateLimit cfg store now' ip' /\
  (serve cfg (serve cfg store ip times).2 ip' times').1 = (serve cfg store ip' times').1.
Proof.
  intros Hne. split; [| split; [| split]].
  - apply check_ext. by apply record_lookup_ne.
  - apply check_ext. unfold clearRateLimit. by rewrite lookup_delete_ne.
  - apply check_ext. by apply serve_other.
  - apply serve_ext. by apply serve_other.
Qed.

Lemma clients_isolated_witness :
  (serve defaults (serve defaults ∅ "203.0.113.7" [(0, 0); (1, 1)]).2
     "198.51.100.2" [(2, 2)]).1
  = (serve defaults ∅ "198.51.100.2" [(2, 2)]).1.
Proof.
  assert (Hne : "203.0.113.7" <> "198.51.100.2") by discriminate.
  destruct (clients_isolated defaults ∅ "203.0.113.7" "198.51.100.2" 0 0
              [(0, 0); (1, 1)] [(2, 2)] Hne) as (_ & _ & _ & H).
  exact H.
Defined.

(** X6. With a positive window, a recorded request uses up exactly one
    unit of the budget: a check at the instant of the recording reports one
    less than a check just before it, floored at 0, and it counts one more
    instant, as [getRateLimitStatus] shows. The [X-RateLimit-Remaining]
    header of a request is the budget before the request is counted: a
    request let through leaves one less than the header it was answered
    with. After [clearRateLimit] the client has the whole budget again. *)
Theorem budget_consumed_one_by_one (cfg : Config) (store : Store) (now : Z) (ip : string) :
  0 < windowMs cfg ->
  let before := checkRateLimit cfg store now ip in
  let store' := recordRequest cfg store now ip in
  let after := checkRateLimit cfg store' now ip in
  remaining after = Z.max 0 (remaining before - 1) /\
  status_count (getRateLimitStatus cfg store' now now ip)
    = status_count (getRateLimitStatus cfg store now now ip) + 1 /\
  (allowed after = true <-> 1 < remaining before) /\
  remaining_header (rateLimiter cfg store now now ip).1 = remaining before /\
  (forall recorded, (rateLimiter cfg store now now ip).2 = inr recorded ->
     recorded = store' /\
     remaining after = remaining_header (rateLimiter cfg store now now ip).1 - 1) /\
  remaining (checkRateLimit cfg (clearRateLimit store' ip) now ip)
    = Z.max 0 (maxRequests cfg).
Proof.
  intros Hw before store' after.
  set (kept := cleanupTimestamps (default [] (store !! ip)) (now - windowMs cfg)).
  assert (Hkept' : cleanupTimestamps (default [] (store' !! ip)) (now - windowMs cfg)
                   = kept ++ [now]).
  { unfold store'. rewrite record_lookup. cbn [default from_option id]. fold kept.
    apply RateLimiterSpec.cleanup_keeps_all. apply Forall_app. split.
    - apply Forall_forall. intros ts Hts. unfold kept, cleanupTimestamps in Hts.
      apply list_elem_of_filter in Hts as [Hts _]. lia.
    - constructor; [lia | constructor]. }
  assert (Hlen : Z.of_nat (length (kept ++ [now])) = Z.of_nat (length kept) + 1)
    by (rewrite length_app; simpl; lia).
  split; [| split; [| split; [| split; [| split]]]].
  - unfold after, before, checkRateLimit. cbn [remaining].
    rewrite Hkept'. fold kept. lia.
  - unfold getRateLimitStatus. cbn [status_count]. rewrite Hkept'. fold kept. lia.
  - unfold after, before, checkRateLimit. cbn [remaining allowed].
    rewrite Hkept'. fold kept. rewrite Z.ltb_lt. lia.
  - done.
  - intros recorded. unfold rateLimiter. cbn [fst snd rate_headers remaining_header].
    fold before. destruct (allowed before) eqn:Ha; [| done]. intros [= <-].
    split; [done |].
    unfold after, before, checkRateLimit in *. cbn [remaining allowed] in *.
    rewrite Hkept'. fold kept in Ha |- *. apply Z.ltb_lt in Ha. lia.
  - unfold checkRateLimit, clearRateLimit. cbn [remaining].
    rewrite lookup_delete_eq. cbn. lia.
Qed.

Lemma budget_consumed_one_by_one_witness :
  remaining (checkRateLimit defaults (recordRequest defaults ∅ 5 "203.0.113.7") 5
               "203.0.113.7")
  = Z.max 0 (remaining (checkRateLimit defaults ∅ 5 "203.0.113.7") - 1).
Proof.
  assert (Hw : 0 < windowMs defaults) by (simpl; lia).
  destruct (budget_consumed_one_by_one defaults ∅ 5 "203.0.113.7" Hw) as (H & _).
  exact H.
Defined.

Lemma ceil_div_bounds (a b : Z) : 0 < b -> b * (ceil_div a b - 1) < a <= b * ceil_div a b.
Proof.
  intros Hb. unfold ceil_div.
  pose proof (Z.div_mod (- a) b ltac:(lia)).
  pose proof (Z.mod_pos_bound (- a) b Hb). nia.
Qed.

Lemma ceil_div_pos (a b : Z) : 0 < b -> 0 < a -> 1 <= ceil_div a b.
Proof. intros Hb Ha. pose proof (ceil_div_bounds a b Hb). nia. Qed.

Lemma ceil_div_mono (a a' b : Z) : 0 < b -> a <= a' -> ceil_div a b <= ceil_div a' b.
Proof.
  intros Hb Ha. pose proof (ceil_div_bounds a b Hb). pose proof (ceil_div_bounds a' b Hb). nia.
Qed.

(** X7. The time a client is told to wait is positive and at most one
    window. With a positive window and no stored instant later than the
    instant of the check, [resetIn] lies in [(0, windowMs]]; hence the
    [X-RateLimit-Reset] header is at least 1 second and at most the window
    rounded up to seconds, and a 429 reply carries the same number as
    [retryAfter], with status 429 and code [RATE_LIMIT_EXCEEDED]. *)
Theorem retry_after_bounds (cfg : Config) (store : Store) (now : Z) (ip : string) :
  0 < windowMs cfg ->
  (forall ts, ts ∈ default [] (store !! ip) -> ts <= now) ->
  let r := checkRateLimit cfg store now ip in
  0 < resetIn r <= windowMs cfg /\
  1 <= reset_header (rate_headers cfg r) <= ceil_div (windowMs cfg) 1000 /\
  (forall now_record reply,
     (rateLimiter cfg store now now_record ip).2 = inl reply ->
     reply_status reply = 429 /\
     error_code (reply_body reply) = RATE_LIMIT_EXCEEDED /\
     retryAfter (reply_body reply)
       = Some (reset_header (rateLimiter cfg store now now_record ip).1)).
Proof.
  intros Hw Hpast r.
  assert (Hr : 0 < resetIn r <= windowMs cfg).
  { unfold r, checkRateLimit. cbn [resetIn].
    destruct (cleanupTimestamps _ _) as [|t rest] eqn:Hk; [lia |].
    destruct (RateLimiterSpec.Math_min_least t rest) as [Hin _].
    rewrite <- Hk in Hin. unfold cleanupTimestamps in Hin.
    apply list_elem_of_filter in Hin as [Hgt Hin]. specialize (Hpast _ Hin). lia. }
  split; [done |]. split.
  - unfold rate_headers. cbn [reset_header]. split.
    + apply ceil_div_pos; lia.
    + apply ceil_div_mono; lia.
  - intros now_record reply. unfold rateLimiter. cbn [fst snd]. fold r.
    destruct (allowed r); [done |]. by intros [= <-].
Qed.

Lemma retry_after_bounds_witness :
  0 < resetIn (checkRateLimit defaults {[ "203.0.113.7" := [1000; 5000] ]} 6000
                 "203.0.113.7") <= windowMs defaults.
Proof.
  assert (Hw : 0 < windowMs defaults) by (simpl; lia).
  assert (Hp : forall ts,
             ts ∈ default [] (({[ "203.0.113.7" := [1000; 5000] ]} : Store)
                                !! "203.0.113.7") -> ts <= 6000).
  { intros ts Hts. vm_compute in Hts.
    apply elem_of_cons in Hts as [-> | Hts]; [lia |].
    apply elem_of_cons in Hts as [-> | Hts]; [lia |].
    by apply elem_of_nil in Hts. }
  destruct (retry_after_bounds defaults {[ "203.0.113.7" := [1000; 5000] ]} 6000
              "203.0.113.7" Hw Hp) as (H & _).
  exact H.
Defined.

(** *** Client keys *)

Lemma prefix_is_sublist {A} (l1 l2 : list A) : l1 `prefix_of` l2 -> l1 `sublist_of` l2.
Proof. intros [k ->]. by apply sublist_inserts_r. Qed.

Lemma suffix_is_sublist {A} (l1 l2 : list A) : l1 `suffix_of` l2 -> l1 `sublist_of` l2.
Proof. intros [k ->]. by apply sublist_inserts_l. Qed.

Lemma chars_cons (c : ascii) (s : string) : chars (String c s) = c :: chars s.
Proof. done. Qed.

Lemma before_comma_no_comma (s : string) : ","%char ∉ chars (before_comma s).
Proof.
  induction s as [|c s IH]; cbn [before_comma]; [apply not_elem_of_nil |].
  destruct (Ascii.eqb_spec c ","); [apply not_elem_of_nil |].
  rewrite chars_cons, not_elem_of_cons. split; [congruence | done].
Qed.

Lemma before_comma_id (s : string) : ","%char ∉ chars s -> before_comma s = s.
Proof.
  induction s as [|c s IH]; [done |].
  rewrite chars_cons, not_elem_of_cons. intros [Hc Hs]. cbn [before_comma].
  destruct (Ascii.eqb_spec c ","); [congruence |]. by rewrite IH.
Qed.

Lemma trimStart_suffix (s : string) : chars (trimStart s) `suffix_of` chars s.
Proof.
  induction s as [|c s IH]; [done |]. cbn [trimStart].
  destruct (is_space c); [| done]. rewrite chars_cons. by apply suffix_cons_r.
Qed.

Lemma trimStart_head (s : string) (c : ascii) :
  head (chars (trimStart s)) = Some c -> is_space c = false.
Proof.
  induction s as [|c' s IH]; [done |]. cbn [trimStart].
  destruct (is_space c') eqn:Hc'; [done |]. rewrite chars_cons. by intros [= <-].
Qed.

Lemma trimEnd_prefix (s : string) : chars (trimEnd s) `prefix_of` chars s.
Proof.
  induction s as [|c s IH]; [done |]. cbn [trimEnd].
  destruct (trimEnd s) as [|c' t].
  - destruct (is_space c); [apply prefix_nil |].
    rewrite !chars_cons. apply prefix_cons, prefix_nil.
  - rewrite (chars_cons c (String c' t)), (chars_cons c s). by apply prefix_cons.
Qed.

Lemma trimEnd_last (s : string) (c : ascii) :
  last (chars (trimEnd s)) = Some c -> is_space c = false.
Proof.
  induction s as [|c' s IH]; [done |]. cbn [trimEnd].
  destruct (trimEnd s) as [|c'' t].
  - destruct (is_space c') eqn:Hc'; [done |]. by intros [= <-].
  - rewrite (chars_cons c' (String c'' t)), (chars_cons c'' t), last_cons_cons.
    rewrite <- chars_cons. exact IH.
Qed.

Lemma trimStart_id (s : string) :
  (forall c, head (chars s) = Some c -> is_space c = false) -> trimStart s = s.
Proof.
  destruct s as [|c s]; [done |]. intros H. cbn [trimStart].
  by rewrite (H c eq_refl).
Qed.

Lemma trimEnd_id (s : string) :
  (forall c, last (chars s) = Some c -> is_space c = false) -> trimEnd s = s.
Proof.
  induction s as [|c s IH]; [done |]. intros H. cbn [trimEnd].
  destruct s as [|c' s'].
  - cbn [trimEnd]. by rewrite (H c eq_refl).
  - rewrite IH; [done |]. intros c0 Hc0. apply H.
    by rewrite (chars_cons c (String c' s')), (chars_cons c' s'), last_cons_cons,
      <- chars_cons.
Qed.

Lemma truthy_Some (h : option string) (s : string) :
  truthy h = Some s <-> h = Some s /\ s <> "".
Proof.
  unfold truthy. destruct h as [s'|]; [| by split; [| intros [? _]]].
  destruct (String.eqb_spec s' "") as [-> | Hne].
  - split; [done | by intros [[= <-] ?]].
  - split; [by intros [= <-] | by intros [[= <-] _]].
Qed.

(** X8. The key [getClientIp] derives from the request. A non-empty
    [x-forwarded-for] header decides alone: the key is what stands before
    its first comma, without the whitespace around it, so it holds no comma
    and neither starts nor ends with whitespace, whatever [x-real-ip] says.
    Conversely every text without comma and surrounding whitespace, the
    empty text apart, is the key of a request that sends it as
    [x-forwarded-for]. With that header missing or empty, a non-empty
    [x-real-ip] is the key as it stands; with both missing or empty the key
    is [unknown], the same for all such requests. *)
Theorem getClientIp_key (h : Headers) :
  (forall forwarded,
     x_forwarded_for h = Some forwarded -> forwarded <> "" ->
     let ip := getClientIp h in
     ip = trim (before_comma forwarded) /\
     (","%char ∉ chars ip) /\
     (forall c, head (chars ip) = Some c -> is_space c = false) /\
     (forall c, last (chars ip) = Some c -> is_space c = false) /\
     chars ip `sublist_of` chars forwarded) /\
  (forall key,
     key <> "" -> ","%char ∉ chars key ->
     (forall c, head (chars key) = Some c -> is_space c = false) ->
     (forall c, last (chars key) = Some c -> is_space c = false) ->
     getClientIp {| x_forwarded_for := Some key; x_real_ip := x_real_ip h |} = key) /\
  (truthy (x_forwarded_for h) = None ->
     forall realIp, x_real_ip h = Some realIp -> realIp <> "" -> getClientIp h = realIp) /\
  (truthy (x_forwarded_for h) = None -> truthy (x_real_ip h) = None ->
     getClientIp h = "unknown").
Proof.
  split; [| split; [| split]].
  - intros forwarded Hf Hne ip.
    assert (Hip : ip = trim (before_comma forwarded)).
    { unfold ip, getClientIp.
      by rewrite (proj2 (truthy_Some _ forwarded) (conj Hf Hne)). }
    split; [done |]. rewrite Hip. unfold trim.
    pose proof (trimEnd_prefix (trimStart (before_comma forwarded))) as Hp.
    pose proof (trimStart_suffix (before_comma forwarded)) as Hs.
    split; [| split; [| split]].
    + intros Hin. apply (before_comma_no_comma forwarded).
      eapply elem_of_sublist; [| by apply suffix_is_sublist].
      eapply elem_of_sublist; [done | by apply prefix_is_sublist].
    + intros c Hc. apply (trimStart_head (before_comma forwarded)).
      destruct Hp as [k Hk]. rewrite Hk.
      destruct (chars (trimEnd _)) as [|c0 l0]; [done |]. exact Hc.
    + apply trimEnd_last.
    + etrans; [by apply prefix_is_sublist |]. etrans; [by apply suffix_is_sublist |].
      clear. induction forwarded as [|c s IH]; [done |]. cbn [before_comma].
      destruct (Ascii.eqb c ","); [apply sublist_nil_l |].
      rewrite !chars_cons. by apply sublist_skip.
  - intros key Hne Hcomma Hhead Hlast. unfold getClientIp. cbn [x_forwarded_for].
    rewrite (proj2 (truthy_Some (Some key) key) (conj eq_refl Hne)).
    rewrite before_comma_id by done. unfold trim.
    rewrite trimStart_id by done. by apply trimEnd_id.
  - intros Hf realIp Hr Hne. unfold getClientIp. rewrite Hf.
    by rewrite (proj2 (truthy_Some _ realIp) (conj Hr Hne)).
  - intros Hf Hr. unfold getClientIp. by rewrite Hf, Hr.
Qed.

Example first_forwarded_address :
  getClientIp {| x_forwarded_for := Some " 203.0.113.7 , 10.0.0.1"; x_real_ip := None |}
  = "203.0.113.7".
Proof. reflexivity. Qed.

(** A header that starts with a comma gives the empty key. *)
Example empty_client_key :
  getClientIp {| x_forwarded_for := Some ", 10.0.0.1"; x_real_ip := Some "10.0.0.2" |} = "".
Proof. reflexivity. Qed.

End RateLimiterLaws.

(** ** The request schema *)

Module SchemaLaws.
Import Validators Hash Config Browser Schema.

Lemma optional_int_spec (lo hi : Z) (v : Json) (o : option Z) :
  optional_int lo hi v = Some o <-> optional_within lo hi v o.
Proof.
  unfold optional_int, optional_within. split.
  - destruct v; try done.
    + intros [= <-]. by left.
    + destruct (Z.leb_spec lo n), (Z.leb_spec n hi); try done.
      intros [= <-]. right. exists n. repeat split; lia.
  - intros [[-> ->] | (n & -> & Hn & ->)]; [done |].
    destruct (Z.leb_spec lo n), (Z.leb_spec n hi); try lia. done.
Qed.

Lemma boolean_default_spec (d : bool) (v : Json) (b : bool) :
  boolean_default d v = Some b <-> boolean_or d v b.
Proof.
  unfold boolean_default, boolean_or. split.
  - destruct v; try done; intros [= <-]; [by left | by right].
  - by intros [[-> ->] | ->].
Qed.

Lemma device_default_spec (v : Json) (d : Device) :
  device_default v = Some d <-> member_or device_text desktop v d.
Proof.
  unfold device_default, member_or. split.
  - destruct v; try done.
    + intros [= <-]. by left.
    + destruct (String.eqb_spec s "desktop") as [-> | _]; [intros [= <-]; by right |].
      destruct (String.eqb_spec s "tablet") as [-> | _]; [intros [= <-]; by right |].
      destruct (String.eqb_spec s "mobile") as [-> | _]; [intros [= <-]; by right |].
      done.
  - intros [[-> ->] | ->]; [done |]. by destruct d.
Qed.

Lemma waitFor_default_spec (v : Json) (w : WaitFor) :
  waitFor_default v = Some w <-> member_or waitFor_text networkidle v w.
Proof.
  unfold waitFor_default, member_or. split.
  - destruct v; try done.
    + intros [= <-]. by left.
    + destruct (String.eqb_spec s "load") as [-> | _]; [intros [= <-]; by right |].
      destruct (String.eqb_spec s "domcontentloaded") as [-> | _];
        [intros [= <-]; by right |].
      destruct (String.eqb_spec s "networkidle") as [-> | _]; [intros [= <-]; by right |].
      done.
  - intros [[-> ->] | ->]; [done |]. by destruct w.
Qed.

Lemma timeout_spec (v : Json) (n : Z) :
  (exists t, optional_int 5000 60000 v = Some t /\ default 30000 t = n)
  <-> within_or 5000 60000 30000 v n.
Proof.
  unfold within_or. split.
  - intros (t & Ht & <-). apply optional_int_spec in Ht as [[-> ->] | (m & -> & Hm & ->)].
    + by left.
    + by right.
  - intros [[-> ->] | [-> Hn]].
    + by exists None.
    + exists (Some n). split; [| done]. apply optional_int_spec. right. by exists n.
Qed.

Section WithPlatform.

Variable parseURL : string -> option URL.
Variable zod_url : string -> option string.
Variable issues_text : option Body -> string.

Local Abbreviation validate := (validateScreenshotRequest parseURL zod_url issues_text).

Lemma validate_Success (body : option Body) (r : ScreenshotRequest) :
  validate body = Success r <-> safeParse parseURL zod_url body = Some r.
Proof.
  unfold validateScreenshotRequest. destruct (safeParse parseURL zod_url body) as [r'|].
  - split; by intros [= ->].
  - done.
Qed.

Lemma urlSchema_spec (v : Json) (u : string) :
  urlSchema parseURL zod_url v = Some u <-> url_handed_on parseURL zod_url v u.
Proof.
  unfold url_handed_on. split.
  - destruct v as [| | | | |s|]; try done. cbn [urlSchema].
    destruct (zod_url s) as [u'|] eqn:Hz; [| done].
    destruct (refine_protocol parseURL u') eqn:Hp, (refine_host parseURL u') eqn:Hh;
      try done.
    intros [= <-]. by exists s.
  - intros (s & -> & Hz & Hp & Hh). cbn [urlSchema]. by rewrite Hz, Hp, Hh.
Qed.

Lemma safeParse_fields (b : Body) (r : ScreenshotRequest) :
  safeParse parseURL zod_url (Some b) = Some r <->
    url_handed_on parseURL zod_url (body_url b) (url r) /\
    optional_within 320 3840 (body_width b) (width r) /\
    optional_within 240 2160 (body_height b) (height r) /\
    boolean_or false (body_fullPage b) (fullPage r) /\
    boolean_or false (body_darkMode b) (darkMode r) /\
    boolean_or true (body_blockAds b) (blockAds r) /\
    member_or device_text desktop (body_device b) (device r) /\
    member_or waitFor_text networkidle (body_waitFor b) (waitFor r) /\
    within_or 5000 60000 30000 (body_timeout b) (timeout r).
Proof.
  unfold safeParse. cbn [mbind option_bind].
  rewrite <- urlSchema_spec, <- !optional_int_spec, <- !boolean_default_spec,
    <- device_default_spec, <- waitFor_default_spec, <- timeout_spec.
  split.
  - intros H.
    destruct (urlSchema _ _ _) as [u|]; [| done];
    destruct (optional_int 320 3840 _) as [w|]; [| done];
    destruct (optional_int 240 2160 _) as [h|]; [| done];
    destruct (boolean_default false (body_fullPage b)) as [fp|]; [| done];
    destruct (boolean_default false (body_darkMode b)) as [dm|]; [| done];
    destruct (boolean_default true _) as [ba|]; [| done];
    destruct (device_default _) as [dv|]; [| done];
    destruct (waitFor_default _) as [wf|]; [| done];
    destruct (optional_int 5000 60000 _) as [t|]; [| done].
    cbn in H. injection H as <-. cbn. repeat split. by exists t.
  - intros (-> & -> & -> & -> & -> & -> & -> & -> & (t & -> & Ht)).
    cbn. destruct r. cbn in *. by rewrite Ht.
Qed.

(** X9. The bodies [validateScreenshotRequest] accepts, and what it
    returns for them. A body is accepted with data [r] exactly when: its
    [url] is a string that the url check of zod accepts, and the [url] of
    [r] is the value that check hands on, which passes the two
    refinements (http or https; no listed or private host); [width] and
    [height] are left out or are integers in [320..3840] and [240..2160];
    the three flags are left out or are booleans; [device] and [waitFor]
    are left out or name a member; [timeout] is left out or is an integer
    in [5000..60000]. The [url] returned is thus the text as zod rewrote
    it, not always the text received, and the refinements read the
    rewritten text. Every other field present is returned unchanged
    (nothing is clamped or converted), every field left out takes its
    default: [false], [false], [true], [desktop], [networkidle], [30000].
    A [null] in place of a field is not a field left out: it is
    refused. *)
Theorem validation_exact (b : Body) (r : ScreenshotRequest) :
  (validate (Some b) = Success r <->
     url_handed_on parseURL zod_url (body_url b) (url r) /\
     optional_within 320 3840 (body_width b) (width r) /\
     optional_within 240 2160 (body_height b) (height r) /\
     boolean_or false (body_fullPage b) (fullPage r) /\
     boolean_or false (body_darkMode b) (darkMode r) /\
     boolean_or true (body_blockAds b) (blockAds r) /\
     member_or device_text desktop (body_device b) (device r) /\
     member_or waitFor_text networkidle (body_waitFor b) (waitFor r) /\
     within_or 5000 60000 30000 (body_timeout b) (timeout r)) /\
  (In JNull [ body_url b; body_width b; body_height b; body_fullPage b; body_darkMode b;
              body_blockAds b; body_device b; body_waitFor b; body_timeout b ] ->
   exists error, validate (Some b) = Failure error).
Proof.
  split.
  - rewrite validate_Success. apply safeParse_fields.
  - intros Hnull.
    assert (Hnone : safeParse parseURL zod_url (Some b) = None).
    { unfold safeParse. cbn [mbind option_bind]. cbn [In] in Hnull.
      repeat (destruct Hnull as [-> | Hnull];
              [cbn;
               repeat match goal with
                      | |- (?x ≫= _) = None => destruct x; cbn; [| done]
                      end; done |]).
      done. }
    unfold validateScreenshotRequest. rewrite Hnone. by eexists.
Qed.

(** X10. What an accepted request asks of the browser stays within
    fixed bounds. For the data [r] of an accepted body, the viewport of the
    browser context is between 320x240 and 3840x2160, whether the
    dimensions come from the body or from the device preset, a dimension
    given in the body is the one used, and the navigation timeout is
    between 5 and 60 seconds. *)
Theorem accepted_request_bounds (body : option Body) (r : ScreenshotRequest) :
  validate body = Success r ->
  320 <= viewport_width (context_options r) <= 3840 /\
  240 <= viewport_height (context_options r) <= 2160 /\
  (forall n, width r = Some n -> viewport_width (context_options r) = n) /\
  (forall n, height r = Some n -> viewport_height (context_options r) = n) /\
  (width r = None -> viewport_width (context_options r) = device_width (device r)) /\
  (height r = None -> viewport_height (context_options r) = device_height (device r)) /\
  5000 <= timeout r <= 60000.
Proof.
  rewrite validate_Success. destruct body as [b|]; [| done].
  rewrite safeParse_fields.
  intros (_ & Hw & Hh & _ & _ & _ & _ & _ & Ht).
  unfold context_options, number_or. cbn [viewport_width viewport_height].
  assert (Hdw : 320 <= device_width (device r) <= 3840) by (destruct (device r); simpl; lia).
  assert (Hdh : 240 <= device_height (device r) <= 2160) by (destruct (device r); simpl; lia).
  destruct Hw as [[_ ->] | (w & _ & Hw & ->)], Hh as [[_ ->] | (h & _ & Hh & ->)],
    Ht as [[_ ->] | [_ Ht]];
    repeat match goal with
           | |- context [?n =? 0] => destruct (Z.eqb_spec n 0); [lia |]
           end;
    repeat split; try done; try lia; intros ? [= <-]; done.
Qed.

End WithPlatform.

Lemma accepted_request_bounds_witness :
  320 <= viewport_width
           (context_options
              {| url := "https://example.com"; width := None; height := None;
                 fullPage := false; darkMode := false; blockAds := true;
                 device := desktop; waitFor := networkidle; timeout := 30000 |}) <= 3840.
Proof.
  assert (Hv : validateScreenshotRequest Samples.toy_parser Samples.toy_zod (fun _ => "")
                 (Some (Samples.body_of "https://example.com"))
               = Success {| url := "https://example.com"; width := None; height := None;
                            fullPage := false; darkMode := false; blockAds := true;
                            device := desktop; waitFor := networkidle; timeout := 30000 |})
    by reflexivity.
  destruct (accepted_request_bounds Samples.toy_parser Samples.toy_zod (fun _ => "")
              _ _ Hv) as (H & _).
  exact H.
Defined.

(** Out of range is refused, not clamped; [null] is not [undefined]. *)
Example width_out_of_range_refused :
  safeParse Samples.toy_parser Samples.toy_zod
    (Some {| body_url := JString "https://example.com"; body_width := JInt 4000;
             body_height := JUndefined; body_fullPage := JUndefined;
             body_darkMode := JUndefined; body_blockAds := JUndefined;
             body_device := JUndefined; body_waitFor := JUndefined;
             body_timeout := JUndefined |}) = None.
Proof. reflexivity. Qed.

(** The text arrives with spaces around it; the data hold the text
    without them, and the cache key is computed from that text. *)
Example url_is_handed_on_rewritten :
  validateScreenshotRequest Samples.toy_parser Samples.toy_zod (fun _ => "")
    (Some (Samples.body_of " https://example.com "))
  = validateScreenshotRequest Samples.toy_parser Samples.toy_zod (fun _ => "")
      (Some (Samples.body_of "https://example.com")) /\
  (exists r, validateScreenshotRequest Samples.toy_parser Samples.toy_zod (fun _ => "")
               (Some (Samples.body_of " https://example.com ")) = Success r /\
             url r = "https://example.com").
Proof. split; [reflexivity |]. eexists. split; reflexivity. Qed.

End SchemaLaws.

(** ** The two error handlers side by side *)

Module ErrorHandlerLaws.
Import ErrorHandler.

(** The pairs of code and status the tables hold, with the default. *)
Lemma table_pairs (e : PatternEntry) :
  In e ERROR_PATTERNS \/ In e ERROR_PATTERNS_index ->
  In (code e, status e)
     [ (TIMEOUT, 504); (INVALID_URL, 400); (SCREENSHOT_FAILED, 502);
       (INTERNAL_ERROR, 500); (BLOCKED_URL, 403) ].
Proof.
  intros [H | H]; cbn in H;
    repeat (destruct H as [<- | H]; [cbn; tauto |]); done.
Qed.

Lemma index_pairs (e : PatternEntry) :
  In e ERROR_PATTERNS_index ->
  In (code e, status e) [ (TIMEOUT, 504); (INVALID_URL, 400); (SCREENSHOT_FAILED, 502) ].
Proof.
  intros H; cbn in H; repeat (destruct H as [<- | H]; [cbn; tauto |]); done.
Qed.

(** X11. The middleware [errorHandler] and [app.onError] compared. An
    [AppError] goes through both unchanged: its code, its message as it is,
    its status. For any other thrown value both answer with one of five
    fixed pairs of code and status, [app.onError] with one of four (it never
    answers [BLOCKED_URL]); and the two handlers give the same reply for
    every thrown value, unless it is an [Error] whose text contains, in any
    case, "net::ERR_CERT", "Protocol error" or "blocked", which only the
    table of the middleware knows. *)
Theorem handlers_compared (err : Thrown) :
  (forall c m st, err = AppError c m st ->
     errorHandler_catch err = onError err /\
     onError err = {| reply_body := {| error_code := c; error_message := m;
                                       retryAfter := None |};
                      reply_status := st |}) /\
  ((forall c m st, err <> AppError c m st) ->
     In (error_code (reply_body (errorHandler_catch err)), reply_status (errorHandler_catch err))
        [ (TIMEOUT, 504); (INVALID_URL, 400); (SCREENSHOT_FAILED, 502);
          (INTERNAL_ERROR, 500); (BLOCKED_URL, 403) ] /\
     In (error_code (reply_body (onError err)), reply_status (onError err))
        [ (TIMEOUT, 504); (INVALID_URL, 400); (SCREENSHOT_FAILED, 502);
          (INTERNAL_ERROR, 500) ]) /\
  ((forall m, err = JsError m ->
      test (LiteralI "net::ERR_CERT") m = false /\
      test (LiteralI "Protocol error") m = false /\
      test (LiteralI "blocked") m = false) ->
   errorHandler_catch err = onError err).
Proof.
  split; [| split].
  - intros c m st ->. done.
  - intros Hne. destruct err as [m | c m st | t]; [| by edestruct Hne | cbn; tauto].
    split.
    + unfold errorHandler_catch, classifyError.
      destruct (ErrorHandlerSpec.first_match_or_none ERROR_PATTERNS m) as [[e He] | Hn].
      * rewrite (ErrorHandlerSpec.classify_from_first _ _ _ He).
        cbn [reply_body reply_status error_code formatErrorResponse cl_code cl_status].
        apply table_pairs. left. by eapply ErrorHandlerSpec.first_match_In.
      * rewrite (ErrorHandlerSpec.classify_from_none _ _ Hn). cbn. tauto.
    + unfold onError.
      destruct (ErrorHandlerSpec.first_match_or_none ERROR_PATTERNS_index m)
        as [[e He] | Hn].
      * rewrite (ErrorHandlerSpec.onError_loop_first _ _ _ He).
        cbn [reply_body reply_status error_code].
        pose proof (index_pairs e (ErrorHandlerSpec.first_match_In _ _ _ He)) as Hp.
        cbn in Hp. cbn. tauto.
      * rewrite (ErrorHandlerSpec.onError_loop_none _ _ Hn). cbn. tauto.
  - intros Hoff. destruct err as [m | c m st | t]; [| done | done].
    destruct (Hoff m eq_refl) as (Hcert & Hproto & Hblocked).
    unfold errorHandler_catch, onError, classifyError, ERROR_PATTERNS, ERROR_PATTERNS_index.
    cbn [classify_from onError_loop pattern entry matches code status message].
    rewrite Hcert, Hproto, Hblocked.
    repeat match goal with
           | |- context [test ?re m] => destruct (test re m)
           end; reflexivity.
Qed.

(** Where they differ: a certificate error is a 502 for the middleware
    and an internal error for [app.onError]. *)
Example certificate_error_differs :
  let err := JsError "page.goto: net::ERR_CERT_AUTHORITY_INVALID at https://example.com" in
  reply_status (errorHandler_catch err) = 502 /\ reply_status (onError err) = 500.
Proof. split; reflexivity. Qed.

End ErrorHandlerLaws.

(** ** The browser service: the calls of an attempt, the browser handles *)

Module BrowserLaws.
Import Validators Config ErrorHandler Browser BrowserShape Samples.

Ltac trace_eq :=
  first [ by rewrite app_nil_r
        | rewrite <- ?app_assoc; reflexivity
        | reflexivity ].

(** The completion of the [try] block that returns a payload made all
    the calls of [session], after those of [getBrowser]. *)
Lemma try_success (parseURL : string -> option URL) (options : ScreenshotRequest)
    (sc : Script) (w : World) :
  let '(r, l, w') := captureScreenshotOnce_try parseURL options sc w in
  forall b, r = Return b ->
    l = {| context := true; page := true |} /\
    exists h,
      (getBrowser sc w).1 = Return h /\
      browser w' = Some h /\
      trace w' ++ [EvPageClose; EvContextClose]
        = trace (getBrowser sc w).2 ++ session options sc h.
Proof.
  unfold captureScreenshotOnce_try, createContext, getBrowser, setupAdBlocking,
    waitForPage, close_and_forget, emit, set_browser, session, returned.
  destruct w as [br n t]. cbn [browser launches trace].
  repeat case_match; simplify_eq/=; intros b' Hb'; try discriminate;
    (split; [done |]); eexists; (split; [done |]); (split; [done |]);
    cbn [browser trace fst snd]; rewrite <- ?app_assoc; cbn [app]; reflexivity.
Qed.

(** What any attempt does to the module state is what its [getBrowser]
    does; everything else only adds calls. *)
Lemma once_engine (parseURL : string -> option URL) (options : ScreenshotRequest)
    (sc : Script) (w : World) :
  let out := captureScreenshotOnce parseURL options sc w in
  let g := (getBrowser sc w).2 in
  browser out.2 = browser g /\ launches out.2 = launches g /\
  exists t, trace out.2 = trace g ++ t /\
            count is_engine t = 0%nat /\
            (blockAds options = false -> count is_route t = 0%nat) /\
            (count is_route t <= 1)%nat.
Proof.
  unfold captureScreenshotOnce. cbv zeta.
  assert (Htry : let '(r, l, w') := captureScreenshotOnce_try parseURL options sc w in
            browser w' = browser (getBrowser sc w).2 /\
            launches w' = launches (getBrowser sc w).2 /\
            exists t, trace w' = trace (getBrowser sc w).2 ++ t /\
                      count is_engine t = 0%nat /\
                      (blockAds options = false -> count is_route t = 0%nat) /\
                      (count is_route t <= 1)%nat).
  { unfold captureScreenshotOnce_try, createContext, getBrowser, setupAdBlocking,
      waitForPage, close_and_forget, emit, set_browser.
    destruct w as [br n t]. cbn [browser launches trace].
    repeat case_match; simplify_eq/=;
      (split; [done |]); (split; [done |]);
      (eexists; split; [trace_eq |]);
      cbn; repeat split; try done; try lia. }
  destruct (captureScreenshotOnce_try parseURL options sc w) as [[r l] w1].
  destruct Htry as (Hb & Hl & t & Ht & He & Hr & Hr1).
  rewrite BrowserSpec.finally_shape. cbn [snd browser launches trace].
  split; [done |]. split; [done |].
  exists (t ++ (if page l then [EvPageClose] else []) ++
               (if context l then [EvContextClose] else [])).
  split; [by rewrite Ht, <- app_assoc |].
  rewrite !BrowserSpec.count_app.
  destruct l as [[] []]; cbn; rewrite ?Nat.add_0_r; (split; [done |]);
    (split; [done | lia]).
Qed.

(** X12. The calls behind a returned image. When an attempt returns an
    image, it made, after the calls of [getBrowser], exactly these calls in
    this order: a context on the browser [getBrowser] returned, with the
    options derived from the request; a page; the ad-blocking route if and
    only if [blockAds] is set; the navigation to the URL of the request
    with the timeout of the request; the wait for the requested load state,
    followed by the 500 ms wait only if it succeeded; the screenshot with
    the [fullPage] of the request; the close of the page, then of the
    context. The image is the payload of that screenshot call. *)
Theorem successful_attempt_trace (parseURL : string -> option URL)
    (options : ScreenshotRequest) (sc : Script) (w : World) (b : Buffer) :
  let out := captureScreenshotOnce parseURL options sc w in
  out.1 = Return b ->
  exists h,
    (getBrowser sc w).1 = Return h /\
    browser out.2 = Some h /\
    trace out.2 = trace (getBrowser sc w).2 ++ session options sc h /\
    screenshot sc = Return (Some b) /\
    goto sc = Return tt.
Proof.
  cbv zeta. intros Hout.
  pose proof (BrowserSpec.once_Return parseURL options sc w b Hout) as (Hshot & _).
  revert Hout. unfold captureScreenshotOnce.
  pose proof (try_success parseURL options sc w) as Htry.
  assert (Hgoto : (captureScreenshotOnce_try parseURL options sc w).1.1 = Return b ->
                  goto sc = Return tt).
  { destruct (goto sc) as [[]|e] eqn:Hg; [done |].
    assert (Hnav : exists e', navigate parseURL options sc = Throw e').
    { unfold navigate, new_URL. rewrite Hg. cbn [mbind completion_bind].
      repeat case_match; by eexists. }
    destruct Hnav as [e' Hnav]. unfold captureScreenshotOnce_try. rewrite Hnav.
    repeat case_match; simplify_eq/=; done. }
  destruct (captureScreenshotOnce_try parseURL options sc w) as [[r l] w1].
  rewrite BrowserSpec.finally_shape. cbn [fst snd browser trace] in *. intros ->.
  destruct (Htry b eq_refl) as (-> & h & Hg & Hb & Ht).
  exists h. cbn [page context app]. rewrite Ht.
  repeat split; try done. by apply Hgoto.
Qed.

Lemma successful_attempt_trace_witness :
  trace (captureScreenshotOnce (fun _ => None) example_request healthy started).2
  = [ EvNewContext 0 (context_options example_request) true; EvNewPage true; EvRoute;
      EvGoto "https://example.com" 30000; EvWaitForLoadState networkidle;
      EvWaitForTimeout 500; EvScreenshot false; EvPageClose; EvContextClose ].
Proof.
  destruct (successful_attempt_trace (fun _ => None) example_request healthy started png
              eq_refl) as (h & Hg & _ & Ht & _).
  injection Hg as <-. exact Ht.
Defined.

(** X13. The waits cannot fail an attempt. Whatever the wait for the
    load state and the 500 ms wait answer, the attempt completes in the
    same way (same image or same error) and leaves the same browser and the
    same number of launches; the answers of the waits show only in the
    trace. An attempt never installs the ad-blocking route when [blockAds]
    is off, and installs it at most once. *)
Theorem waits_are_not_fatal (parseURL : string -> option URL)
    (options : ScreenshotRequest) (sc : Script) (w : World) (wl wt : completion unit) :
  let out := captureScreenshotOnce parseURL options sc w in
  let out' := captureScreenshotOnce parseURL options (with_wait_outcomes sc wl wt) w in
  out'.1 = out.1 /\
  browser out'.2 = browser out.2 /\
  launches out'.2 = launches out.2 /\
  (blockAds options = false -> count is_route (new_events w out.2) = 0%nat) /\
  (count is_route (new_events w out.2) <= 1)%nat.
Proof.
  cbv zeta.
  assert (Htry : (captureScreenshotOnce_try parseURL options (with_wait_outcomes sc wl wt) w).1.1
                 = (captureScreenshotOnce_try parseURL options sc w).1.1).
  { unfold captureScreenshotOnce_try, createContext, getBrowser, setupAdBlocking,
      navigate, with_wait_outcomes.
    cbn [isConnected launch newContext newPage route goto screenshot].
    repeat case_match; simplify_eq/=; done. }
  assert (Hres : forall sc', (captureScreenshotOnce parseURL options sc' w).1
                             = (captureScreenshotOnce_try parseURL options sc' w).1.1).
  { intros sc'. unfold captureScreenshotOnce.
    destruct (captureScreenshotOnce_try parseURL options sc' w) as [[r l] w1].
    by rewrite BrowserSpec.finally_shape. }
  split; [by rewrite !Hres |].
  destruct (once_engine parseURL options sc w) as (Hb & Hl & t & Ht & He & Hr & Hr1).
  destruct (once_engine parseURL options (with_wait_outcomes sc wl wt) w)
    as (Hb' & Hl' & _).
  assert (Hg : getBrowser (with_wait_outcomes sc wl wt) w = getBrowser sc w) by done.
  rewrite Hg in Hb', Hl'.
  split; [congruence |]. split; [congruence |].
  assert (Hgt : exists tg, trace (getBrowser sc w).2 = trace w ++ tg).
  { unfold getBrowser, close_and_forget, emit, set_browser.
    repeat case_match; cbn [snd trace]; eexists; trace_eq. }
  destruct Hgt as [tg Hgt].
  assert (Hrg : count is_route tg = 0%nat).
  { revert Hgt. unfold getBrowser, close_and_forget, emit, set_browser.
    repeat case_match; cbn [snd trace]; rewrite <- ?app_assoc; intros Heq;
      first [ apply app_inv_head in Heq as <-
            | (rewrite <- (app_nil_r (trace w)) in Heq at 1;
               apply app_inv_head in Heq as <-) ];
      reflexivity. }
  erewrite BrowserSpec.new_events_app by (rewrite Ht, Hgt, <- app_assoc; reflexivity).
  rewrite BrowserSpec.count_app, Hrg. cbn [Nat.add]. by split.
Qed.

Lemma getBrowser_reuse (sc : Script) (w : World) (h : nat) :
  browser w = Some h -> isConnected sc = true -> getBrowser sc w = (Return h, w).
Proof. intros Hb Hc. unfold getBrowser. by rewrite Hb, Hc. Qed.

(** X14. A connected browser is reused. When the module holds a browser
    that reports itself connected, an attempt launches nothing and closes no
    browser: its first call is the creation of a context on that very
    browser, and afterwards the module holds the same browser and has
    counted no launch, whether the attempt succeeds or fails. *)
Theorem connected_browser_reused (parseURL : string -> option URL)
    (options : ScreenshotRequest) (sc : Script) (w : World) (h : nat) :
  browser w = Some h -> isConnected sc = true ->
  let out := captureScreenshotOnce parseURL options sc w in
  browser out.2 = Some h /\
  launches out.2 = launches w /\
  count is_engine (new_events w out.2) = 0%nat /\
  exists ok rest, new_events w out.2 = EvNewContext h (context_options options) ok :: rest.
Proof.
  intros Hb Hc. cbv zeta.
  destruct (once_engine parseURL options sc w) as (Hb' & Hl' & t & Ht & He & _).
  rewrite (getBrowser_reuse sc w h Hb Hc) in Hb', Hl', Ht. cbn [snd] in *.
  split; [congruence |]. split; [done |].
  rewrite (BrowserSpec.new_events_app _ _ _ Ht). split; [done |].
  clear He. revert Ht. unfold captureScreenshotOnce.
  assert (Htry : exists ok rest,
             trace (captureScreenshotOnce_try parseURL options sc w).2
             = trace w ++ EvNewContext h (context_options options) ok :: rest).
  { unfold captureScreenshotOnce_try, createContext.
    rewrite (getBrowser_reuse sc w h Hb Hc).
    unfold setupAdBlocking, waitForPage, emit.
    repeat case_match; simplify_eq/=; eexists _, _; rewrite <- ?app_assoc; reflexivity. }
  destruct (captureScreenshotOnce_try parseURL options sc w) as [[r l] w1].
  rewrite BrowserSpec.finally_shape. cbn [snd trace] in *.
  destruct Htry as (ok & rest & ->). rewrite <- app_assoc. cbn [app].
  intros Heq. apply app_inv_head in Heq as <-. by eexists _, _.
Qed.

Lemma connected_browser_reused_witness :
  launches (captureScreenshotOnce (fun _ => None) example_request crashing started).2
  = launches started.
Proof.
  destruct (connected_browser_reused (fun _ => None) example_request crashing started 0%nat
              eq_refl eq_refl) as (_ & H & _).
  exact H.
Defined.

(** *** No browser is left behind *)

Lemma count_zero_elem (p : Event -> bool) (t : list Event) (e : Event) :
  count p t = 0%nat -> e ∈ t -> p e = false.
Proof.
  unfold count. induction t as [|x t IH]; [by intros _ ?%elem_of_nil |].
  cbn [List.filter]. intros Hc Hin. destruct (p x) eqn:Hx; [done |].
  apply elem_of_cons in Hin as [-> | Hin]; [done | by apply IH].
Qed.

Lemma getBrowser_ok (sc : Script) (w : World) :
  handles_ok w ->
  let g := (getBrowser sc w).2 in
  handles_ok g /\ (launches w <= launches g <= S (launches w))%nat.
Proof.
  intros (Hf & Hk & Hc). unfold handles_ok.
  unfold getBrowser, close_and_forget, emit, set_browser.
  destruct w as [br n t]. cbn [browser launches trace] in *.
  destruct br as [h0|]; [destruct (isConnected sc) |]; destruct (launch sc) as [[]|e];
    cbn [snd browser launches trace];
    (split; [| lia]);
    (split; [| split]); intros h Hx;
    rewrite ?elem_of_app, ?list_elem_of_singleton in *;
    try (pose proof (Hf h0 eq_refl) as Hf0);
    pose proof (Hf h) as Hfh; pose proof (Hk h) as Hkh;
    try (destruct (decide (h = n)) as [-> | Hne]);
    try (destruct (Hc h ltac:(lia)) as [Hch | Hch]);
    intuition (simplify_eq; try solve [auto | lia | left; f_equal; lia]).
Qed.

Lemma close_and_forget_ok (w : World) :
  handles_ok w ->
  handles_ok (close_and_forget w) /\ launches (close_and_forget w) = launches w.
Proof.
  intros (Hf & Hk & Hc). unfold handles_ok.
  unfold close_and_forget, emit, set_browser.
  destruct w as [br n t]. cbn [browser launches trace] in *.
  destruct br as [h0|]; cbn [browser launches trace]; [| done].
  split; [| done]. split; [done |].
  split; intros h; rewrite elem_of_app, list_elem_of_singleton.
  - intros [Hin | [= ->]]; [by apply Hk | by apply Hf].
  - intros Hh. right. destruct (Hc h Hh) as [[= ->] | Hin]; [by right | by left].
Qed.

Lemma attempt_ok (parseURL : string -> option URL) (options : ScreenshotRequest)
    (scripts : nat -> Script) (n : nat) (w : World) :
  handles_ok w ->
  let out := attempt_at parseURL options scripts n w in
  handles_ok out.2 /\ (launches w <= launches out.2 <= S (launches w))%nat.
Proof.
  intros (Hf & Hk & Hc). cbv zeta. unfold attempt_at.
  set (w0 := emit (EvAttempt n) w).
  assert (H0 : handles_ok w0).
  { unfold handles_ok, w0, emit. cbn [browser launches trace].
    split; [done |]. split; intros h; rewrite elem_of_app, list_elem_of_singleton.
    - intros [Hin | [=]]. by apply Hk.
    - intros Hh. destruct (Hc h Hh) as [? | Hin]; [by left | right; by left]. }
  destruct (getBrowser_ok (scripts n) w0 H0) as ((Hfg & Hkg & Hcg) & Hlg).
  destruct (once_engine parseURL options (scripts n) w0) as (Hb & Hl & t & Ht & He & _).
  split; [| by rewrite Hl].
  split; [| split]; intros h; rewrite ?Hb, ?Hl, ?Ht, ?elem_of_app.
  - apply Hfg.
  - intros [Hin | Hin]; [by apply Hkg |].
    by pose proof (count_zero_elem _ _ _ He Hin).
  - intros Hh. destruct (Hcg h Hh) as [? | ?]; [by left | right; by left].
Qed.

Lemma loop_ok (parseURL : string -> option URL) (options : ScreenshotRequest)
    (scripts : nat -> Script) (k n : nat) (last : option Thrown) (w : World) :
  handles_ok w ->
  let out := captureScreenshot_loop parseURL options scripts k n last w in
  handles_ok out.2 /\ (launches w <= launches out.2 <= launches w + k)%nat.
Proof.
  revert n last w. induction k as [|k IH]; intros n last w Hok; cbv zeta.
  - cbn. split; [done | lia].
  - rewrite BrowserSpec.loop_S.
    destruct (attempt_ok parseURL options scripts n w Hok) as (Hok1 & Hl1).
    destruct (attempt_at parseURL options scripts n w) as [[b|e] w1]; cbn [snd] in *.
    + split; [done | lia].
    + destruct (retryable (message_text (as_Error e))).
      * destruct (close_and_forget_ok w1 Hok1) as (Hok2 & Hl2).
        destruct (IH (S n) (Some (as_Error e)) (close_and_forget w1) Hok2)
          as (Hok3 & Hl3).
        split; [done | lia].
      * cbn [snd]. split; [done | lia].
Qed.

(** X15. No browser is left behind. Suppose the handles are accounted
    for: the browser the module holds and the browsers closed so far were
    launched, and every browser launched so far is the one it holds or has
    been closed (as at start-up, with nothing launched). Then the same is
    true after a capture, however it ends; the capture launches at most
    three browsers; and each browser it launched is, at the end, the one
    the module holds or was closed during the capture. *)
Theorem no_browser_left_behind (parseURL : string -> option URL)
    (options : ScreenshotRequest) (scripts : nat -> Script) (w : World) :
  handles_ok w ->
  let out := captureScreenshot parseURL options scripts w in
  handles_ok out.2 /\
  (launches w <= launches out.2 <= launches w + 3)%nat /\
  (forall h, (launches w <= h < launches out.2)%nat ->
     browser out.2 = Some h \/ EvBrowserClose h ∈ new_events w out.2).
Proof.
  intros Hok. cbv zeta. unfold captureScreenshot, maxRetries.
  destruct (loop_ok parseURL options scripts 3 0 None w Hok) as (Hok' & Hl').
  split; [done |]. split; [done |].
  intros h Hh. destruct Hok' as (_ & _ & Hc'). destruct Hok as (_ & Hk & _).
  destruct (Hc' h ltac:(lia)) as [? | Hin]; [by left | right].
  destruct (BrowserSpec.loop_attempts parseURL options scripts 3 0 None w)
    as (t & Ht & _).
  rewrite (BrowserSpec.new_events_app _ _ _ Ht).
  rewrite Ht, elem_of_app in Hin. destruct Hin as [Hin | Hin]; [| done].
  specialize (Hk h Hin). lia.
Qed.

Lemma no_browser_left_behind_witness :
  (launches (captureScreenshot (fun _ => None) example_request (fun _ => crashing)
               started).2 <= launches started + 3)%nat.
Proof.
  assert (Hok : handles_ok started).
  { unfold handles_ok, started. cbn [browser launches trace].
    split; [intros h [= <-]; lia |].
    split; [by intros h ?%elem_of_nil |].
    intros h Hh. left. f_equal. lia. }
  destruct (no_browser_left_behind (fun _ => None) example_request (fun _ => crashing)
              started Hok) as (_ & H & _).
  exact (proj2 H).
Defined.

End BrowserLaws.

(** ** Navigation failures, from [page.goto] to the reply *)

Module NavigationLaws.
Import Validators ErrorHandler Browser Prefixed.

Lemma toLowerCase_app (a b : string) :
  toLowerCase (a +:+ b) = toLowerCase a +:+ toLowerCase b.
Proof.
  induction a as [|c a IH]; [by rewrite !HashSpec.append_nil_l |].
  rewrite HashSpec.append_cons. cbn [toLowerCase]. by rewrite IH, HashSpec.append_cons.
Qed.

Lemma clash_startsWith (s p h : string) :
  clash s p = true -> startsWith (s +:+ h) p = false.
Proof.
  revert s. induction p as [|a p IH]; intros s; [done |].
  destruct s as [|b s]; [done |].
  rewrite HashSpec.append_cons. cbn [clash startsWith].
  destruct (Ascii.eqb a b); [| done]. intros H. by rewrite IH.
Qed.

Lemma includes_skip (s p h : string) :
  all_clash s p = true -> includes (s +:+ h) p = includes h p.
Proof.
  induction s as [|c s IH]; [by rewrite HashSpec.append_nil_l |].
  cbn [all_clash]. rewrite andb_true_iff. intros [Hc Hs].
  rewrite HashSpec.append_cons. cbn [includes].
  rewrite <- HashSpec.append_cons, (clash_startsWith _ _ _ Hc). cbn [orb]. by apply IH.
Qed.

Lemma matches_skip (prefix : string) (e : PatternEntry) (h : string) :
  table_clear prefix [e] = true ->
  matches (pattern e) (prefix +:+ h) = matches (pattern e) h.
Proof.
  unfold table_clear. cbn [forallb]. rewrite andb_true_r.
  destruct (pattern e) as [[lit] | s]; cbn [matches test]; intros Hc.
  - rewrite toLowerCase_app. by apply includes_skip.
  - by apply includes_skip.
Qed.

Lemma no_match_skip (prefix : string) (table : list PatternEntry) (h : string) :
  table_clear prefix table = true ->
  no_match table h -> no_match table (prefix +:+ h).
Proof.
  unfold no_match. intros Hc Hn. induction Hn as [|e table He _ IH]; [constructor |].
  unfold table_clear in Hc. cbn [forallb] in Hc. apply andb_true_iff in Hc as [Hce Hct].
  constructor; [| by apply IH].
  rewrite matches_skip; [done |]. unfold table_clear. cbn [forallb]. by rewrite Hce.
Qed.

Lemma no_match_index (m : string) : no_match ERROR_PATTERNS m -> no_match ERROR_PATTERNS_index m.
Proof.
  unfold no_match. rewrite !Forall_forall.
  intros H e He. apply H. apply list_elem_of_In. apply list_elem_of_In in He.
  unfold ERROR_PATTERNS, ERROR_PATTERNS_index in *. cbn [In] in *. tauto.
Qed.

Lemma unmatched_is_default (m : string) :
  no_match ERROR_PATTERNS m ->
  onError (JsError m) = default_reply /\ errorHandler_catch (JsError m) = default_reply.
Proof.
  intros Hn. split.
  - unfold onError. by rewrite (ErrorHandlerSpec.onError_loop_none _ _ (no_match_index m Hn)).
  - unfold errorHandler_catch, classifyError.
    by rewrite (ErrorHandlerSpec.classify_from_none _ _ Hn).
Qed.

Lemma retryable_skip (prefix h : string) :
  all_clash prefix "closed" && all_clash prefix "Target page"
    && all_clash prefix "Protocol error" = true ->
  retryable (prefix +:+ h) = retryable h.
Proof.
  rewrite !andb_true_iff. intros [[H1 H2] H3]. unfold retryable.
  by rewrite !includes_skip.
Qed.

Lemma timeout_text (u : string) :
  test (LiteralI "timeout") ("Timeout navigating to " +:+ u) = true.
Proof.
  apply test_literal. exists "", (" navigating to " +:+ toLowerCase u).
  by rewrite toLowerCase_app.
Qed.

(** The retry of a text that starts with a prefix in which none of the
    three literals can begin depends on what follows the prefix. *)
Lemma retry_named (prefix h : string) :
  all_clash prefix "closed" && all_clash prefix "Target page"
    && all_clash prefix "Protocol error" = true ->
  retryable (prefix +:+ h) = true <->
  (exists a b, h = a +:+ "closed" +:+ b) \/
  (exists a b, h = a +:+ "Target page" +:+ b) \/
  (exists a b, h = a +:+ "Protocol error" +:+ b).
Proof. intros Hc. by rewrite (retryable_skip _ _ Hc), BrowserSpec.retryable_exact. Qed.

(** An attempt that gets as far as [page.goto] ends with what the
    navigation throws. *)
Lemma attempt_navigation (parseURL : string -> option URL) (options : ScreenshotRequest)
    (sc : Script) (w : World) (e : Thrown) :
  launch sc = Return tt -> newContext sc = Return tt -> newPage sc = Return tt ->
  route sc = Return tt -> navigate parseURL options sc = Throw e ->
  (captureScreenshotOnce parseURL options sc w).1 = Throw e.
Proof.
  intros Hl Hc Hp Hr Hn. unfold captureScreenshotOnce.
  assert (Htry : (captureScreenshotOnce_try parseURL options sc w).1.1 = Throw e).
  { unfold captureScreenshotOnce_try, createContext, getBrowser, setupAdBlocking.
    rewrite Hl, Hc, Hp, Hr, Hn. repeat case_match; simplify_eq/=; done. }
  destruct (captureScreenshotOnce_try parseURL options sc w) as [[r l] w1].
  rewrite BrowserSpec.finally_shape. cbn [fst] in *. done.
Qed.

(** The capture goes on to a second attempt exactly when the failure of
    the first is one the loop retries. *)
Lemma second_attempt_iff (parseURL : string -> option URL) (options : ScreenshotRequest)
    (scripts : nat -> Script) (w : World) :
  (2 <= attempts (new_events w (captureScreenshot parseURL options scripts w).2))%nat <->
  retried (attempt_at parseURL options scripts 0 w).1 = true.
Proof.
  unfold captureScreenshot, maxRetries. rewrite BrowserSpec.loop_S.
  destruct (BrowserSpec.attempt_at_shape parseURL options scripts 0 w) as (t0 & Ht0 & Ha0 & _).
  destruct (attempt_at parseURL options scripts 0 w) as [[b|e] w0];
    cbn [fst snd retried] in *.
  - rewrite (BrowserSpec.new_events_app _ _ _ Ht0). unfold attempts.
    rewrite BrowserSpec.count_attempt_cons, Ha0. split; [lia | done].
  - destruct (retryable (message_text (as_Error e))).
    + destruct (BrowserSpec.close_and_forget_shape w0) as (_ & tc & Htc & Hac & _).
      destruct (BrowserSpec.loop_attempts parseURL options scripts 2 1 (Some (as_Error e))
                  (close_and_forget w0)) as (t' & Ht' & _ & Hge).
      rewrite Htc, Ht0, <- !app_assoc in Ht'.
      rewrite (BrowserSpec.new_events_app _ _ _ Ht'). unfold attempts in *.
      rewrite !BrowserSpec.count_app, BrowserSpec.count_attempt_cons.
      split; [done | lia].
    + cbn [snd]. rewrite (BrowserSpec.new_events_app _ _ _ Ht0). unfold attempts.
      rewrite BrowserSpec.count_attempt_cons, Ha0. split; [lia | done].
Qed.

(** X16. What a failed navigation leads to. The first attempt of a
    capture gets as far as [page.goto], which fails with a text [msg], for a
    request whose URL parses:
    - [msg] contains "ERR_NAME_NOT_RESOLVED": the attempt throws "Could not
      resolve domain: " followed by the host name; for a host name that
      matches no entry of the tables, both handlers answer this text with
      [INTERNAL_ERROR], status 500 and the generic message (the entry
      [INVALID_URL], 400, of the tables no longer applies to it);
    - else [msg] contains "ERR_CONNECTION_REFUSED": the same with
      "Connection refused by ";
    - else [msg] contains "ERR_CONNECTION_TIMED_OUT" or "Timeout": the
      attempt throws "Timeout navigating to " followed by the URL, and both
      handlers answer [TIMEOUT], status 504, whatever the URL;
    - else the attempt throws the error of [page.goto] as it is.
    The capture makes a second attempt exactly when "closed", "Target page"
    or "Protocol error" occurs in the host name in the first two cases, in
    the URL of the request in the third, in the text of the error in the
    last. *)
Theorem navigation_failure_replies (parseURL : string -> option URL)
    (options : ScreenshotRequest) (scripts : nat -> Script) (w : World)
    (e : Thrown) (parsed : URL) :
  launch (scripts 0%nat) = Return tt -> newContext (scripts 0%nat) = Return tt ->
  newPage (scripts 0%nat) = Return tt -> route (scripts 0%nat) = Return tt ->
  goto (scripts 0%nat) = Throw e ->
  parseURL (url options) = Some parsed ->
  let msg := message_text e in
  let host := hostname parsed in
  let first := (attempt_at parseURL options scripts 0 w).1 in
  let again :=
    (2 <= attempts (new_events w (captureScreenshot parseURL options scripts w).2))%nat in
  let named (s : string) :=
    (exists a b, s = a +:+ "closed" +:+ b) \/
    (exists a b, s = a +:+ "Target page" +:+ b) \/
    (exists a b, s = a +:+ "Protocol error" +:+ b) in
  let timeout_reply :=
    {| reply_body := {| error_code := TIMEOUT;
                        error_message := "The page took too long to load";
                        retryAfter := None |};
       reply_status := 504 |} in
  (includes msg "ERR_NAME_NOT_RESOLVED" = true ->
     first = Throw (JsError ("Could not resolve domain: " +:+ host)) /\
     (again <-> named host) /\
     (no_match ERROR_PATTERNS host ->
        onError (JsError ("Could not resolve domain: " +:+ host)) = default_reply /\
        errorHandler_catch (JsError ("Could not resolve domain: " +:+ host))
          = default_reply)) /\
  (includes msg "ERR_NAME_NOT_RESOLVED" = false ->
   includes msg "ERR_CONNECTION_REFUSED" = true ->
     first = Throw (JsError ("Connection refused by " +:+ host)) /\
     (again <-> named host) /\
     (no_match ERROR_PATTERNS host ->
        onError (JsError ("Connection refused by " +:+ host)) = default_reply /\
        errorHandler_catch (JsError ("Connection refused by " +:+ host)) = default_reply)) /\
  (includes msg "ERR_NAME_NOT_RESOLVED" = false ->
   includes msg "ERR_CONNECTION_REFUSED" = false ->
   includes msg "ERR_CONNECTION_TIMED_OUT" || includes msg "Timeout" = true ->
     first = Throw (JsError ("Timeout navigating to " +:+ url options)) /\
     (again <-> named (url options)) /\
     onError (JsError ("Timeout navigating to " +:+ url options)) = timeout_reply /\
     errorHandler_catch (JsError ("Timeout navigating to " +:+ url options))
       = timeout_reply) /\
  (includes msg "ERR_NAME_NOT_RESOLVED" = false ->
   includes msg "ERR_CONNECTION_REFUSED" = false ->
   includes msg "ERR_CONNECTION_TIMED_OUT" || includes msg "Timeout" = false ->
     first = Throw e /\ (again <-> named (message_text (as_Error e)))).
Proof.
  intros Hl Hc Hp Hr Hgoto Hparse. cbv zeta.
  assert (Hfirst : forall e', navigate parseURL options (scripts 0%nat) = Throw e' ->
            (attempt_at parseURL options scripts 0 w).1 = Throw e' /\
            ((2 <= attempts (new_events w (captureScreenshot parseURL options scripts w).2))%nat
             <-> retryable (message_text (as_Error e')) = true)).
  { intros e' He'.
    pose proof (attempt_navigation parseURL options (scripts 0%nat)
                  (emit (EvAttempt 0) w) e' Hl Hc Hp Hr He') as Ha.
    fold (attempt_at parseURL options scripts 0 w) in Ha.
    split; [done |]. rewrite second_attempt_iff, Ha. done. }
  revert Hfirst. unfold navigate, new_URL. rewrite Hgoto, Hparse.
  cbn [mbind completion_bind]. intros Hfirst.
  split; [| split; [| split]].
  - intros Hm. rewrite Hm in Hfirst. destruct (Hfirst _ eq_refl) as [H1 H2].
    split; [done |]. split.
    + rewrite H2. cbn [as_Error message_text]. by apply retry_named.
    + intros Hn. apply unmatched_is_default, no_match_skip; [reflexivity | done].
  - intros Hm1 Hm2. rewrite Hm1, Hm2 in Hfirst. destruct (Hfirst _ eq_refl) as [H1 H2].
    split; [done |]. split.
    + rewrite H2. cbn [as_Error message_text]. by apply retry_named.
    + intros Hn. apply unmatched_is_default, no_match_skip; [reflexivity | done].
  - intros Hm1 Hm2 Hm3. rewrite Hm1, Hm2, Hm3 in Hfirst.
    destruct (Hfirst _ eq_refl) as [H1 H2].
    split; [done |]. split.
    + rewrite H2. cbn [as_Error message_text]. by apply retry_named.
    + pose proof (timeout_text (url options)) as Ht.
      unfold onError, errorHandler_catch, classifyError, ERROR_PATTERNS, ERROR_PATTERNS_index.
      cbn [onError_loop classify_from pattern entry matches]. by rewrite Ht.
  - intros Hm1 Hm2 Hm3. rewrite Hm1, Hm2, Hm3 in Hfirst.
    destruct (Hfirst _ eq_refl) as [H1 H2].
    split; [done |]. rewrite H2. apply BrowserSpec.retryable_exact.
Qed.

(** The name [closed.example.org] does not resolve: the capture is told
    so by the first attempt and goes on to a second one. *)
Lemma navigation_failure_replies_witness :
  let parser (s : string) :=
    if String.eqb s "https://closed.example.org/"
    then Some {| protocol := "https:"; hostname := "closed.example.org" |} else None in
  let request :=
    {| url := "https://closed.example.org/"; width := None; height := None;
       fullPage := false; darkMode := false; blockAds := true; device := desktop;
       waitFor := networkidle; timeout := 30000 |} in
  let unresolved :=
    {| isConnected := true; launch := Return tt; newContext := Return tt;
       newPage := Return tt; route := Return tt;
       goto := Throw (JsError
                 "page.goto: net::ERR_NAME_NOT_RESOLVED at https://closed.example.org/");
       waitForLoadState := Return tt; waitForTimeout := Return tt;
       screenshot := Return None; page_close := Return tt; context_close := Return tt |} in
  (attempt_at parser request (fun _ => unresolved) 0 Samples.started).1
    = Throw (JsError "Could not resolve domain: closed.example.org") /\
  (2 <= attempts (new_events Samples.started
                    (captureScreenshot parser request (fun _ => unresolved)
                       Samples.started).2))%nat.
Proof.
  cbv zeta.
  destruct (navigation_failure_replies
              (fun s => if String.eqb s "https://closed.example.org/"
                        then Some {| protocol := "https:"; hostname := "closed.example.org" |}
                        else None)
              {| url := "https://closed.example.org/"; width := None; height := None;
                 fullPage := false; darkMode := false; blockAds := true; device := desktop;
                 waitFor := networkidle; timeout := 30000 |}
              (fun _ =>
                 {| isConnected := true; launch := Return tt; newContext := Return tt;
                    newPage := Return tt; route := Return tt;
                    goto := Throw (JsError
                      "page.goto: net::ERR_NAME_NOT_RESOLVED at https://closed.example.org/");
                    waitForLoadState := Return tt; waitForTimeout := Return tt;
                    screenshot := Return None; page_close := Return tt;
                    context_close := Return tt |})
              Samples.started
              (JsError "page.goto: net::ERR_NAME_NOT_RESOLVED at https://closed.example.org/")
              {| protocol := "https:"; hostname := "closed.example.org" |}
              eq_refl eq_refl eq_refl eq_refl eq_refl eq_refl) as (H & _).
  destruct (H eq_refl) as (Hfirst & Hagain & _).
  split; [exact Hfirst |].
  apply Hagain. left. by exists "", ".example.org".
Defined.

(** A navigation that times out is retried if the URL happens to contain
    one of the three words. *)
Example timeout_retried_for_url :
  retryable "Timeout navigating to https://example.com/closed-beta" = true /\
  retryable "Timeout navigating to https://example.com" = false.
Proof. split; reflexivity. Qed.

(** The text of Playwright would have been an [INVALID_URL], status 400;
    the text the attempt throws instead is an internal error. *)
Example dns_failure_is_internal_error :
  reply_status (onError (JsError "page.goto: net::ERR_NAME_NOT_RESOLVED at https://example.com"))
    = 400 /\
  onError (JsError "Could not resolve domain: example.com") = default_reply.
Proof. split; reflexivity. Qed.

End NavigationLaws.

(** ** Screenshot identifiers and the route that serves them *)

Module IdsLaws.
Import Config ErrorHandler Browser Hash Ids Serve.

Local Abbreviation chars := list_ascii_of_string.

Example toString36_examples :
  Number_toString36 0 = "0" /\ Number_toString36 35 = "z" /\ Number_toString36 36 = "10" /\
  Number_toString36 1295 = "zz" /\ Number_toString36 1700000000000 = "loyw3v28" /\
  Number_toString36 (-37) = "-11".
Proof. repeat split; reflexivity. Qed.

Example generateScreenshotId_example :
  generateScreenshotId 1700000000000 [ Byte.x0a; Byte.x1b; Byte.x2c; Byte.xff ]
  = "loyw3v28-0a1b2cff".
Proof. reflexivity. Qed.

(** *** Strings as lists of characters *)

Lemma chars_app (a b : string) : chars (a +:+ b) = chars a ++ chars b.
Proof.
  induction a as [|c a IH]; [done |].
  rewrite HashSpec.append_cons. cbn [list_ascii_of_string]. by rewrite IH.
Qed.

Lemma append_nil_r (s : string) : s +:+ "" = s.
Proof. induction s as [|c s IH]; [done |]. by rewrite HashSpec.append_cons, IH. Qed.

Lemma length_append (a b : string) :
  String.length (a +:+ b) = (String.length a + String.length b)%nat.
Proof.
  induction a as [|c a IH]; [done |].
  rewrite HashSpec.append_cons. cbn [String.length]. by rewrite IH.
Qed.

(** *** Base 36 *)

Lemma radix36_ok (d : Z) :
  0 <= d < 36 ->
  is_lower_alnum (radix36_digit d) = true /\ digit36_value (radix36_digit d) = d.
Proof.
  intros Hd.
  assert (H : forallb (fun k => let d := Z.of_nat k in
                         is_lower_alnum (radix36_digit d)
                         && (digit36_value (radix36_digit d) =? d)) (seq 0 36) = true)
    by reflexivity.
  rewrite forallb_forall in H. specialize (H (Z.to_nat d)).
  rewrite Z2Nat.id in H by lia. cbv zeta in H.
  destruct (andb_prop _ _ (H ltac:(apply in_seq; lia))) as [H1 H2].
  split; [done | by apply Z.eqb_eq].
Qed.

Lemma value36_snoc (ds : string) (c : ascii) :
  value36 (ds +:+ String c "") = 36 * value36 ds + digit36_value c.
Proof. unfold value36. by rewrite chars_app, fold_left_app. Qed.

Lemma digits36_spec (fuel : nat) (n : Z) (acc : string) :
  0 <= n < 2 ^ Z.of_nat fuel -> (0 < fuel)%nat ->
  exists ds, digits36 fuel n acc = ds +:+ acc /\ ds <> "" /\
             forallb is_lower_alnum (chars ds) = true /\ value36 ds = n.
Proof.
  revert n acc. induction fuel as [|fuel IH]; intros n acc Hn Hf; [lia |].
  cbn [digits36].
  pose proof (Z.mod_pos_bound n 36 ltac:(lia)) as Hm.
  destruct (radix36_ok (n mod 36) Hm) as [Hd Hv].
  pose proof (Z.div_mod n 36 ltac:(lia)) as Hdm.
  destruct (Z.eqb_spec (n / 36) 0) as [Hz | Hnz].
  - exists (String (radix36_digit (n mod 36)) ""). split; [done |]. split; [done |].
    split; [cbn; by rewrite Hd |].
    unfold value36. cbn. rewrite Hv. lia.
  - assert (Hq : 0 <= n / 36 < 2 ^ Z.of_nat fuel).
    { split; [apply Z.div_pos; lia |].
      apply Z.div_lt_upper_bound; [lia |].
      rewrite Nat2Z.inj_succ, Z.pow_succ_r in Hn by lia. lia. }
    assert (Hf' : (0 < fuel)%nat).
    { destruct fuel; [| lia]. cbn in Hq. lia. }
    destruct (IH (n / 36) (String (radix36_digit (n mod 36)) acc) Hq Hf')
      as (ds & Heq & Hne & Hall & Hval).
    exists (ds +:+ String (radix36_digit (n mod 36)) "").
    split; [by rewrite Heq, HashSpec.append_assoc |].
    split; [by destruct ds |].
    split.
    + rewrite chars_app, forallb_app, Hall. cbn. by rewrite Hd.
    + rewrite value36_snoc, Hval, Hv. lia.
Qed.

Lemma toString36_spec (n : Z) :
  0 <= n ->
  Number_toString36 n <> "" /\
  forallb is_lower_alnum (chars (Number_toString36 n)) = true /\
  value36 (Number_toString36 n) = n.
Proof.
  intros Hn. unfold Number_toString36.
  destruct (Z.ltb_spec n 0) as [? | _]; [lia |].
  assert (Hb : 0 <= n < 2 ^ Z.of_nat (S (Z.to_nat (Z.log2 n)))).
  { rewrite Nat2Z.inj_succ, Z2Nat.id by apply Z.log2_nonneg.
    destruct (Z.eq_dec n 0) as [-> | Hnz]; [cbn; lia |].
    pose proof (Z.log2_spec n ltac:(lia)). lia. }
  destruct (digits36_spec _ n "" Hb ltac:(lia)) as (ds & Heq & Hne & Hall & Hval).
  rewrite Heq, append_nil_r. done.
Qed.

(** *** Hexadecimal *)

Lemma hex_byte (b : Byte.byte) :
  let n := Byte.to_N b in
  Byte.of_N (16 * unhex (hex_digit (n / 16)) + unhex (hex_digit (n mod 16))) = Some b /\
  is_hex (hex_digit (n / 16)) = true /\ is_hex (hex_digit (n mod 16)) = true.
Proof. destruct b; repeat split; reflexivity. Qed.

Lemma is_hex_alnum (c : ascii) : is_hex c = true -> is_lower_alnum c = true.
Proof.
  unfold is_hex, is_lower_alnum.
  destruct (N.leb_spec 48 (N_of_ascii c)), (N.leb_spec (N_of_ascii c) 57),
    (N.leb_spec 97 (N_of_ascii c)), (N.leb_spec (N_of_ascii c) 102),
    (N.leb_spec (N_of_ascii c) 122); cbn; try done; lia.
Qed.

Lemma hex_spec (bytes : list Byte.byte) :
  bytes_of_hex (Buffer_toString_hex bytes) = bytes /\
  forallb is_lower_alnum (chars (Buffer_toString_hex bytes)) = true /\
  String.length (Buffer_toString_hex bytes) = (2 * length bytes)%nat.
Proof.
  induction bytes as [|b bytes (IH1 & IH2 & IH3)]; [done |].
  destruct (hex_byte b) as (Hb & H1 & H2).
  cbn [Buffer_toString_hex bytes_of_hex]. cbv zeta in Hb. rewrite Hb, IH1.
  split; [done |]. split.
  - cbn [list_ascii_of_string forallb].
    by rewrite (is_hex_alnum _ H1), (is_hex_alnum _ H2), IH2.
  - cbn [String.length length]. rewrite IH3. lia.
Qed.

(** *** The name of a file *)

Lemma alnum_name_char (c : ascii) : is_lower_alnum c = true -> is_name_char c = true.
Proof.
  unfold is_lower_alnum, is_name_char.
  destruct (N.leb_spec 48 (N_of_ascii c)), (N.leb_spec (N_of_ascii c) 57),
    (N.leb_spec 97 (N_of_ascii c)), (N.leb_spec (N_of_ascii c) 122),
    (N.leb_spec 65 (N_of_ascii c)), (N.leb_spec (N_of_ascii c) 90); cbn; try done.
Qed.

Lemma span_name_spec (s : string) :
  let '(stem, rest) := span_name s in
  s = stem +:+ rest /\ forallb is_name_char (chars stem) = true.
Proof.
  induction s as [|c s IH]; [done |]. cbn [span_name].
  destruct (is_name_char c) eqn:Hc; [| done].
  destruct (span_name s) as [stem rest]. destruct IH as (-> & Hall).
  split; [done |]. cbn. by rewrite Hc.
Qed.

Lemma span_name_app (stem : string) (c : ascii) (r : string) :
  forallb is_name_char (chars stem) = true -> is_name_char c = false ->
  span_name (stem +:+ String c r) = (stem, String c r).
Proof.
  intros Hall Hc. induction stem as [|x stem IH].
  - rewrite HashSpec.append_nil_l. cbn [span_name]. by rewrite Hc.
  - cbn in Hall. apply andb_true_iff in Hall as [Hx Hall].
    rewrite HashSpec.append_cons. cbn [span_name]. by rewrite Hx, (IH Hall).
Qed.

Lemma lower_dot (c : ascii) : lower_ascii c = "."%char -> c = "."%char.
Proof. destruct c as [[] [] [] [] [] [] [] []]; vm_compute; congruence. Qed.

Lemma lower_name_char (c x : ascii) :
  lower_ascii c = x -> is_name_char x = true -> is_name_char c = true.
Proof. intros <-. destruct c as [[] [] [] [] [] [] [] []]; vm_compute; congruence. Qed.

Lemma lower_png (ext : string) :
  toLowerCase ext = ".png" ->
  exists p n g, ext = String "." (String p (String n (String g ""))) /\
                is_name_char p = true /\ is_name_char n = true /\ is_name_char g = true.
Proof.
  destruct ext as [|c0 [|c1 [|c2 [|c3 [|c4 ext]]]]]; cbn [toLowerCase]; try done.
  intros [= H0 H1 H2 H3]. apply lower_dot in H0 as ->. eexists _, _, _.
  split; [done |].
  repeat split; eapply lower_name_char; try eassumption; reflexivity.
Qed.

Lemma not_dot_name (c : ascii) : is_name_char c = true -> Ascii.eqb "." c = false.
Proof. destruct c as [[] [] [] [] [] [] [] []]; vm_compute; congruence. Qed.

(** The stem holds no dot, so the first [.png] of the name, if any, is
    its extension. *)
Lemma replace_first_stem (stem ext : string) :
  forallb is_name_char (chars stem) = true ->
  replace_first (stem +:+ ext) ".png" = stem +:+ replace_first ext ".png".
Proof.
  intros Hall. induction stem as [|x stem IH]; [by rewrite !HashSpec.append_nil_l |].
  cbn in Hall. apply andb_true_iff in Hall as [Hx Hall].
  rewrite !HashSpec.append_cons. cbn [replace_first startsWith].
  by rewrite (not_dot_name x Hx), (IH Hall).
Qed.

Lemma replace_first_ext (p n g : ascii) :
  replace_first (String "." (String p (String n (String g "")))) ".png" =
  if String.eqb (String "." (String p (String n (String g "")))) ".png" then ""
  else String "." (String p (String n (String g ""))).
Proof.
  destruct (String.eqb_spec (String "." (String p (String n (String g "")))) ".png")
    as [[= -> -> ->] | Hne]; [reflexivity |].
  cbn [replace_first startsWith String.length drop_chars].
  rewrite !andb_false_r, ?andb_true_r.
  change (Ascii.eqb "." ".") with true. cbn [andb].
  destruct (Ascii.eqb_spec "p" p) as [Ep | _]; [| done].
  destruct (Ascii.eqb_spec "n" n) as [En | _]; [| done].
  destruct (Ascii.eqb_spec "g" g) as [Eg | _]; [| done].
  congruence.
Qed.

Lemma filename_match_parts (filename : string) :
  filename_match filename = true <->
  exists stem ext, filename = stem +:+ ext /\ stem <> "" /\
                   forallb is_name_char (chars stem) = true /\ toLowerCase ext = ".png".
Proof.
  unfold filename_match. split.
  - pose proof (span_name_spec filename) as Hs.
    destruct (span_name filename) as [stem rest]. destruct Hs as (-> & Hall).
    rewrite andb_true_iff, negb_true_iff, String.eqb_neq, String.eqb_eq.
    intros [Hne Hext]. by exists stem, rest.
  - intros (stem & ext & -> & Hne & Hall & Hext).
    destruct (lower_png ext Hext) as (p & n & g & -> & _).
    rewrite span_name_app by done.
    rewrite andb_true_iff, negb_true_iff, String.eqb_neq, String.eqb_eq. done.
Qed.

Lemma name_chars_exclude (s : string) (c : ascii) :
  forallb is_name_char (chars s) = true -> is_name_char c = false -> c ∉ chars s.
Proof.
  intros Hall Hc Hin. rewrite forallb_forall in Hall.
  apply list_elem_of_In in Hin. specialize (Hall c Hin). congruence.
Qed.

(** X17. The file names [GET /screenshots/:filename] accepts, and the
    identifier it asks the storage for. A name is accepted exactly when it
    is a non-empty run of letters, digits and hyphens followed by [.png]
    in any case. For an accepted name the identifier is the name without
    its extension if the extension is [.png] in lower case, and the whole
    name otherwise (the extension is then not removed); in both cases it
    holds neither a slash nor a backslash, and the part before the
    extension holds no dot, so it names no other directory. A name that is
    not accepted is answered [NOT_FOUND], status 404, whatever the storage
    holds. *)
Theorem served_names (cfg : Config)
    (getScreenshot : string -> completion (option Buffer)) (filename : string) :
  (filename_match filename = true <->
     exists stem ext, filename = stem +:+ ext /\ stem <> "" /\
                      forallb is_name_char (chars stem) = true /\
                      toLowerCase ext = ".png") /\
  (forall stem ext,
     filename = stem +:+ ext -> stem <> "" ->
     forallb is_name_char (chars stem) = true -> toLowerCase ext = ".png" ->
     let id := replace_first filename ".png" in
     id = (if String.eqb ext ".png" then stem else filename) /\
     ("/"%char ∉ chars id) /\ (backslash ∉ chars id) /\
     ("."%char ∉ chars stem)) /\
  (filename_match filename = false ->
     serve_get cfg getScreenshot filename = Throw (AppError NOT_FOUND "Invalid filename" 404) /\
     app_serve_get cfg getScreenshot filename =
       inr {| reply_body := {| error_code := NOT_FOUND; error_message := "Invalid filename";
                               retryAfter := None |};
              reply_status := 404 |}).
Proof.
  split; [apply filename_match_parts |]. split.
  - intros stem ext -> Hne Hall Hext. cbv zeta.
    destruct (lower_png ext Hext) as (p & n & g & -> & Hp & Hn & Hg).
    rewrite replace_first_stem, replace_first_ext by done.
    assert (Hout : forall c, is_name_char c = false -> c <> "."%char ->
              c ∉ chars (stem +:+
                         (if String.eqb (String "." (String p (String n (String g ""))))
                               ".png"
                          then ""
                          else String "." (String p (String n (String g "")))))).
    { intros c Hc Hdot. rewrite chars_app, elem_of_app. intros [Hin | Hin].
      - by apply (name_chars_exclude stem c).
      - destruct (String.eqb _ ".png"); [by apply elem_of_nil in Hin |].
        cbn in Hin. rewrite !elem_of_cons in Hin.
        destruct Hin as [-> | [-> | [-> | [-> | Hin]]]]; try congruence.
        by apply elem_of_nil in Hin. }
    split; [| split; [| split]].
    + destruct (String.eqb _ ".png"); [by rewrite append_nil_r | done].
    + by apply Hout.
    + by apply Hout.
    + by apply name_chars_exclude.
  - intros Hno. unfold app_serve_get, serve_get. rewrite Hno.
    rewrite orb_true_r. done.
Qed.

Example upper_case_extension_kept :
  filename_match "abc.PNG" = true /\ replace_first "abc.PNG" ".png" = "abc.PNG".
Proof. split; reflexivity. Qed.

Example traversal_refused :
  filename_match "../secret.png" = false /\ filename_match "a/b.png" = false /\
  filename_match ".png" = false.
Proof. repeat split; reflexivity. Qed.

(** *** Identifiers *)

Lemma id_parts (now : Z) (randomBytes : list Byte.byte) :
  0 <= now ->
  forallb is_lower_alnum (chars (Number_toString36 now)) = true /\
  forallb is_lower_alnum (chars (Buffer_toString_hex randomBytes)) = true /\
  forallb is_name_char (chars (generateScreenshotId now randomBytes)) = true.
Proof.
  intros Hn. destruct (toString36_spec now Hn) as (_ & Hts & _).
  destruct (hex_spec randomBytes) as (_ & Hhex & _).
  split; [done |]. split; [done |].
  unfold generateScreenshotId. rewrite !chars_app, !forallb_app, !andb_true_iff.
  rewrite forallb_forall in Hts, Hhex.
  split; [| split; [reflexivity |]]; apply forallb_forall; intros c Hc;
    apply alnum_name_char; auto.
Qed.

(** X18. An identifier that [generateScreenshotId] makes is served under
    the URL [getScreenshotUrl] gives for it. For a clock reading that is
    not negative, the identifier is the reading in base 36, a hyphen and
    two hexadecimal digits per random byte, all letters in lower case.
    The last segment of its URL is accepted by [GET /screenshots/:filename],
    which asks the storage for exactly this identifier: if the storage
    holds an image for it, the response is 200 with that image, its length
    as [Content-Length] and the identifier in quotes as [ETag]; if it holds
    none, [NOT_FOUND], status 404. *)
Theorem generated_id_is_served (cfg : Config)
    (getScreenshot : string -> completion (option Buffer))
    (now : Z) (randomBytes : list Byte.byte) :
  0 <= now ->
  let id := generateScreenshotId now randomBytes in
  let filename := id +:+ ".png" in
  forallb (fun c => is_lower_alnum c || Ascii.eqb c "-") (chars id) = true /\
  String.length id
    = (String.length (Number_toString36 now) + 1 + 2 * length randomBytes)%nat /\
  Route.getScreenshotUrl cfg id = baseUrl cfg +:+ "/screenshots/" +:+ filename /\
  filename_match filename = true /\
  replace_first filename ".png" = id /\
  (forall b, getScreenshot id = Return (Some b) ->
     serve_get cfg getScreenshot filename =
       Return {| serve_status := 200; content_type := "image/png";
                 content_length := Number_toString (Z.of_nat (length b));
                 cache_control := "public, max-age="
                                  +:+ Number_toString (cacheTtl cfg / 1000)
                                  +:+ ", immutable";
                 etag := String dquote (id +:+ String dquote "");
                 serve_body := b |}) /\
  (getScreenshot id = Return None ->
     app_serve_get cfg getScreenshot filename =
       inr {| reply_body := {| error_code := NOT_FOUND;
                               error_message := "Screenshot not found";
                               retryAfter := None |};
              reply_status := 404 |}).
Proof.
  intros Hn. cbv zeta.
  destruct (id_parts now randomBytes Hn) as (Hts & Hhex & Hname).
  destruct (hex_spec randomBytes) as (_ & _ & Hlen).
  assert (Hne : generateScreenshotId now randomBytes <> "").
  { unfold generateScreenshotId.
    destruct (toString36_spec now Hn) as (Hne & _). by destruct (Number_toString36 now). }
  assert (Hlength : String.length (generateScreenshotId now randomBytes)
                    = (String.length (Number_toString36 now) + 1 + 2 * length randomBytes)%nat).
  { unfold generateScreenshotId. rewrite !length_append, Hlen. cbn. lia. }
  assert (Hclass : forallb (fun c => is_lower_alnum c || Ascii.eqb c "-")
                     (chars (generateScreenshotId now randomBytes)) = true).
  { unfold generateScreenshotId. rewrite !chars_app, !forallb_app, !andb_true_iff.
    rewrite forallb_forall in Hts, Hhex.
    split; [| split; [reflexivity |]]; apply forallb_forall; intros c Hc.
    - by rewrite (Hts c Hc).
    - by rewrite (Hhex c Hc). }
  set (id := generateScreenshotId now randomBytes) in *.
  assert (Hmatch : filename_match (id +:+ ".png") = true).
  { apply filename_match_parts. by exists id, ".png". }
  assert (Hrep : replace_first (id +:+ ".png") ".png" = id).
  { rewrite replace_first_stem by done. apply append_nil_r. }
  assert (Hnonempty : String.eqb (id +:+ ".png") "" = false).
  { apply String.eqb_neq. intros H. apply (f_equal String.length) in H.
    rewrite length_append in H. cbn in H. lia. }
  split; [done |]. split; [done |]. split.
  { reflexivity. }
  split; [done |]. split; [done |]. split.
  - intros b Hb. unfold serve_get. rewrite Hnonempty, Hmatch, Hrep, Hb. done.
  - intros Hb. unfold app_serve_get, serve_get. rewrite Hnonempty, Hmatch, Hrep, Hb. done.
Qed.

Lemma generated_id_is_served_witness :
  filename_match
    (generateScreenshotId 1700000000000 [ Byte.x0a; Byte.x1b; Byte.x2c; Byte.xff ]
     +:+ ".png") = true.
Proof.
  assert (Hn : 0 <= 1700000000000) by lia.
  destruct (generated_id_is_served defaults (fun _ => Return None) 1700000000000
              [ Byte.x0a; Byte.x1b; Byte.x2c; Byte.xff ] Hn) as (_ & _ & _ & H & _).
  exact H.
Defined.

Lemma toString36_inj (a b : Z) :
  0 <= a -> 0 <= b -> Number_toString36 a = Number_toString36 b -> a = b.
Proof.
  intros Ha Hb H. destruct (toString36_spec a Ha) as (_ & _ & <-).
  destruct (toString36_spec b Hb) as (_ & _ & <-). by rewrite H.
Qed.

Lemma hex_inj (l1 l2 : list Byte.byte) :
  Buffer_toString_hex l1 = Buffer_toString_hex l2 -> l1 = l2.
Proof.
  intros H. destruct (hex_spec l1) as (<- & _). destruct (hex_spec l2) as (<- & _).
  by rewrite H.
Qed.

(** X19. Identifiers do not collide by construction of the text. Two
    identifiers made at clock readings that are not negative are equal only
    if the readings are equal and the random bytes are the same: the text
    can be read back into both. *)
Theorem generated_ids_distinct (now now' : Z) (randomBytes randomBytes' : list Byte.byte) :
  0 <= now -> 0 <= now' ->
  generateScreenshotId now randomBytes = generateScreenshotId now' randomBytes' ->
  now = now' /\ randomBytes = randomBytes'.
Proof.
  intros Hn Hn' H. unfold generateScreenshotId in H.
  destruct (toString36_spec now Hn) as (_ & Hts & _).
  destruct (toString36_spec now' Hn') as (_ & Hts' & _).
  change ("-" +:+ Buffer_toString_hex randomBytes)
    with (String "-" (Buffer_toString_hex randomBytes)) in H.
  change ("-" +:+ Buffer_toString_hex randomBytes')
    with (String "-" (Buffer_toString_hex randomBytes')) in H.
  apply (HashSpec.run_cancel is_lower_alnum) in H as (Ht & _ & Hr); try done.
  split; [by apply toString36_inj | by apply hex_inj].
Qed.

Lemma generated_ids_distinct_witness :
  1700000000000 = 1700000000000 /\ [ Byte.x0a; Byte.xff ] = [ Byte.x0a; Byte.xff ].
Proof.
  assert (Hn : 0 <= 1700000000000) by lia.
  exact (generated_ids_distinct 1700000000000 1700000000000
           [ Byte.x0a; Byte.xff ] [ Byte.x0a; Byte.xff ] Hn Hn eq_refl).
Defined.

End IdsLaws.

(** ** The handler of [POST /screenshot]: calls and cache *)

Module RouteLaws.
Import Validators Hash Config Cache RateLimiter ErrorHandler Browser Route RouteShape Samples.

Section WithPlatform.
Variable parseURL : string -> option URL.
Variable zod_url : string -> option string.
Variable issues_text : option Body -> string.
Variable sha256_hex : string -> string.
Variable cfg : Config.

Local Abbreviation validate := (validateScreenshotRequest parseURL zod_url issues_text).
Local Abbreviation post := (post_screenshot parseURL zod_url issues_text sha256_hex cfg).
Local Abbreviation key := (generateCacheKey sha256_hex).

(** X20. The service calls of the handler, in order, and where each
    kind of answer comes from. For an invalid body there is no call. For
    a valid body the first call is [getCache(key)], with the key of the
    validated data. On a hit the only other call is the storage read
    [getScreenshot(id)] of the cached identifier, made exactly when the
    image is asked for; browser and cache stay as they were; the answer
    is 200 with [X-Cache: HIT]: the cached data, or the stored image when
    the image is asked for and storage has it (the cached data when
    storage has no file); a storage read that throws makes the handler
    throw that error. On a miss the calls are a prefix, of at least two,
    of [getCache(key); captureScreenshot; saveScreenshot(id);
    setCache(key)]. The handler answers 201 exactly when it made these
    four calls, and only then is the cache written; an answer with
    [X-Cache: HIT] is given only on a hit; whenever the handler throws,
    the cache holds nothing it did not hold before. *)
Theorem handler_call_protocol (rq : Request) (s : Server) :
  let out := post rq s in
  let calls := new_calls_of s out.2 in
  (forall error, validate (body rq) = Failure error -> calls = [] /\ out.2 = s) /\
  (forall request, validate (body rq) = Success request ->
     let hit := (getCache (cache s) (now_lookup rq) (key request)).1 in
     let miss_calls :=
       [ CallGetCache (key request); CallCaptureScreenshot;
         CallSaveScreenshot (screenshotId rq); CallSetCache (key request) ] in
     (forall cached, hit = Some cached ->
        calls = CallGetCache (key request) ::
                (if returnImage rq then [ CallGetScreenshot (id cached) ] else []) /\
        world out.2 = world s /\ cache out.2 = cache s /\
        out.1 = (if returnImage rq then
                   match getScreenshot rq with
                   | Return (Some buffer) => Return (Image 200 "HIT" buffer)
                   | Return None => Return (Json 200 "HIT" (response_of cfg cached))
                   | Throw e => Throw e
                   end
                 else Return (Json 200 "HIT" (response_of cfg cached)))) /\
     (hit = None -> calls `prefix_of` miss_calls /\ (2 <= length calls)%nat) /\
     (answered 201 "MISS" out.1 = true <-> calls = miss_calls) /\
     (answered 200 "HIT" out.1 = true -> exists cached, hit = Some cached)) /\
  (existsb is_setCache calls = true <-> answered 201 "MISS" out.1 = true) /\
  (threw out.1 = true -> cache out.2 ⊆ cache s) /\
  (threw out.1 = false ->
     answered 201 "MISS" out.1 = true \/ answered 200 "HIT" out.1 = true).
Proof.
  cbv zeta. unfold new_calls_of, post_screenshot.
  destruct (validate (body rq)) as [request | error].
  2: { cbn [fst snd]. rewrite drop_all.
       repeat split; try done; try (by intros [=]). }
  pose proof (RouteSpec.getCache_subseteq (cache s) (now_lookup rq) (key request)) as Hsub.
  assert (Hhit : forall a, (getCache (cache s) (now_lookup rq) (key request)).1 = Some a ->
                   (getCache (cache s) (now_lookup rq) (key request)).2 = cache s).
  { intros a. unfold getCache. destruct (cache s !! key request) as [e|]; [| done].
    by destruct (now_lookup rq >? expiresAt e). }
  destruct (getCache (cache s) (now_lookup rq) (key request))
    as [[cached|] cache'] eqn:Eg.
  { specialize (Hhit cached eq_refl). cbn [fst snd] in *. subst cache'.
    destruct (returnImage rq); [destruct (getScreenshot rq) as [[buffer|]|] |];
      cbn [fst snd calls logged with_cache world cache answered threw];
      rewrite <- ?app_assoc, RouteSpec.new_calls;
      (split; [by intros ? [=] |]);
      (split; [intros ? [= <-]; rewrite Eg; cbn [fst];
               split; [intros ? [= <-]; repeat split; done |];
               split; [by intros [=] |];
               split; [by split |]; intros _; by eexists |]);
      (split; [by split |]); (split; [done |]); intros; try done; by right. }
  cbn [world logged with_cache fst snd] in *.
  destruct (captureScreenshot parseURL request (scripts rq) (world s))
    as [[buffer|e] w'].
  2: { cbn [fst snd calls logged with_cache with_world cache answered threw].
       rewrite <- app_assoc, RouteSpec.new_calls.
       split; [by intros ? [=] |].
       split; [intros ? [= <-]; rewrite Eg; cbn [fst];
               split; [by intros ? [=] |];
               split; [intros _; split; [by eexists | cbn; lia] |];
               split; [by split | done] |].
       split; [by split |]. split; done. }
  destruct (saveScreenshot rq) as [[]|e].
  2: { cbn [fst snd calls logged with_cache with_world cache answered threw].
       rewrite <- !app_assoc, RouteSpec.new_calls.
       split; [by intros ? [=] |].
       split; [intros ? [= <-]; rewrite Eg; cbn [fst];
               split; [by intros ? [=] |];
               split; [intros _; split; [by eexists | cbn; lia] |];
               split; [by split | done] |].
       split; [by split |]. split; done. }
  destruct (returnImage rq);
    cbn [fst snd calls logged with_cache with_world cache answered threw];
    rewrite <- !app_assoc, RouteSpec.new_calls;
    (split; [by intros ? [=] |]);
    (split; [intros ? [= <-]; rewrite Eg; cbn [fst];
             split; [by intros ? [=] |];
             split; [intros _; split; [done | cbn; lia] |];
             split; [by split | done] |]);
    (split; [by split |]); (split; [done |]); intros; by left.
Qed.



Local Abbreviation app := (app_post_screenshot parseURL zod_url issues_text sha256_hex cfg).

(** The handler leaves the rate-limit store alone and records nothing. *)
Lemma post_frame (rq : Request) (s : Server) :
  rateLimitStore (post rq s).2 = rateLimitStore s /\
  exists l, calls (post rq s).2 = calls s ++ l /\ charges l = 0%nat.
Proof.
  unfold post_screenshot.
  destruct (validate (body rq)) as [request | error].
  2: { split; [done |]. exists []. by rewrite app_nil_r. }
  destruct (getCache (cache s) (now_lookup rq) (key request)) as [[cached|] cache'].
  { destruct (returnImage rq); [destruct (getScreenshot rq) as [[buffer|]|] |];
      (split; [done |]); cbn [snd calls logged with_cache]; rewrite <- ?app_assoc;
      by eexists. }
  cbn [world logged with_cache].
  destruct (captureScreenshot parseURL request (scripts rq) (world s))
    as [[buffer|e] w'].
  2: { split; [done |]. cbn [snd calls logged with_world]. rewrite <- app_assoc.
       by eexists. }
  destruct (saveScreenshot rq) as [[]|e].
  2: { split; [done |]. cbn [snd calls logged with_world with_cache].
       rewrite <- !app_assoc. by eexists. }
  destruct (returnImage rq); (split; [done |]);
    cbn [snd calls logged with_world with_cache]; rewrite <- !app_assoc; by eexists.
Qed.

(** X22. What a request costs at the rate limiter. Every request gets
    the three [X-RateLimit-*] headers, computed by the check made before
    anything is recorded. A request the limiter refuses is answered with
    the 429 reply and changes nothing at all. A request it lets through is
    recorded exactly once for its client key, before the handler runs,
    and this whatever the handler does afterwards: a validation error, an
    answer from the cache, a failed capture and a new image all cost the
    same one unit. What the handler throws reaches the client as the
    reply of [app.onError]; what it returns, as it is. *)
Theorem admitted_request_charged_once (rq : Request) (s : Server) :
  let ip := getClientIp (headers rq) in
  let check := checkRateLimit cfg (rateLimitStore s) (now_check rq) ip in
  let out := app rq s in
  out.1.1 = rate_headers cfg check /\
  (allowed check = false ->
     out.1.2 = Failed (rate_limit_reply cfg check) /\ out.2 = s) /\
  (allowed check = true ->
     let s1 := logged (CallRecordRequest ip)
                 (with_rateLimitStore
                    (recordRequest cfg (rateLimitStore s) (now_record rq) ip) s) in
     rateLimitStore out.2 = recordRequest cfg (rateLimitStore s) (now_record rq) ip /\
     (exists l, new_calls_of s out.2 = CallRecordRequest ip :: l) /\
     charges (new_calls_of s out.2) = 1%nat /\
     out.2 = (post rq s1).2 /\
     (forall r, (post rq s1).1 = Return r -> out.1.2 = r) /\
     (forall e, (post rq s1).1 = Throw e -> out.1.2 = Failed (onError e))).
Proof.
  cbv zeta. unfold app_post_screenshot, rateLimiter, new_calls_of.
  set (ip := getClientIp (headers rq)).
  set (check := checkRateLimit cfg (rateLimitStore s) (now_check rq) ip).
  destruct (allowed check); cbn [fst snd].
  2: { split; [done |]. split; [done | by intros [=]]. }
  set (s1 := logged (CallRecordRequest ip)
               (with_rateLimitStore
                  (recordRequest cfg (rateLimitStore s) (now_record rq) ip) s)).
  destruct (post_frame rq s1) as (Hstore & l & Hcalls & Hcharges).
  destruct (post rq s1) as [[r|e] s2]; cbn [fst snd] in *;
    (split; [done |]); (split; [by intros [=] |]); intros _;
    (split; [done |]); rewrite Hcalls; unfold s1; cbn [calls logged with_rateLimitStore];
    rewrite <- app_assoc, RouteSpec.new_calls;
    (split; [by eexists |]);
    (split; [change (charges ([CallRecordRequest ip] ++ l)) with (S (charges l));
             by rewrite Hcharges |]);
    (split; [done |]); split; intros ? [=]; by subst.
Qed.

End WithPlatform.


Lemma admitted_request_charged_once_witness :
  charges (new_calls_of idle (serve_toy (request_of "https://example.com" healthy) idle).2)
  = 1%nat.
Proof.
  destruct (admitted_request_charged_once toy_parser toy_zod
              (fun _ => "url: Internal/private URLs are not allowed") toy_digest defaults
              (request_of "https://example.com" healthy) idle) as (_ & _ & H).
  destruct (H eq_refl) as (_ & _ & Hc & _).
  exact Hc.
Defined.

End RouteLaws.
